(** * usd-qt undo adapter: inverse capture, routing, blocks and inversion

    A shallow embedding of the undo engine of usd-qt
    ([undoStateDelegate.cpp], [undoRouter.cpp], [undoBlock.cpp],
    [undoInverse.cpp]) and the properties of its specification.

    The engine is single threaded and works on one process-wide router
    singleton, so every C++ function becomes a function on an explicit
    [World]: the router, the state delegate of the tracked layer together
    with the layer data its handle points to, the diagnostics issued through
    TF_CODING_ERROR / TF_WARN / TF_VERIFY, the TF_DEBUG stream, the number of
    [UndoStackNotice]s sent and the host application listening to them.

    The closures [std::function<bool()>] built with [std::bind] are
    represented by the data they bind: one constructor of [Op] per bound
    member function.  The [this] they bind is the delegate of the one
    tracked layer: a closure is called in a world whose delegate is the one
    that captured it, and worlds in which another layer has been tracked
    since are outside the model.  C++ [int] counters are integers of [Z];
    signed overflow is undefined behaviour in C++ and is not modelled. *)

From stdpp Require Import gmap strings list fin_maps.

Set Default Proof Using "Type".

(** ** The document store seen by the delegate

    The Sdf layer and its [SdfData] storage belong to USD, not to this
    repository: the sources only call them.  The delegate reaches them
    through the queries and primitive mutations listed in section 6 of the
    specification; they are modelled here as a finite map from paths to
    specs, each spec holding its type and a finite map of fields.  A path is
    the list of its components from the root, and the subtree of a path is
    the set of specs whose path extends it.  Change notification
    ([SdfChangeBlock], the [inert] flag) has no effect on the data and is
    left out. *)

Abbreviation TfToken := string (only parsing).
Abbreviation SdfPath := (list string) (only parsing).
(** Sample times are only used as keys of the sample map. *)
Abbreviation SdfTime := Z (only parsing).

(** Modelled from the spec: the spec types of Sdf. *)
Inductive SdfSpecType :=
| SdfSpecTypeUnknown
| SdfSpecTypeAttribute
| SdfSpecTypeConnection
| SdfSpecTypeExpression
| SdfSpecTypeMapper
| SdfSpecTypeMapperArg
| SdfSpecTypePrim
| SdfSpecTypePseudoRoot
| SdfSpecTypeRelationship
| SdfSpecTypeRelationshipTarget
| SdfSpecTypeVariant
| SdfSpecTypeVariantSet.

#[global] Instance SdfSpecType_eq_dec : EqDecision SdfSpecType.
Proof. solve_decision. Defined.

(** Modelled from the spec: [VtValue], the values of fields, samples and
    dictionary entries.  [Value] is a held value; [VtValue], which may also
    be empty ("absent"), is [option Value]. *)
#[warnings="-register-all"] Inductive Value :=
| VtInt (z : Z)
| VtString (s : string)
| VtTokenVector (l : list string)
| VtPathVector (l : list (list string))
| VtDictionary (d : gmap string Value)
| SdfTimeSampleMap (m : gmap Z Value).

Abbreviation VtValue := (option Value) (only parsing).

(** Modelled from the spec: a spec, "a node in the store at a given path,
    with a type and a set of fields". *)
Record SpecData := mkSpecData {
  specType : SdfSpecType;
  fields : gmap string Value
}.

Abbreviation SdfData := (gmap (list string) SpecData) (only parsing).

(** Modelled from the spec: [SdfFieldKeys->TimeSamples], the name of the
    field that holds the time samples of a spec. *)
Definition SdfFieldKeys_TimeSamples : string := "timeSamples".

Definition set_fields (fs : gmap string Value) (s : SpecData) : SpecData :=
  mkSpecData (specType s) fs.

(** *** Queries *)

(** Modelled from the spec: the query get-spec-type; a path without spec
    has the unknown type. *)
Definition GetSpecType (d : SdfData) (path : SdfPath) : SdfSpecType :=
  match d !! path with
  | Some s => specType s
  | None => SdfSpecTypeUnknown
  end.

(** Modelled from the spec: the query get-field, the current value of the
    field "or absent if unset". *)
Definition GetField (d : SdfData) (path : SdfPath) (fieldName : TfToken)
  : VtValue :=
  match d !! path with
  | Some s => fields s !! fieldName
  | None => None
  end.

(** Modelled from the spec: the query has-field. *)
Definition HasField (d : SdfData) (path : SdfPath) (fieldName : TfToken)
  : bool :=
  match GetField d path fieldName with
  | Some _ => true
  | None => false
  end.

(** Modelled from the spec: the query list-fields-of-spec
    ([SdfAbstractData::List]). *)
Definition List_ (d : SdfData) (path : SdfPath) : list TfToken :=
  match d !! path with
  | Some s => (map_to_list (fields s)).*1
  | None => []
  end.

(** Modelled from the spec: the query get-dict-entry; absent when the
    field holds no dictionary or the dictionary has no such key. *)
Definition GetFieldDictValueByKey (d : SdfData) (path : SdfPath)
    (fieldName keyPath : TfToken) : VtValue :=
  match GetField d path fieldName with
  | Some (VtDictionary dict) => dict !! keyPath
  | _ => None
  end.

(** Modelled from the spec: the query query-time-sample-at-time,
    [QueryTimeSample(id, time, &value)]: the sample stored at exactly
    [time]; the out-parameter stays empty when there is none. *)
Definition QueryTimeSample (d : SdfData) (path : SdfPath) (time : SdfTime)
  : VtValue :=
  match GetField d path SdfFieldKeys_TimeSamples with
  | Some (SdfTimeSampleMap m) => m !! time
  | _ => None
  end.

(** Modelled from the spec: traverse-subtree(path, visitor),
    [SdfLayer::Traverse(path, func)]: the paths of the specs in the subtree
    rooted at [path], each visited once. *)
Definition Traverse (d : SdfData) (path : SdfPath) : list SdfPath :=
  filter (λ q, path `prefix_of` q) (map_to_list d).*1.

(** *** Storage primitives *)

(** Modelled from the spec: spec creation in the storage
    ([SdfAbstractData::CreateSpec]); it refuses the unknown type, and an
    existing spec keeps its fields and takes the new type. *)
Definition SdfData_CreateSpec (path : SdfPath) (ty : SdfSpecType)
    (d : SdfData) : SdfData :=
  match ty with
  | SdfSpecTypeUnknown => d
  | _ =>
      <[path := mkSpecData ty
                  (match d !! path with
                   | Some s => fields s
                   | None => ∅
                   end)]> d
  end.

(** Modelled from the spec: removal of a field in the storage
    ([SdfAbstractData::Erase]). *)
Definition SdfData_Erase (path : SdfPath) (fieldName : TfToken)
    (d : SdfData) : SdfData :=
  alter (λ s, set_fields (delete fieldName (fields s)) s) path d.

(** Modelled from the spec: the field write of the storage
    ([SdfAbstractData::Set]); an empty value removes the field ("remove the
    entire field"), and nothing is stored under a path that has no spec. *)
Definition SdfData_Set (path : SdfPath) (fieldName : TfToken)
    (value : VtValue) (d : SdfData) : SdfData :=
  match value with
  | Some v => alter (λ s, set_fields (<[fieldName := v]> (fields s)) s) path d
  | None => SdfData_Erase path fieldName d
  end.

(** Modelled from the spec: the primitive set-field of the layer. *)
Definition _PrimSetField := SdfData_Set.

(** Modelled from the spec: the primitive set-dict-entry of the layer.  The
    dictionary of the field is read, changed at the key and written back; a
    dictionary emptied by the removal of its last key is removed. *)
Definition _PrimSetFieldDictValueByKey (path : SdfPath)
    (fieldName keyPath : TfToken) (value : VtValue) (d : SdfData) : SdfData :=
  let dict :=
    match GetField d path fieldName with
    | Some (VtDictionary dict) => dict
    | _ => ∅
    end in
  match value with
  | Some v =>
      SdfData_Set path fieldName (Some (VtDictionary (<[keyPath := v]> dict))) d
  | None =>
      match GetField d path fieldName with
      | Some (VtDictionary _) =>
          let dict' := delete keyPath dict in
          if Nat.eqb (size dict') 0
          then SdfData_Erase path fieldName d
          else SdfData_Set path fieldName (Some (VtDictionary dict')) d
      | _ => d
      end
  end.

(** Modelled from the spec: the primitive set-time-sample of the layer.
    The sample map of the field [timeSamples] is read, changed at the time
    and written back; a map emptied by the removal of its last sample is
    removed. *)
Definition _PrimSetTimeSample (path : SdfPath) (time : SdfTime)
    (value : VtValue) (d : SdfData) : SdfData :=
  let samples :=
    match GetField d path SdfFieldKeys_TimeSamples with
    | Some (SdfTimeSampleMap m) => m
    | _ => ∅
    end in
  match value with
  | Some v =>
      SdfData_Set path SdfFieldKeys_TimeSamples
        (Some (SdfTimeSampleMap (<[time := v]> samples))) d
  | None =>
      let samples' := delete time samples in
      if Nat.eqb (size samples') 0
      then SdfData_Erase path SdfFieldKeys_TimeSamples d
      else SdfData_Set path SdfFieldKeys_TimeSamples
             (Some (SdfTimeSampleMap samples')) d
  end.

(** Modelled from the spec: the primitive create-spec of the layer. *)
Definition _PrimCreateSpec (path : SdfPath) (ty : SdfSpecType) (inert : bool)
    (d : SdfData) : SdfData :=
  SdfData_CreateSpec path ty d.

(** Modelled from the spec: the primitive delete-spec of the layer; it
    erases every spec of the subtree. *)
Definition _PrimDeleteSpec (path : SdfPath) (inert : bool) (d : SdfData)
  : SdfData :=
  foldl (λ acc q, delete q acc) d (Traverse d path).

(** Modelled from the spec: [SdfPath::ReplacePrefix]. *)
Definition ReplacePrefix (oldPath newPath q : SdfPath) : SdfPath :=
  newPath ++ drop (length oldPath) q.

(** Modelled from the spec: the primitive move-spec of the layer; every
    spec of the subtree of [oldPath] moves to the path with the prefix
    replaced. *)
Definition _PrimMoveSpec (oldPath newPath : SdfPath) (d : SdfData) : SdfData :=
  foldl (λ acc q,
           match d !! q with
           | Some s => <[ReplacePrefix oldPath newPath q := s]> (delete q acc)
           | None => acc
           end) d (Traverse d oldPath).

(** Modelled from the spec: the token-valued and path-valued child lists
    held by a field; a field that holds no such list counts as empty. *)
Definition token_children (d : SdfData) (path : SdfPath) (f : TfToken)
  : list string :=
  match GetField d path f with
  | Some (VtTokenVector l) => l
  | _ => []
  end.

(** Modelled from the spec: the path-valued child list held by a field. *)
Definition path_children (d : SdfData) (path : SdfPath) (f : TfToken)
  : list (list string) :=
  match GetField d path f with
  | Some (VtPathVector l) => l
  | _ => []
  end.

(** Modelled from the spec: the primitives push-child of the layer, token
    and path variants; the child goes to the end of the list. *)
Definition _PrimPushTokenChild (parent : SdfPath) (f : TfToken)
    (value : TfToken) (d : SdfData) : SdfData :=
  SdfData_Set parent f
    (Some (VtTokenVector (token_children d parent f ++ [value]))) d.

(** Modelled from the spec: the primitive push-child of the layer, path
    variant. *)
Definition _PrimPushPathChild (parent : SdfPath) (f : TfToken)
    (value : SdfPath) (d : SdfData) : SdfData :=
  SdfData_Set parent f
    (Some (VtPathVector (path_children d parent f ++ [value]))) d.

(** Modelled from the spec: the primitives pop-child of the layer, token
    and path variants; the last element is removed, and popping an empty
    list is refused. *)
Definition _PrimPopTokenChild (parent : SdfPath) (f : TfToken)
    (d : SdfData) : SdfData :=
  match token_children d parent f with
  | [] => d
  | l => SdfData_Set parent f (Some (VtTokenVector (removelast l))) d
  end.

(** Modelled from the spec: the primitive pop-child of the layer, path
    variant. *)
Definition _PrimPopPathChild (parent : SdfPath) (f : TfToken)
    (d : SdfData) : SdfData :=
  match path_children d parent f with
  | [] => d
  | l => SdfData_Set parent f (Some (VtPathVector (removelast l))) d
  end.

(** ** Edits and inverses *)

(** Modelled from the spec: the primitive mutation hooks the store invokes
    on its delegate, one constructor per entry point of
    [SdfLayerStateDelegateBase]. *)
Inductive Edit :=
| ESetField (path : list string) (fieldName : string) (value : option Value)
| ESetFieldDictValueByKey (path : list string) (fieldName keyPath : string)
    (value : option Value)
| ESetTimeSample (path : list string) (time : Z) (value : option Value)
| ECreateSpec (path : list string) (ty : SdfSpecType) (inert : bool)
| EDeleteSpec (path : list string) (inert : bool)
| EMoveSpec (oldPath newPath : list string)
| EPushTokenChild (parentPath : list string) (fieldName value : string)
| EPushPathChild (parentPath : list string) (fieldName : string)
    (value : list string)
| EPopTokenChild (parentPath : list string) (fieldName oldValue : string)
| EPopPathChild (parentPath : list string) (fieldName : string)
    (oldValue : list string).

(** An inverse is the closure [std::bind(&UsdQt_UndoStateDelegate::_InvertX,
    this, args...)]; it is represented by the member function and the bound
    arguments. *)
Inductive Op :=
| bind_InvertSetField (path : list string) (fieldName : string)
    (inverse : option Value)
| bind_InvertSetFieldDictValueByKey (path : list string)
    (fieldName keyPath : string) (inverse : option Value)
| bind_InvertSetTimeSample (path : list string) (time : Z)
    (inverse : option Value)
| bind_InvertCreateSpec (path : list string) (inert : bool)
| bind_InvertDeleteSpec (path : list string) (inert : bool)
    (deletedSpecType : SdfSpecType) (deletedData : gmap (list string) SpecData)
| bind_InvertMoveSpec (oldPath newPath : list string)
| bind_InvertPushTokenChild (parentPath : list string)
    (fieldName value : string)
| bind_InvertPopTokenChild (parentPath : list string)
    (fieldName value : string)
| bind_InvertPushPathChild (parentPath : list string) (fieldName : string)
    (value : list string)
| bind_InvertPopPathChild (parentPath : list string) (fieldName : string)
    (value : list string).

(** [UsdQtUndoInverse] is its vector [_inversion] (the member [_name] is
    never read or written). *)
Abbreviation UsdQtUndoInverse := (list Op) (only parsing).

(** ** The world *)

(** Modelled from the spec: the diagnostic channel of the host, fed by
    TF_CODING_ERROR, TF_WARN and failed TF_VERIFY. *)
Inductive Diagnostic :=
| CodingError (msg : string)
| Warning (msg : string)
| FailedVerify (expr : string).

(** The TF_DEBUG stream: one event per message, carrying the call the
    message reports. *)
Inductive DebugMsg :=
| DbgOpeningBlock (depth : Z)
| DbgSkippingNotice
| DbgNoticeSent
| DbgClosedBlock (depth : Z)
| DbgInverting (inverse : Op)
| DbgHook (what : string) (path : list string).

Record UsdQtUndoRouter := mkRouter {
  _depth : Z;
  _inversion : list Op;
  _muteDepth : Z
}.

(** The delegate with the layer its handle [_layer] points to; [None] is an
    expired handle. *)
Record UsdQt_UndoStateDelegate := mkDelegate {
  _layer : option (gmap (list string) SpecData);
  _dirty : bool
}.

(** Modelled from the spec: the host application.  A listening host
    handles [UndoStackNotice] the way undoRouter.h asks for: it adopts the
    edits of the router into a fresh [UsdQtUndoInverse] and puts it on its
    undo stack.  A host that does not listen leaves the edits where they
    are. *)
Record Host := mkHost {
  listening : bool;
  undoStack : list (list Op)
}.

Record World := mkWorld {
  router : UsdQtUndoRouter;
  delegate : UsdQt_UndoStateDelegate;
  diagnostics : list Diagnostic;
  debugLog : list DebugMsg;
  notices : nat;
  host : Host
}.

Definition set_router (r : UsdQtUndoRouter) (w : World) : World :=
  mkWorld r (delegate w) (diagnostics w) (debugLog w) (notices w) (host w).

Definition set_depth (n : Z) (w : World) : World :=
  set_router (mkRouter n (_inversion (router w)) (_muteDepth (router w))) w.

Definition set_inversion (l : list Op) (w : World) : World :=
  set_router (mkRouter (_depth (router w)) l (_muteDepth (router w))) w.

Definition set_muteDepth (n : Z) (w : World) : World :=
  set_router (mkRouter (_depth (router w)) (_inversion (router w)) n) w.

Definition set_delegate (dl : UsdQt_UndoStateDelegate) (w : World) : World :=
  mkWorld (router w) dl (diagnostics w) (debugLog w) (notices w) (host w).

Definition set_layer_data (d : SdfData) (w : World) : World :=
  set_delegate (mkDelegate (Some d) (_dirty (delegate w))) w.

Definition set_host (h : Host) (w : World) : World :=
  mkWorld (router w) (delegate w) (diagnostics w) (debugLog w) (notices w) h.

Definition report (x : Diagnostic) (w : World) : World :=
  mkWorld (router w) (delegate w) (diagnostics w ++ [x]) (debugLog w)
    (notices w) (host w).

Definition TF_CODING_ERROR (msg : string) : World → World :=
  report (CodingError msg).

Definition TF_WARN (msg : string) : World → World :=
  report (Warning msg).

Definition TF_VERIFY (cond : bool) (expr : string) (w : World) : World :=
  if cond then w else report (FailedVerify expr) w.

Definition TF_DEBUG (m : DebugMsg) (w : World) : World :=
  mkWorld (router w) (delegate w) (diagnostics w) (debugLog w ++ [m])
    (notices w) (host w).

(** The texts of the diagnostics of undoBlock.cpp, undoRouter.cpp,
    undoInverse.cpp and of [_RouteInverse]. *)
Definition depth_verify_expr : string := "router._depth >= 0".

Definition fragmented_msg : string :=
  "Opening fragmented undo block. This may be because of an undo command running inside of an edit block.".

Definition not_adopted_msg : string :=
  "All edits have not been adopted. Undo stack may be incomplete.".

Definition mute_depth_msg : string := "Mute depth error.".

Definition open_block_msg : string :=
  "Inversion during open edit block may result in corrupted undo stack.".

Definition muted_msg : string :=
  "Performance Warning.  Inverse should be muted earlier in stack.".

(** ** undoInverse.cpp, the vector operations *)

Definition _Append (inverse : Op) (self : UsdQtUndoInverse)
  : UsdQtUndoInverse :=
  self ++ [inverse].

Definition _Clear (self : UsdQtUndoInverse) : UsdQtUndoInverse := [].

Definition _GetSize (self : UsdQtUndoInverse) : nat := length self.

(** [for (int i = 0; i < inversion._inversion.size(); i++)
       _inversion.push_back(inversion._inversion[i]);]
    with [n] the iterations left. *)
Fixpoint _Adopt_loop (inversion : UsdQtUndoInverse) (i n : nat)
    (self : UsdQtUndoInverse) : UsdQtUndoInverse :=
  match n with
  | O => self
  | S n' =>
      match inversion !! i with
      | Some inverse => _Adopt_loop inversion (S i) n' (self ++ [inverse])
      | None => self
      end
  end.

Definition _Adopt (inversion : UsdQtUndoInverse) (self : UsdQtUndoInverse)
  : UsdQtUndoInverse :=
  _Adopt_loop inversion 0 (length inversion) self.

(** ** undoRouter.cpp and undoBlock.cpp *)

(** [UsdQtUndoRouter::TransferEdits(inverse)] *)
Definition TransferEdits (inverse : UsdQtUndoInverse) (w : World)
  : bool * UsdQtUndoInverse * World :=
  let inverse := _Adopt (_inversion (router w)) inverse in
  let w := set_inversion (_Clear (_inversion (router w))) w in
  (true, inverse, w).

(** [UsdQt::UndoStackNotice().Send()]: the notice is counted and delivered
    synchronously to the host, which runs its listener before [Send]
    returns. *)
Definition UndoStackNotice_Send (w : World) : World :=
  let w := mkWorld (router w) (delegate w) (diagnostics w) (debugLog w)
             (S (notices w)) (host w) in
  if listening (host w) then
    let '(_, inverse, w) := TransferEdits [] w in
    set_host (mkHost true (inverse :: undoStack (host w))) w
  else w.

Definition _Initialize (w : World) : World :=
  let w := TF_VERIFY (0 <=? _depth (router w))%Z depth_verify_expr w in
  let w := TF_DEBUG (DbgOpeningBlock (_depth (router w))) w in
  let w :=
    if (_depth (router w) =? 0)%Z then
      if negb (_GetSize (_inversion (router w)) =? 0)%nat then
        TF_CODING_ERROR fragmented_msg w
      else w
    else w in
  set_depth (_depth (router w) + 1)%Z w.

(** [UsdQtUndoBlock::UsdQtUndoBlock()] *)
Definition UsdQtUndoBlock_ctor (w : World) : World := _Initialize w.

(** [UsdQtUndoBlock::~UsdQtUndoBlock()] *)
Definition UsdQtUndoBlock_dtor (w : World) : World :=
  let w := set_depth (_depth (router w) - 1)%Z w in
  let w := TF_VERIFY (0 <=? _depth (router w))%Z depth_verify_expr w in
  let w :=
    if (_depth (router w) =? 0)%Z then
      if (_GetSize (_inversion (router w)) <? 1)%nat then
        TF_DEBUG DbgSkippingNotice w
      else
        let w := UndoStackNotice_Send w in
        let w := TF_DEBUG DbgNoticeSent w in
        if (0 <? _GetSize (_inversion (router w)))%nat then
          let w := TF_CODING_ERROR not_adopted_msg w in
          set_inversion (_Clear (_inversion (router w))) w
        else w
    else w in
  TF_DEBUG (DbgClosedBlock (_depth (router w))) w.

Definition _AddInverse (inverse : Op) (w : World) : World :=
  let w := UsdQtUndoBlock_ctor w in
  let w := set_inversion (_Append inverse (_inversion (router w))) w in
  UsdQtUndoBlock_dtor w.

Definition _Mute (w : World) : World :=
  set_muteDepth (_muteDepth (router w) + 1)%Z w.

Definition _Unmute (w : World) : World :=
  let w := set_muteDepth (_muteDepth (router w) - 1)%Z w in
  if (_muteDepth (router w) <? 0)%Z then TF_CODING_ERROR mute_depth_msg w
  else w.

Definition IsMuted (w : World) : bool := (0 <? _muteDepth (router w))%Z.

(** ** undoStateDelegate.cpp *)

(** [UsdQt_UndoStateDelegate::New()] *)
Definition New : UsdQt_UndoStateDelegate := mkDelegate None false.

Definition _IsDirty (w : World) : bool := _dirty (delegate w).

Definition _MarkCurrentStateAsClean (w : World) : World :=
  set_delegate (mkDelegate (_layer (delegate w)) false) w.

Definition _MarkCurrentStateAsDirty (w : World) : World :=
  set_delegate (mkDelegate (_layer (delegate w)) true) w.

Definition _OnSetLayer (layer : option SdfData) (w : World) : World :=
  match layer with
  | Some l => set_delegate (mkDelegate (Some l) (_dirty (delegate w))) w
  | None => set_delegate (mkDelegate None (_dirty (delegate w))) w
  end.

(** [UsdQtUndoRouter::TrackLayer]: [layer->SetStateDelegate(New())]. *)
Definition TrackLayer (layer : SdfData) (w : World) : bool * World :=
  (true, _OnSetLayer (Some layer) (set_delegate New w)).

Definition _RouteInverse (inverse : Op) (w : World) : World :=
  if negb (IsMuted w) then _AddInverse inverse w
  else TF_WARN muted_msg w.

(** *** The hooks

    A hook runs while the layer performs an edit, so the handle is live; a
    hook takes the data [layer] the handle points to. *)

Definition _OnSetFieldImpl (layer : SdfData) (id : SdfPath)
    (fieldName : TfToken) (w : World) : World :=
  let w := TF_DEBUG (DbgHook "Setting Field" id) w in
  let w := _MarkCurrentStateAsDirty w in
  let inverseValue := GetField layer id fieldName in
  _RouteInverse (bind_InvertSetField id fieldName inverseValue) w.

Definition _OnSetFieldDictValueByKeyImpl (layer : SdfData) (id : SdfPath)
    (fieldName keyPath : TfToken) (w : World) : World :=
  let w := TF_DEBUG (DbgHook "Setting Dictionary Field" id) w in
  let w := _MarkCurrentStateAsDirty w in
  let inverseValue := GetFieldDictValueByKey layer id fieldName keyPath in
  _RouteInverse
    (bind_InvertSetFieldDictValueByKey id fieldName keyPath inverseValue) w.

Definition _OnSetTimeSampleImpl (layer : SdfData) (id : SdfPath)
    (time : SdfTime) (w : World) : World :=
  let w := TF_DEBUG (DbgHook "Setting Time Sample" id) w in
  let w := _MarkCurrentStateAsDirty w in
  if negb (HasField layer id SdfFieldKeys_TimeSamples) then
    _RouteInverse (bind_InvertSetField id SdfFieldKeys_TimeSamples None) w
  else
    let oldValue := QueryTimeSample layer id time in
    _RouteInverse (bind_InvertSetTimeSample id time oldValue) w.

Definition _OnSetField (layer : SdfData) (id : SdfPath) (fieldName : TfToken)
    (value : VtValue) : World → World :=
  _OnSetFieldImpl layer id fieldName.

Definition _OnSetFieldDictValueByKey (layer : SdfData) (id : SdfPath)
    (fieldName keyPath : TfToken) (value : VtValue) : World → World :=
  _OnSetFieldDictValueByKeyImpl layer id fieldName keyPath.

Definition _OnSetTimeSample (layer : SdfData) (id : SdfPath) (time : SdfTime)
    (value : VtValue) : World → World :=
  _OnSetTimeSampleImpl layer id time.

Definition _OnCreateSpec (layer : SdfData) (path : SdfPath)
    (ty : SdfSpecType) (inert : bool) (w : World) : World :=
  let w := TF_DEBUG (DbgHook "Creating spec" path) w in
  let w := _MarkCurrentStateAsDirty w in
  _RouteInverse (bind_InvertCreateSpec path inert) w.

Definition _CopySpec (src : SdfData) (dst : SdfData) (specId : SdfPath)
  : SdfData :=
  let dst := SdfData_CreateSpec specId (GetSpecType src specId) dst in
  foldl (λ dst i, SdfData_Set specId i (GetField src specId i) dst)
    dst (List_ src specId).

Definition _CopySpecAtPath (src : SdfData) (dst : SdfData) (path : SdfPath)
  : SdfData :=
  _CopySpec src dst path.

Definition _OnDeleteSpec (layer : SdfData) (path : SdfPath) (inert : bool)
    (w : World) : World :=
  let w := TF_DEBUG (DbgHook "Deleting spec" path) w in
  let w := _MarkCurrentStateAsDirty w in
  let deletedData :=
    foldl (_CopySpecAtPath layer) (∅ : SdfData) (Traverse layer path) in
  let deletedSpecType := GetSpecType layer path in
  _RouteInverse
    (bind_InvertDeleteSpec path inert deletedSpecType deletedData) w.

Definition _OnMoveSpec (layer : SdfData) (oldPath newPath : SdfPath)
    (w : World) : World :=
  let w := TF_DEBUG (DbgHook "Moving spec" oldPath) w in
  let w := _MarkCurrentStateAsDirty w in
  _RouteInverse (bind_InvertMoveSpec oldPath newPath) w.

Definition _OnPushTokenChild (layer : SdfData) (parentPath : SdfPath)
    (fieldName value : TfToken) (w : World) : World :=
  let w := TF_DEBUG (DbgHook "Pushing field" parentPath) w in
  let w := _MarkCurrentStateAsDirty w in
  _RouteInverse (bind_InvertPushTokenChild parentPath fieldName value) w.

Definition _OnPushPathChild (layer : SdfData) (parentPath : SdfPath)
    (fieldName : TfToken) (value : SdfPath) (w : World) : World :=
  let w := TF_DEBUG (DbgHook "Pushing field" parentPath) w in
  let w := _MarkCurrentStateAsDirty w in
  _RouteInverse (bind_InvertPushPathChild parentPath fieldName value) w.

Definition _OnPopTokenChild (layer : SdfData) (parentPath : SdfPath)
    (fieldName oldValue : TfToken) (w : World) : World :=
  let w := TF_DEBUG (DbgHook "Popping field" parentPath) w in
  let w := _MarkCurrentStateAsDirty w in
  _RouteInverse (bind_InvertPopTokenChild parentPath fieldName oldValue) w.

Definition _OnPopPathChild (layer : SdfData) (parentPath : SdfPath)
    (fieldName : TfToken) (oldValue : SdfPath) (w : World) : World :=
  let w := TF_DEBUG (DbgHook "Popping field" parentPath) w in
  let w := _MarkCurrentStateAsDirty w in
  _RouteInverse (bind_InvertPopPathChild parentPath fieldName oldValue) w.

(** *** The entry points of the base class *)

(** Modelled from the spec: [SdfLayerStateDelegateBase::SetField] and its
    siblings, of USD; each calls the hook of the delegate, which captures
    the state before the mutation, and then the primitive of the layer.  The
    layer calls them only through a live handle. *)

Definition through_delegate (hook : SdfData → World → World)
    (prim : SdfData → SdfData) (w : World) : World :=
  match _layer (delegate w) with
  | Some layer => set_layer_data (prim layer) (hook layer w)
  | None => w
  end.

Definition SetField (path : SdfPath) (fieldName : TfToken) (value : VtValue)
  : World → World :=
  through_delegate (λ l, _OnSetField l path fieldName value)
    (_PrimSetField path fieldName value).

Definition SetFieldDictValueByKey (path : SdfPath) (fieldName keyPath : TfToken)
    (value : VtValue) : World → World :=
  through_delegate
    (λ l, _OnSetFieldDictValueByKey l path fieldName keyPath value)
    (_PrimSetFieldDictValueByKey path fieldName keyPath value).

Definition SetTimeSample (path : SdfPath) (time : SdfTime) (value : VtValue)
  : World → World :=
  through_delegate (λ l, _OnSetTimeSample l path time value)
    (_PrimSetTimeSample path time value).

Definition CreateSpec (path : SdfPath) (ty : SdfSpecType) (inert : bool)
  : World → World :=
  through_delegate (λ l, _OnCreateSpec l path ty inert)
    (_PrimCreateSpec path ty inert).

Definition DeleteSpec (path : SdfPath) (inert : bool) : World → World :=
  through_delegate (λ l, _OnDeleteSpec l path inert)
    (_PrimDeleteSpec path inert).

Definition MoveSpec (oldPath newPath : SdfPath) : World → World :=
  through_delegate (λ l, _OnMoveSpec l oldPath newPath)
    (_PrimMoveSpec oldPath newPath).

Definition PushTokenChild (parentPath : SdfPath) (fieldName value : TfToken)
  : World → World :=
  through_delegate (λ l, _OnPushTokenChild l parentPath fieldName value)
    (_PrimPushTokenChild parentPath fieldName value).

Definition PushPathChild (parentPath : SdfPath) (fieldName : TfToken)
    (value : SdfPath) : World → World :=
  through_delegate (λ l, _OnPushPathChild l parentPath fieldName value)
    (_PrimPushPathChild parentPath fieldName value).

Definition PopTokenChild (parentPath : SdfPath) (fieldName oldValue : TfToken)
  : World → World :=
  through_delegate (λ l, _OnPopTokenChild l parentPath fieldName oldValue)
    (_PrimPopTokenChild parentPath fieldName).

Definition PopPathChild (parentPath : SdfPath) (fieldName : TfToken)
    (oldValue : SdfPath) : World → World :=
  through_delegate (λ l, _OnPopPathChild l parentPath fieldName oldValue)
    (_PrimPopPathChild parentPath fieldName).

(** An edit of the layer, dispatched to its entry point. *)
Definition edit (e : Edit) : World → World :=
  match e with
  | ESetField p f v => SetField p f v
  | ESetFieldDictValueByKey p f k v => SetFieldDictValueByKey p f k v
  | ESetTimeSample p t v => SetTimeSample p t v
  | ECreateSpec p ty i => CreateSpec p ty i
  | EDeleteSpec p i => DeleteSpec p i
  | EMoveSpec o n => MoveSpec o n
  | EPushTokenChild p f v => PushTokenChild p f v
  | EPushPathChild p f v => PushPathChild p f v
  | EPopTokenChild p f v => PopTokenChild p f v
  | EPopPathChild p f v => PopPathChild p f v
  end.

(** *** The inverses *)

(** The body shared by the [_InvertX] members: the debug message, the check
    of the handle with its coding error, then the action. *)
Definition inverting (self : Op) (expired : string) (act : World → World)
    (w : World) : bool * World :=
  let w := TF_DEBUG (DbgInverting self) w in
  match _layer (delegate w) with
  | None => (false, TF_CODING_ERROR expired w)
  | Some _ => (true, act w)
  end.

Definition _InvertSetField (path : SdfPath) (fieldName : TfToken)
    (inverse : VtValue) : World → bool * World :=
  inverting (bind_InvertSetField path fieldName inverse)
    "Cannot invert field for expired layer."
    (SetField path fieldName inverse).

Definition _InvertSetFieldDictValueByKey (path : SdfPath)
    (fieldName keyPath : TfToken) (inverse : VtValue)
  : World → bool * World :=
  inverting (bind_InvertSetFieldDictValueByKey path fieldName keyPath inverse)
    "Cannot invert field dictionary value for expired layer."
    (SetFieldDictValueByKey path fieldName keyPath inverse).

Definition _InvertSetTimeSample (path : SdfPath) (time : SdfTime)
    (inverse : VtValue) : World → bool * World :=
  inverting (bind_InvertSetTimeSample path time inverse)
    "Cannot invert time sample for expired layer."
    (SetTimeSample path time inverse).

Definition _InvertCreateSpec (path : SdfPath) (inert : bool)
  : World → bool * World :=
  inverting (bind_InvertCreateSpec path inert)
    "Cannot invert spec creation for expired layer."
    (DeleteSpec path inert).

(** [deletedData->VisitSpecs(&specCopier)]: [_CopySpec] for every spec of the
    snapshot, written straight into the layer data. *)
Definition VisitSpecs_SpecCopier (deletedData : SdfData) (w : World) : World :=
  match _layer (delegate w) with
  | Some dst =>
      set_layer_data
        (foldl (_CopySpec deletedData) dst (map_to_list deletedData).*1) w
  | None => w
  end.

Definition _InvertDeleteSpec (path : SdfPath) (inert : bool)
    (deletedSpecType : SdfSpecType) (deletedData : SdfData)
  : World → bool * World :=
  inverting (bind_InvertDeleteSpec path inert deletedSpecType deletedData)
    "Cannot invert spec deletion for expired layer."
    (λ w, let w := CreateSpec path deletedSpecType inert w in
          VisitSpecs_SpecCopier deletedData w).

Definition _InvertMoveSpec (oldPath newPath : SdfPath)
  : World → bool * World :=
  inverting (bind_InvertMoveSpec oldPath newPath)
    "Cannot invert spec move for expired layer."
    (MoveSpec newPath oldPath).

Definition _InvertPushTokenChild (parentPath : SdfPath)
    (fieldName value : TfToken) : World → bool * World :=
  inverting (bind_InvertPushTokenChild parentPath fieldName value)
    "Cannot invert push child for expired layer."
    (PopTokenChild parentPath fieldName value).

Definition _InvertPopTokenChild (parentPath : SdfPath)
    (fieldName value : TfToken) : World → bool * World :=
  inverting (bind_InvertPopTokenChild parentPath fieldName value)
    "Cannot invert pop child for expired layer."
    (PushTokenChild parentPath fieldName value).

Definition _InvertPushPathChild (parentPath : SdfPath) (fieldName : TfToken)
    (value : SdfPath) : World → bool * World :=
  inverting (bind_InvertPushPathChild parentPath fieldName value)
    "Cannot invert push child for expired layer."
    (PopPathChild parentPath fieldName value).

Definition _InvertPopPathChild (parentPath : SdfPath) (fieldName : TfToken)
    (value : SdfPath) : World → bool * World :=
  inverting (bind_InvertPopPathChild parentPath fieldName value)
    "Cannot invert pop child for expired layer."
    (PushPathChild parentPath fieldName value).

(** Calling a closure: [inverse()]. *)
Definition call (inverse : Op) : World → bool * World :=
  match inverse with
  | bind_InvertSetField p f v => _InvertSetField p f v
  | bind_InvertSetFieldDictValueByKey p f k v =>
      _InvertSetFieldDictValueByKey p f k v
  | bind_InvertSetTimeSample p t v => _InvertSetTimeSample p t v
  | bind_InvertCreateSpec p i => _InvertCreateSpec p i
  | bind_InvertDeleteSpec p i ty data => _InvertDeleteSpec p i ty data
  | bind_InvertMoveSpec o n => _InvertMoveSpec o n
  | bind_InvertPushTokenChild p f v => _InvertPushTokenChild p f v
  | bind_InvertPopTokenChild p f v => _InvertPopTokenChild p f v
  | bind_InvertPushPathChild p f v => _InvertPushPathChild p f v
  | bind_InvertPopPathChild p f v => _InvertPopPathChild p f v
  end.

(** ** undoInverse.cpp, inversion *)

(** [for (int i = 0; i < _inversion.size(); i++)
       _inversion[_inversion.size() - i - 1]();]
    with [n] the iterations left; the value returned by the closure is
    dropped. *)
Fixpoint _Invert_loop (self : UsdQtUndoInverse) (i n : nat) (w : World)
  : World :=
  match n with
  | O => w
  | S n' =>
      match self !! (length self - i - 1)%nat with
      | Some inverse => _Invert_loop self (S i) n' (call inverse w).2
      | None => w
      end
  end.

Definition _Invert (self : UsdQtUndoInverse) (w : World) : World :=
  _Invert_loop self 0 (length self) w.

(** [UsdQtUndoInverse::Invert()]: returns the object after the call and the
    world; the block [editBlock] is closed when the function returns. *)
Definition Invert (self : UsdQtUndoInverse) (w : World)
  : UsdQtUndoInverse * World :=
  let w :=
    if negb (_depth (router w) =? 0)%Z then
      TF_CODING_ERROR open_block_msg w
    else w in
  let w := UsdQtUndoBlock_ctor w in
  let w := _Invert self w in
  let self := _Clear self in
  let self := _Adopt (_inversion (router w)) self in
  let w := set_inversion (_Clear (_inversion (router w))) w in
  let w := UsdQtUndoBlock_dtor w in
  (self, w).

(** [UsdQtUndoInverse::UsdQtUndoInverse(UsdQtUndoRouter&)] *)
Definition UsdQtUndoInverse_from_router (w : World)
  : UsdQtUndoInverse * World :=
  let self := _Adopt (_inversion (router w)) [] in
  (self, set_inversion (_Clear (_inversion (router w))) w).

(** A fresh process: the router singleton as constructed, no layer tracked
    yet. *)
Definition initial (h : Host) : World :=
  mkWorld (mkRouter 0 [] 0) New [] [] 0 h.

(** ** Summaries used to state the properties

    What an edit does to the layer data, which closure its hook routes, and
    what calling a closure amounts to; each is related to the functions above
    by a lemma. *)

(** The primitive of the layer behind each entry point. *)
Definition prim (e : Edit) (d : SdfData) : SdfData :=
  match e with
  | ESetField p f v => _PrimSetField p f v d
  | ESetFieldDictValueByKey p f k v => _PrimSetFieldDictValueByKey p f k v d
  | ESetTimeSample p t v => _PrimSetTimeSample p t v d
  | ECreateSpec p ty i => _PrimCreateSpec p ty i d
  | EDeleteSpec p i => _PrimDeleteSpec p i d
  | EMoveSpec o n => _PrimMoveSpec o n d
  | EPushTokenChild p f v => _PrimPushTokenChild p f v d
  | EPushPathChild p f v => _PrimPushPathChild p f v d
  | EPopTokenChild p f v => _PrimPopTokenChild p f d
  | EPopPathChild p f v => _PrimPopPathChild p f d
  end.

(** The closure the hook of an edit routes, on layer data [d]. *)
Definition capture (d : SdfData) (e : Edit) : Op :=
  match e with
  | ESetField p f v => bind_InvertSetField p f (GetField d p f)
  | ESetFieldDictValueByKey p f k v =>
      bind_InvertSetFieldDictValueByKey p f k (GetFieldDictValueByKey d p f k)
  | ESetTimeSample p t v =>
      if negb (HasField d p SdfFieldKeys_TimeSamples)
      then bind_InvertSetField p SdfFieldKeys_TimeSamples None
      else bind_InvertSetTimeSample p t (QueryTimeSample d p t)
  | ECreateSpec p ty i => bind_InvertCreateSpec p i
  | EDeleteSpec p i =>
      bind_InvertDeleteSpec p i (GetSpecType d p)
        (foldl (_CopySpecAtPath d) ∅ (Traverse d p))
  | EMoveSpec o n => bind_InvertMoveSpec o n
  | EPushTokenChild p f v => bind_InvertPushTokenChild p f v
  | EPushPathChild p f v => bind_InvertPushPathChild p f v
  | EPopTokenChild p f v => bind_InvertPopTokenChild p f v
  | EPopPathChild p f v => bind_InvertPopPathChild p f v
  end.

(** The TF_DEBUG message of the hook of an edit. *)
Definition hook_msg (e : Edit) : DebugMsg :=
  match e with
  | ESetField p _ _ => DbgHook "Setting Field" p
  | ESetFieldDictValueByKey p _ _ _ => DbgHook "Setting Dictionary Field" p
  | ESetTimeSample p _ _ => DbgHook "Setting Time Sample" p
  | ECreateSpec p _ _ => DbgHook "Creating spec" p
  | EDeleteSpec p _ => DbgHook "Deleting spec" p
  | EMoveSpec o _ => DbgHook "Moving spec" o
  | EPushTokenChild p _ _ | EPushPathChild p _ _ => DbgHook "Pushing field" p
  | EPopTokenChild p _ _ | EPopPathChild p _ _ => DbgHook "Popping field" p
  end.

(** The edit a closure performs through the delegate when it is called. *)
Definition op_edit (inverse : Op) : Edit :=
  match inverse with
  | bind_InvertSetField p f v => ESetField p f v
  | bind_InvertSetFieldDictValueByKey p f k v =>
      ESetFieldDictValueByKey p f k v
  | bind_InvertSetTimeSample p t v => ESetTimeSample p t v
  | bind_InvertCreateSpec p i => EDeleteSpec p i
  | bind_InvertDeleteSpec p i ty _ => ECreateSpec p ty i
  | bind_InvertMoveSpec o n => EMoveSpec n o
  | bind_InvertPushTokenChild p f v => EPopTokenChild p f v
  | bind_InvertPopTokenChild p f v => EPushTokenChild p f v
  | bind_InvertPushPathChild p f v => EPopPathChild p f v
  | bind_InvertPopPathChild p f v => EPushPathChild p f v
  end.

(** What a closure writes into the layer data without going through the
    delegate: the copy of the snapshot, for an inverted deletion. *)
Definition op_copy (inverse : Op) (d : SdfData) : SdfData :=
  match inverse with
  | bind_InvertDeleteSpec _ _ _ data =>
      foldl (_CopySpec data) d (map_to_list data).*1
  | _ => d
  end.

(** The message of the coding error of a closure called on an expired
    layer. *)
Definition expired_msg (inverse : Op) : string :=
  match inverse with
  | bind_InvertSetField _ _ _ => "Cannot invert field for expired layer."
  | bind_InvertSetFieldDictValueByKey _ _ _ _ =>
      "Cannot invert field dictionary value for expired layer."
  | bind_InvertSetTimeSample _ _ _ =>
      "Cannot invert time sample for expired layer."
  | bind_InvertCreateSpec _ _ =>
      "Cannot invert spec creation for expired layer."
  | bind_InvertDeleteSpec _ _ _ _ =>
      "Cannot invert spec deletion for expired layer."
  | bind_InvertMoveSpec _ _ => "Cannot invert spec move for expired layer."
  | bind_InvertPushTokenChild _ _ _ | bind_InvertPushPathChild _ _ _ =>
      "Cannot invert push child for expired layer."
  | bind_InvertPopTokenChild _ _ _ | bind_InvertPopPathChild _ _ _ =>
      "Cannot invert pop child for expired layer."
  end.

(** The layer data after a closure was called on data [d], and the closure
    routed meanwhile. *)
Definition op_post (inverse : Op) (d : SdfData) : SdfData :=
  op_copy inverse (prim (op_edit inverse) d).

Definition op_recapture (inverse : Op) (d : SdfData) : Op :=
  capture d (op_edit inverse).

(** A batch of edits on data [d]: the data afterwards and the closures
    routed, in order. *)
Definition prims (es : list Edit) (d : SdfData) : SdfData :=
  foldl (λ d e, prim e d) d es.

Fixpoint captures (d : SdfData) (es : list Edit) : list Op :=
  match es with
  | [] => []
  | e :: es' => capture d e :: captures (prim e d) es'
  end.

(** A replay, closures in the order they are called. *)
Definition replay (ops : list Op) (w : World) : World :=
  foldl (λ w op, (call op w).2) w ops.

Definition op_posts (ops : list Op) (d : SdfData) : SdfData :=
  foldl (λ d op, op_post op d) d ops.

Fixpoint op_recaptures (ops : list Op) (d : SdfData) : list Op :=
  match ops with
  | [] => []
  | op :: ops' => op_recapture op d :: op_recaptures ops' (op_post op d)
  end.

(** The closures called, in order, as the TF_DEBUG stream records them. *)
Definition inverting_trace (log : list DebugMsg) : list Op :=
  omap (λ m, match m with DbgInverting op => Some op | _ => None end) log.

(** The closures a replay of [self] routes to the router from world [w]:
    none when the router is muted or the layer expired. *)
Definition replay_captured (self : UsdQtUndoInverse) (w : World) : list Op :=
  match _layer (delegate w) with
  | Some d => if IsMuted w then [] else op_recaptures (rev self) d
  | None => []
  end.

(** Every spec stored under [p] has a known type, as [SdfData] has it: a
    spec of unknown type cannot be created. *)
Definition known_types_under (p : SdfPath) (d : SdfData) : Prop :=
  ∀ q s, d !! q = Some s → p `prefix_of` q →
         specType s ≠ SdfSpecTypeUnknown.

(** No spec is stored under [p]. *)
Definition nothing_under (p : SdfPath) (d : SdfData) : Prop :=
  ∀ q, p `prefix_of` q → d !! q = None.

(** The hook of an edit: the message, the dirty flag, the routed closure. *)
Definition hook (d : SdfData) (e : Edit) (w : World) : World :=
  _RouteInverse (capture d e)
    (_MarkCurrentStateAsDirty (TF_DEBUG (hook_msg e) w)).

(** The snapshot of a closure written into the live layer. *)
Definition copy_snapshot (inverse : Op) (w : World) : World :=
  match _layer (delegate w) with
  | Some d => set_layer_data (op_copy inverse d) w
  | None => w
  end.

(** What every call into the router leaves alone: the mute counter, the
    depth once the internal block is closed, the calls traced so far, and
    the diagnostics already issued. *)
Definition router_frame (w w' : World) : Prop :=
  _muteDepth (router w') = _muteDepth (router w) ∧
  _depth (router w') = _depth (router w) ∧
  inverting_trace (debugLog w') = inverting_trace (debugLog w) ∧
  diagnostics w `prefix_of` diagnostics w'.

(** An edit on data [d] is reversible when the closure captured for it
    restores [d], and the closure captured while doing so restores the
    edited data again. *)
Definition reversible (d : SdfData) (e : Edit) : Prop :=
  op_post (capture d e) (prim e d) = d ∧
  op_post (op_recapture (capture d e) (prim e d)) d = prim e d.

Fixpoint reversible_batch (d : SdfData) (es : list Edit) : Prop :=
  match es with
  | [] => True
  | e :: es' => reversible d e ∧ reversible_batch (prim e d) es'
  end.

(** The diagnostics of opening and of closing a block. *)
Definition ctor_diagnostics (w : World) : list Diagnostic :=
  (if (0 <=? _depth (router w))%Z then [] else [FailedVerify depth_verify_expr])
  ++ (if (_depth (router w) =? 0)%Z && negb (_GetSize (_inversion (router w)) =? 0)%nat
      then [CodingError fragmented_msg] else []).

(** An edit block of the host around a batch of edits. *)
Definition edit_block (es : list Edit) (w : World) : World :=
  UsdQtUndoBlock_dtor (foldl (λ w e, edit e w) (UsdQtUndoBlock_ctor w) es).

(** [n] blocks opened one inside the other around [body], and closed. *)
Fixpoint nested_blocks (n : nat) (body : World → World) (w : World) : World :=
  match n with
  | O => body w
  | S n' => UsdQtUndoBlock_dtor (nested_blocks n' body (UsdQtUndoBlock_ctor w))
  end.

(** Calls of the mute interface. *)
Inductive MuteCall := CallMute | CallUnmute.

Definition mute_call (c : MuteCall) : World → World :=
  match c with
  | CallMute => _Mute
  | CallUnmute => _Unmute
  end.

Definition mute_calls (cs : list MuteCall) (w : World) : World :=
  foldl (λ w c, mute_call c w) w cs.

Fixpoint count_calls (c : MuteCall) (cs : list MuteCall) : Z :=
  match cs with
  | [] => 0
  | x :: cs' =>
      ((match x, c with
        | CallMute, CallMute | CallUnmute, CallUnmute => 1
        | _, _ => 0
        end) + count_calls c cs')%Z
  end.

(** ** Edits that are safe to undo

    The value a field-local primitive stores, as a function of the value the
    field held. *)
Definition set_dict_entry (k : string) (v o : option Value) : option Value :=
  match v with
  | Some x =>
      Some (VtDictionary
              (<[k := x]> match o with
                          | Some (VtDictionary m) => m
                          | _ => ∅
                          end))
  | None =>
      match o with
      | Some (VtDictionary m) =>
          if Nat.eqb (size (delete k m)) 0 then None
          else Some (VtDictionary (delete k m))
      | _ => o
      end
  end.

Definition set_sample (t : Z) (v o : option Value) : option Value :=
  let samples :=
    match o with
    | Some (SdfTimeSampleMap m) => m
    | _ => ∅
    end in
  match v with
  | Some x => Some (SdfTimeSampleMap (<[t := x]> samples))
  | None =>
      if Nat.eqb (size (delete t samples)) 0 then None
      else Some (SdfTimeSampleMap (delete t samples))
  end.

Definition push_token (v : string) (o : option Value) : option Value :=
  Some (VtTokenVector (match o with
                       | Some (VtTokenVector l) => l
                       | _ => []
                       end ++ [v])).

Definition pop_token (o : option Value) : option Value :=
  match o with
  | Some (VtTokenVector (x :: l)) => Some (VtTokenVector (removelast (x :: l)))
  | _ => o
  end.

Definition push_path (v : list string) (o : option Value) : option Value :=
  Some (VtPathVector (match o with
                      | Some (VtPathVector l) => l
                      | _ => []
                      end ++ [v])).

Definition pop_path (o : option Value) : option Value :=
  match o with
  | Some (VtPathVector (x :: l)) => Some (VtPathVector (removelast (x :: l)))
  | _ => o
  end.

Definition dict_entry (k : string) (o : option Value) : option Value :=
  match o with
  | Some (VtDictionary m) => m !! k
  | _ => None
  end.

Definition sample_at (t : Z) (o : option Value) : option Value :=
  match o with
  | Some (SdfTimeSampleMap m) => m !! t
  | _ => None
  end.

Definition valid_dictionary (o : option Value) : Prop :=
  match o with
  | None => True
  | Some (VtDictionary m) => m ≠ ∅
  | Some _ => False
  end.

Definition valid_samples (o : option Value) : Prop :=
  match o with
  | None => True
  | Some (SdfTimeSampleMap m) => m ≠ ∅
  | Some _ => False
  end.

(** The edits of a well-formed layer: a dictionary or sample field holds a
    non-empty map of that kind when it is there, a spec is created where
    nothing is stored, a spec is moved to an unrelated path under which
    nothing is stored, a child is pushed onto a list field that is there and
    the child popped is the last of its list.  A path that has no spec
    accepts any field edit: the primitives do nothing there. *)
Definition valid_edit (d : SdfData) (e : Edit) : Prop :=
  match e with
  | ESetField _ _ _ => True
  | ESetFieldDictValueByKey p f _ _ =>
      match GetField d p f with
      | None => True
      | Some (VtDictionary m) => m ≠ ∅
      | Some _ => False
      end
  | ESetTimeSample p _ _ =>
      match GetField d p SdfFieldKeys_TimeSamples with
      | None => True
      | Some (SdfTimeSampleMap m) => m ≠ ∅
      | Some _ => False
      end
  | ECreateSpec p _ _ => nothing_under p d
  | EDeleteSpec p _ => known_types_under p d
  | EMoveSpec o n =>
      nothing_under n d ∧ ¬ o `prefix_of` n ∧ ¬ n `prefix_of` o
  | EPushTokenChild p f _ =>
      d !! p = None ∨ ∃ l, GetField d p f = Some (VtTokenVector l)
  | EPushPathChild p f _ =>
      d !! p = None ∨ ∃ l, GetField d p f = Some (VtPathVector l)
  | EPopTokenChild p f v =>
      d !! p = None ∨ ∃ l, GetField d p f = Some (VtTokenVector (l ++ [v]))
  | EPopPathChild p f v =>
      d !! p = None ∨ ∃ l, GetField d p f = Some (VtPathVector (l ++ [v]))
  end.

Fixpoint valid_batch (d : SdfData) (es : list Edit) : Prop :=
  match es with
  | [] => True
  | e :: es' => valid_edit d e ∧ valid_batch (prim e d) es'
  end.

(** ** A small scene used in the examples

    One prim [/World] with a field [size = 5], tracked by the router of a
    fresh process whose host listens to the notice. *)
Definition demo_layer : gmap (list string) SpecData :=
  {[ ["World"] := mkSpecData SdfSpecTypePrim {[ "size" := VtInt 5 ]} ]}.

Definition demo_world : World :=
  (TrackLayer demo_layer (initial (mkHost true []))).2.

(** The same world inside an open block of the host. *)
Definition demo_world_in_block : World := UsdQtUndoBlock_ctor demo_world.

Definition write_size_9 : Edit := ESetField ["World"] "size" (Some (VtInt 9)).


(** ** wrapUndoRouter.cpp, the block of the Python bindings

    [UsdQt_PythonUndoBlock] holds a pointer [_block], null or the
    [UsdQtUndoBlock] it has opened; [__enter__] is [Open] and [__exit__] is
    [Close].  The pointer is represented by whether it is set. *)
Module UsdQt_PythonUndoBlock.

(** [explicit UsdQt_PythonUndoBlock() : _block(0) {}] *)
Definition ctor : bool := false.

Definition Open (_block : bool) (w : World) : bool * World :=
  let w := TF_VERIFY (negb _block) "_block == 0" w in
  if negb (negb _block) then (_block, w)
  else (true, UsdQtUndoBlock_ctor w).

Definition Close (_block : bool) (w : World) : bool * World :=
  let w := TF_VERIFY _block "_block != 0" w in
  if negb _block then (_block, w)
  else (false, UsdQtUndoBlock_dtor w).

(** [~UsdQt_PythonUndoBlock() { delete _block; }] *)
Definition dtor (_block : bool) (w : World) : World :=
  if _block then UsdQtUndoBlock_dtor w else w.

End UsdQt_PythonUndoBlock.

(** Calls of [__enter__] and [__exit__] on one wrapper. *)
Inductive PythonCall := PyOpen | PyClose.

Definition python_call (c : PythonCall) (s : bool * World) : bool * World :=
  match c with
  | PyOpen => UsdQt_PythonUndoBlock.Open s.1 s.2
  | PyClose => UsdQt_PythonUndoBlock.Close s.1 s.2
  end.

Definition python_calls (cs : list PythonCall) (s : bool * World)
  : bool * World :=
  foldl (λ s c, python_call c s) s cs.

(** ** Scoped use of blocks

    A [UsdQtUndoBlock] is a scoped object: it is closed where the scope
    that opened it ends, so the blocks of a piece of host code nest. *)
Unset Elimination Schemes.
Inductive Stmt :=
| SEdit (e : Edit)
| SBlock (body : list Stmt).
Set Elimination Schemes.

Fixpoint run (s : Stmt) (w : World) : World :=
  match s with
  | SEdit e => edit e w
  | SBlock body =>
      UsdQtUndoBlock_dtor (foldl (λ w s, run s w) (UsdQtUndoBlock_ctor w) body)
  end.

(** The edits of a statement, in the order they are made. *)
Fixpoint edits_of (s : Stmt) : list Edit :=
  match s with
  | SEdit e => [e]
  | SBlock body => concat (map edits_of body)
  end.

(** What a statement does inside an open block: it routes the closures of
    its edits and changes the layer, and nothing else. *)
Definition routed_only (es : list Edit) (d : gmap (list string) SpecData)
    (w w' : World) : Prop :=
  _inversion (router w') = _inversion (router w) ++ captures d es ∧
  _layer (delegate w') = Some (prims es d) ∧
  _depth (router w') = _depth (router w) ∧
  _muteDepth (router w') = _muteDepth (router w) ∧
  notices w' = notices w ∧ host w' = host w ∧
  diagnostics w' = diagnostics w.

(** What a host does at top level: a statement, or an inversion of one of
    its inverses. *)
Inductive HostCall :=
| HostRun (s : Stmt)
| HostInvert (self : list Op).

Definition host_call (c : HostCall) (w : World) : World :=
  match c with
  | HostRun s => run s w
  | HostInvert self => (Invert self w).2
  end.

Definition host_calls (cs : list HostCall) (w : World) : World :=
  foldl (λ w c, host_call c w) w cs.

(** A router at rest: no block open, nothing pending. *)
Definition at_rest (w : World) : Prop :=
  _depth (router w) = 0%Z ∧ _inversion (router w) = [].

(** [n] inversions in a row, each on the inverse the one before left. *)
Definition Invert_times (n : nat) (r : UsdQtUndoInverse * World)
  : UsdQtUndoInverse * World :=
  Nat.iter n (λ r, Invert r.1 r.2) r.

(** The closure captured when the inverse of the inverse of an edit is
    called is the closure captured for the edit. *)
Definition twice_captured (d : SdfData) (e : Edit) : Prop :=
  op_recapture (op_recapture (capture d e) (prim e d)) d = capture d e.

Fixpoint twice_captured_batch (d : SdfData) (es : list Edit) : Prop :=
  match es with
  | [] => True
  | e :: es' => twice_captured d e ∧ twice_captured_batch (prim e d) es'
  end.

(** ** Code that uses the router

    What code can do with the engine in one thread, on the one layer the
    delegate tracks: edit the layer, call [Invert] on an inverse of that
    layer, open a scoped block around more code and, for the friends of
    the router, mute and unmute it.  Tracking another layer is left out: a
    closure is bound to the delegate that captured it, and a second
    [TrackLayer] replaces that delegate. *)
Unset Elimination Schemes.
Inductive Prog :=
| PEdit (e : Edit)
| PInvert (self : UsdQtUndoInverse)
| PMute
| PUnmute
| PBlock (body : list Prog).
Set Elimination Schemes.

Fixpoint exec (p : Prog) (w : World) : World :=
  match p with
  | PEdit e => edit e w
  | PInvert self => (Invert self w).2
  | PMute => _Mute w
  | PUnmute => _Unmute w
  | PBlock body =>
      UsdQtUndoBlock_dtor
        (foldl (λ w p, exec p w) (UsdQtUndoBlock_ctor w) body)
  end.

(** The invariant of the router: the depth is not negative, and nothing is
    pending while no block is open. *)
Definition settled (w : World) : Prop :=
  (0 ≤ _depth (router w))%Z ∧
  (_depth (router w) = 0%Z → _inversion (router w) = []).

(** The diagnostics that tell of a broken invariant: the failed verify of
    the depth and the fragmented block. *)
Definition benign (x : Diagnostic) : Prop :=
  x ≠ CodingError fragmented_msg ∧ x ≠ FailedVerify depth_verify_expr.

(** A step that keeps the depth, leaves nothing pending at depth 0 and
    reports benign diagnostics only. *)
Definition steady (w w' : World) : Prop :=
  _depth (router w') = _depth (router w) ∧
  (_depth (router w) = 0%Z → _inversion (router w') = []) ∧
  ∃ l, diagnostics w' = diagnostics w ++ l ∧ Forall benign l.

(** * Proofs *)

Lemma _Adopt_loop_app inversion n i self :
  i + n = length inversion →
  _Adopt_loop inversion i n self = self ++ drop i inversion.
Proof.
  revert i self. induction n as [|n IH]; intros i self Hlen; simpl.
  - rewrite drop_ge by lia. by rewrite app_nil_r.
  - destruct (inversion !! i) as [op|] eqn:Hop.
    + rewrite IH by lia. rewrite (drop_S _ _ _ Hop).
      by rewrite <- app_assoc.
    + apply lookup_ge_None in Hop. lia.
Qed.

Lemma _Adopt_app inversion self : _Adopt inversion self = self ++ inversion.
Proof. unfold _Adopt. by rewrite _Adopt_loop_app. Qed.

Lemma _Invert_loop_replay self n i w :
  i + n = length self →
  _Invert_loop self i n w = replay (rev (take n self)) w.
Proof.
  revert i w. induction n as [|n IH]; intros i w Hlen; simpl; [done|].
  assert (length self - i - 1 = n) as -> by lia.
  destruct (self !! n) as [op|] eqn:Hop.
  - rewrite IH by lia. rewrite (take_S_r _ _ _ Hop).
    rewrite rev_app_distr. done.
  - apply lookup_ge_None in Hop. lia.
Qed.

Lemma _Invert_replay self w : _Invert self w = replay (rev self) w.
Proof.
  unfold _Invert. rewrite _Invert_loop_replay by lia. by rewrite firstn_all.
Qed.

Lemma replay_app ops1 ops2 w :
  replay (ops1 ++ ops2) w = replay ops2 (replay ops1 w).
Proof. apply foldl_app. Qed.

(** * Blocks *)

#[global] Arguments UsdQtUndoBlock_ctor : simpl never.
#[global] Arguments UsdQtUndoBlock_dtor : simpl never.
#[global] Arguments _AddInverse : simpl never.
#[global] Arguments _RouteInverse : simpl never.
#[global] Arguments edit : simpl never.
#[global] Arguments call : simpl never.
#[global] Arguments replay : simpl never.
#[global] Arguments _Invert : simpl never.
#[global] Arguments Invert : simpl never.
#[global] Arguments prim : simpl never.
#[global] Arguments capture : simpl never.
#[global] Arguments op_post : simpl never.
#[global] Arguments op_recapture : simpl never.


Ltac world_red :=
  lazy beta iota zeta delta
    [UsdQtUndoBlock_ctor _Initialize UsdQtUndoBlock_dtor
     UndoStackNotice_Send TransferEdits ctor_diagnostics
     TF_VERIFY TF_DEBUG TF_CODING_ERROR TF_WARN report
     set_depth set_inversion set_muteDepth set_router set_host
     set_delegate set_layer_data _Append _Clear _GetSize
     _Mute _Unmute IsMuted _MarkCurrentStateAsDirty
     _MarkCurrentStateAsClean
     router delegate diagnostics debugLog notices host
     _depth _inversion _muteDepth _layer _dirty listening undoStack
     fst snd negb andb].

(** Decide one test of the goal whose condition holds no other test. *)
Ltac split_if :=
  match goal with
  | |- context [if ?c then _ else _] =>
      lazymatch c with
      | context [if _ then _ else _] => fail
      | _ => idtac
      end;
      let H := fresh "Hc" in
      destruct c eqn:H; world_red;
      try (exfalso; cbn in H; first [lia | discriminate | congruence])
  end.

Ltac world_solve :=
  world_red; repeat split_if;
  rewrite ?app_nil_r, <- ?app_assoc; try done.


Lemma ctor_eq w :
  UsdQtUndoBlock_ctor w =
    mkWorld
      (mkRouter (_depth (router w) + 1) (_inversion (router w))
         (_muteDepth (router w)))
      (delegate w)
      (diagnostics w ++ ctor_diagnostics w)
      (debugLog w ++ [DbgOpeningBlock (_depth (router w))])
      (notices w) (host w).
Proof. destruct w as [[dp inv md] dl dg db n h]. world_solve. Qed.

Lemma dtor_inner w :
  _depth (router w) ≠ 1%Z →
  UsdQtUndoBlock_dtor w =
    mkWorld
      (mkRouter (_depth (router w) - 1) (_inversion (router w))
         (_muteDepth (router w)))
      (delegate w)
      (diagnostics w ++
         if (0 <=? _depth (router w) - 1)%Z then []
         else [FailedVerify depth_verify_expr])
      (debugLog w ++ [DbgClosedBlock (_depth (router w) - 1)])
      (notices w) (host w).
Proof.
  destruct w as [[dp inv md] dl dg db n h]. cbn [router _depth].
  intros Hd. world_solve.
Qed.

Lemma dtor_outer_empty w :
  _depth (router w) = 1%Z → _inversion (router w) = [] →
  UsdQtUndoBlock_dtor w =
    mkWorld (mkRouter 0 [] (_muteDepth (router w))) (delegate w)
      (diagnostics w)
      (debugLog w ++ [DbgSkippingNotice; DbgClosedBlock 0])
      (notices w) (host w).
Proof.
  destruct w as [[dp inv md] dl dg db n h]. cbn [router _depth _inversion].
  intros Hd ->. world_solve. repeat f_equal; lia.
Qed.

Lemma dtor_outer_pending w :
  _depth (router w) = 1%Z → _inversion (router w) ≠ [] →
  UsdQtUndoBlock_dtor w =
    mkWorld (mkRouter 0 [] (_muteDepth (router w))) (delegate w)
      (diagnostics w ++
         if listening (host w) then [] else [CodingError not_adopted_msg])
      (debugLog w ++ [DbgNoticeSent; DbgClosedBlock 0])
      (S (notices w))
      (if listening (host w)
       then mkHost true (_inversion (router w) :: undoStack (host w))
       else host w).
Proof.
  destruct w as [[dp inv md] dl dg db n [ls us]].
  cbn [router _depth _inversion]. intros Hd Hne.
  destruct inv as [|op inv]; [done|]. destruct ls.
  - world_solve. rewrite _Adopt_app. repeat f_equal; lia.
  - world_solve. repeat f_equal; lia.
Qed.

(** * Routing an inverse *)

Lemma _AddInverse_open inverse w :
  (0 < _depth (router w))%Z →
  _AddInverse inverse w =
    mkWorld
      (mkRouter (_depth (router w)) (_inversion (router w) ++ [inverse])
         (_muteDepth (router w)))
      (delegate w) (diagnostics w)
      (debugLog w ++ [DbgOpeningBlock (_depth (router w));
                      DbgClosedBlock (_depth (router w))])
      (notices w) (host w).
Proof.
  intros Hd. unfold _AddInverse. rewrite ctor_eq.
  rewrite dtor_inner by (cbn; lia).
  destruct w as [[dp inv md] dl dg db n h]. cbn in Hd. world_solve.
  repeat f_equal; lia.
Qed.

Lemma edit_hook e w :
  edit e w =
    match _layer (delegate w) with
    | Some d => set_layer_data (prim e d) (hook d e w)
    | None => w
    end.
Proof.
  destruct e; unfold edit;
    unfold SetField, SetFieldDictValueByKey, SetTimeSample, CreateSpec,
      DeleteSpec, MoveSpec, PushTokenChild, PushPathChild, PopTokenChild,
      PopPathChild, through_delegate;
    destruct (_layer (delegate w)) as [d|]; try reflexivity.
  unfold hook, capture, prim, _OnSetTimeSample, _OnSetTimeSampleImpl,
    hook_msg.
  destruct (negb _); reflexivity.
Qed.

Lemma hook_open d e w :
  IsMuted w = false → (0 < _depth (router w))%Z →
  hook d e w =
    mkWorld
      (mkRouter (_depth (router w)) (_inversion (router w) ++ [capture d e])
         (_muteDepth (router w)))
      (mkDelegate (_layer (delegate w)) true) (diagnostics w)
      (debugLog w ++ [hook_msg e; DbgOpeningBlock (_depth (router w));
                      DbgClosedBlock (_depth (router w))])
      (notices w) (host w).
Proof.
  intros Hm Hd. unfold hook, _RouteInverse.
  replace (IsMuted (_MarkCurrentStateAsDirty (TF_DEBUG (hook_msg e) w)))
    with (IsMuted w) by done.
  rewrite Hm. cbn [negb]. rewrite _AddInverse_open by done.
  destruct w as [[dp inv md] [l dirty] dg db n h]. world_solve.
Qed.

Lemma hook_muted d e w :
  IsMuted w = true →
  hook d e w =
    mkWorld (router w) (mkDelegate (_layer (delegate w)) true)
      (diagnostics w ++ [Warning muted_msg])
      (debugLog w ++ [hook_msg e]) (notices w) (host w).
Proof.
  intros Hm. unfold hook, _RouteInverse.
  replace (IsMuted (_MarkCurrentStateAsDirty (TF_DEBUG (hook_msg e) w)))
    with (IsMuted w) by done.
  rewrite Hm. cbn [negb].
  destruct w as [[dp inv md] [l dirty] dg db n h]. world_solve.
Qed.

Lemma edit_open e w d :
  _layer (delegate w) = Some d → IsMuted w = false →
  (0 < _depth (router w))%Z →
  edit e w =
    mkWorld
      (mkRouter (_depth (router w)) (_inversion (router w) ++ [capture d e])
         (_muteDepth (router w)))
      (mkDelegate (Some (prim e d)) true) (diagnostics w)
      (debugLog w ++ [hook_msg e; DbgOpeningBlock (_depth (router w));
                      DbgClosedBlock (_depth (router w))])
      (notices w) (host w).
Proof.
  intros Hl Hm Hd. rewrite edit_hook, Hl, hook_open by done. done.
Qed.

Lemma edit_muted e w d :
  _layer (delegate w) = Some d → IsMuted w = true →
  edit e w =
    mkWorld (router w) (mkDelegate (Some (prim e d)) true)
      (diagnostics w ++ [Warning muted_msg])
      (debugLog w ++ [hook_msg e]) (notices w) (host w).
Proof. intros Hl Hm. rewrite edit_hook, Hl, hook_muted by done. done. Qed.

(** * Calling an inverse *)

Lemma inverting_ext self msg act1 act2 w :
  (∀ w', is_Some (_layer (delegate w')) → act1 w' = act2 w') →
  inverting self msg act1 w = inverting self msg act2 w.
Proof.
  intros Hext. unfold inverting.
  destruct (_layer (delegate (TF_DEBUG (DbgInverting self) w))) eqn:Hl;
    [|done].
  f_equal. apply Hext. by rewrite Hl.
Qed.

Lemma copy_snapshot_id inverse w :
  op_copy inverse = id → is_Some (_layer (delegate w)) →
  copy_snapshot inverse w = w.
Proof.
  intros Hid [d Hd]. unfold copy_snapshot. rewrite Hd, Hid.
  destruct w as [r [l dirty] dg db n h]. cbn in Hd. by subst l.
Qed.

Lemma edit_live e w :
  is_Some (_layer (delegate w)) → is_Some (_layer (delegate (edit e w))).
Proof. intros [d Hd]. rewrite edit_hook, Hd. done. Qed.

Lemma call_inverting inverse w :
  call inverse w =
    inverting inverse (expired_msg inverse)
      (λ w, copy_snapshot inverse (edit (op_edit inverse) w)) w.
Proof.
  destruct inverse; unfold call; cbn [expired_msg op_edit];
    lazymatch goal with
    | |- _InvertDeleteSpec _ _ _ _ _ = _ => idtac
    | |- _ =>
        unfold _InvertSetField, _InvertSetFieldDictValueByKey,
          _InvertSetTimeSample, _InvertCreateSpec,
          _InvertMoveSpec, _InvertPushTokenChild, _InvertPopTokenChild,
          _InvertPushPathChild, _InvertPopPathChild;
        apply inverting_ext; intros w' Hw';
        rewrite copy_snapshot_id; [reflexivity|reflexivity|];
        by apply edit_live
    end.
  unfold _InvertDeleteSpec. apply inverting_ext. intros w' Hw'.
  unfold VisitSpecs_SpecCopier, copy_snapshot. reflexivity.
Qed.

Lemma inverting_trace_app l1 l2 :
  inverting_trace (l1 ++ l2) = inverting_trace l1 ++ inverting_trace l2.
Proof. apply omap_app. Qed.

Lemma hook_msg_quiet e : inverting_trace [hook_msg e] = [].
Proof. by destruct e. Qed.

Lemma router_frame_refl w : router_frame w w.
Proof. by repeat split. Qed.

Lemma router_frame_trans w1 w2 w3 :
  router_frame w1 w2 → router_frame w2 w3 → router_frame w1 w3.
Proof.
  intros (?&?&?&?) (?&?&?&?). repeat split; try congruence.
  by etrans.
Qed.

Ltac frame_solve :=
  unfold router_frame; cbn;
  rewrite ?inverting_trace_app; cbn; rewrite ?app_nil_r;
  split_and?;
  first [ done | lia
        | rewrite <- ?app_assoc; by apply prefix_app_r ].

Lemma _AddInverse_frame inverse w :
  router_frame w (_AddInverse inverse w) ∧
  delegate (_AddInverse inverse w) = delegate w.
Proof.
  unfold _AddInverse. rewrite ctor_eq.
  destruct (decide (_depth (router w) = 0%Z)) as [Hz|Hnz].
  - rewrite dtor_outer_pending; cbn; [|lia|by destruct (_inversion _)].
    frame_solve.
  - rewrite dtor_inner by (cbn; lia). frame_solve.
Qed.

Lemma hook_frame d e w :
  router_frame w (hook d e w) ∧
  _layer (delegate (hook d e w)) = _layer (delegate w).
Proof.
  unfold hook, _RouteInverse.
  set (w1 := _MarkCurrentStateAsDirty (TF_DEBUG (hook_msg e) w)).
  assert (router_frame w w1 ∧ _layer (delegate w1) = _layer (delegate w))
    as [Hf Hl].
  { unfold router_frame, w1; cbn. rewrite inverting_trace_app, hook_msg_quiet.
    by rewrite app_nil_r. }
  destruct (negb (IsMuted w1)).
  - destruct (_AddInverse_frame (capture d e) w1) as [Hf' Hd].
    split; [by eapply router_frame_trans|]. by rewrite Hd.
  - split; [|done]. eapply router_frame_trans; [done|].
    unfold router_frame; cbn. split_and!; try done. by apply prefix_app_r.
Qed.

Lemma edit_frame e w :
  router_frame w (edit e w) ∧
  (_layer (delegate (edit e w)) = None ↔ _layer (delegate w) = None).
Proof.
  rewrite edit_hook. destruct (_layer (delegate w)) as [d|] eqn:Hl.
  - destruct (hook_frame d e w) as [Hf _]. split; [done|]. by cbn.
  - split; [apply router_frame_refl|]. by rewrite Hl.
Qed.

Lemma call_expired inverse w :
  _layer (delegate w) = None →
  call inverse w =
    (false,
     mkWorld (router w) (delegate w)
       (diagnostics w ++ [CodingError (expired_msg inverse)])
       (debugLog w ++ [DbgInverting inverse]) (notices w) (host w)).
Proof.
  intros Hl. rewrite call_inverting. unfold inverting. cbn. by rewrite Hl.
Qed.

Lemma call_live inverse w d :
  _layer (delegate w) = Some d →
  call inverse w =
    (true,
     copy_snapshot inverse
       (edit (op_edit inverse) (TF_DEBUG (DbgInverting inverse) w))).
Proof.
  intros Hl. rewrite call_inverting. unfold inverting. cbn. by rewrite Hl.
Qed.

Lemma call_fails inverse w :
  (call inverse w).1 = false ↔ _layer (delegate w) = None.
Proof.
  destruct (_layer (delegate w)) as [d|] eqn:Hl.
  - by rewrite (call_live _ _ d).
  - by rewrite call_expired.
Qed.

Lemma copy_snapshot_frame inverse w :
  router_frame w (copy_snapshot inverse w) ∧
  (_layer (delegate (copy_snapshot inverse w)) = None
   ↔ _layer (delegate w) = None).
Proof.
  unfold copy_snapshot. destruct (_layer (delegate w)) eqn:Hl.
  - split; [by repeat split|]. by cbn.
  - split; [apply router_frame_refl|]. by rewrite Hl.
Qed.

(** A call adds itself to the trace whatever the state of the router and of
    the layer, and never removes a diagnostic. *)
Lemma call_frame inverse w :
  _muteDepth (router (call inverse w).2) = _muteDepth (router w) ∧
  _depth (router (call inverse w).2) = _depth (router w) ∧
  inverting_trace (debugLog (call inverse w).2)
    = inverting_trace (debugLog w) ++ [inverse] ∧
  diagnostics w `prefix_of` diagnostics (call inverse w).2 ∧
  (_layer (delegate (call inverse w).2) = None ↔ _layer (delegate w) = None).
Proof.
  destruct (_layer (delegate w)) as [d|] eqn:Hl.
  - rewrite (call_live _ _ d) by done. cbn [snd].
    set (w1 := TF_DEBUG (DbgInverting inverse) w).
    destruct (edit_frame (op_edit inverse) w1) as [(?&?&Ht&?) Hl1].
    destruct (copy_snapshot_frame inverse (edit (op_edit inverse) w1))
      as [(?&?&Ht'&?) Hl2].
    assert (router w1 = router w ∧ diagnostics w1 = diagnostics w ∧
            delegate w1 = delegate w) as (Hr1&Hg1&Hd1) by done.
    rewrite <- Hr1, <- Hg1. split_and!; try congruence.
    + rewrite Ht', Ht. unfold w1; cbn. by rewrite inverting_trace_app.
    + by etrans.
    + rewrite Hl2, Hl1, Hd1. by rewrite Hl.
  - rewrite call_expired by done. cbn. rewrite inverting_trace_app. cbn.
    split_and!; try done. by apply prefix_app_r.
Qed.

Lemma replay_frame ops w :
  _muteDepth (router (replay ops w)) = _muteDepth (router w) ∧
  _depth (router (replay ops w)) = _depth (router w) ∧
  inverting_trace (debugLog (replay ops w))
    = inverting_trace (debugLog w) ++ ops ∧
  diagnostics w `prefix_of` diagnostics (replay ops w) ∧
  (_layer (delegate (replay ops w)) = None ↔ _layer (delegate w) = None).
Proof.
  revert w. induction ops as [|op ops IH]; intros w.
  - change (replay [] w) with w. rewrite app_nil_r. by split_and!.
  - destruct (call_frame op w) as (?&?&Ht&?&Hl).
    destruct (IH (call op w).2) as (?&?&Ht'&?&Hl').
    change (replay (op :: ops) w) with (replay ops (call op w).2).
    split_and!; try congruence.
    + rewrite Ht', Ht. by rewrite <- app_assoc.
    + by etrans.
    + by rewrite Hl', Hl.
Qed.

Lemma call_open inverse w d :
  _layer (delegate w) = Some d → IsMuted w = false →
  (0 < _depth (router w))%Z →
  call inverse w =
    (true,
     mkWorld
       (mkRouter (_depth (router w))
          (_inversion (router w) ++ [op_recapture inverse d])
          (_muteDepth (router w)))
       (mkDelegate (Some (op_post inverse d)) true) (diagnostics w)
       (debugLog w ++ [DbgInverting inverse; hook_msg (op_edit inverse);
                       DbgOpeningBlock (_depth (router w));
                       DbgClosedBlock (_depth (router w))])
       (notices w) (host w)).
Proof.
  intros Hl Hm Hd. rewrite (call_live _ _ d) by done.
  rewrite (edit_open _ _ d) by done.
  unfold copy_snapshot, op_post, op_recapture. cbn.
  by rewrite <- app_assoc.
Qed.

Lemma call_muted inverse w d :
  _layer (delegate w) = Some d → IsMuted w = true →
  call inverse w =
    (true,
     mkWorld (router w) (mkDelegate (Some (op_post inverse d)) true)
       (diagnostics w ++ [Warning muted_msg])
       (debugLog w ++ [DbgInverting inverse; hook_msg (op_edit inverse)])
       (notices w) (host w)).
Proof.
  intros Hl Hm. rewrite (call_live _ _ d) by done.
  rewrite (edit_muted _ _ d) by done.
  unfold copy_snapshot, op_post. cbn. by rewrite <- app_assoc.
Qed.

(** Inside an open block a replay sends no notice and leaves the host
    alone; it routes one closure per call unless the router is muted or the
    layer expired. *)
Lemma replay_open ops w :
  (0 < _depth (router w))%Z →
  notices (replay ops w) = notices w ∧
  host (replay ops w) = host w ∧
  _inversion (router (replay ops w)) =
    _inversion (router w) ++
      match _layer (delegate w) with
      | Some d => if IsMuted w then [] else op_recaptures ops d
      | None => []
      end ∧
  _layer (delegate (replay ops w)) =
    match _layer (delegate w) with
    | Some d => Some (op_posts ops d)
    | None => None
    end.
Proof.
  revert w. induction ops as [|op ops IH]; intros w Hd.
  - change (replay [] w) with w. cbn.
    destruct (_layer (delegate w)), (IsMuted w); rewrite ?app_nil_r; done.
  - change (replay (op :: ops) w) with (replay ops (call op w).2).
    destruct (call_frame op w) as (Hmd&Hdp&_).
    destruct (IH (call op w).2) as (Hn&Hh&Hi&Hl); [lia|].
    assert (IsMuted (call op w).2 = IsMuted w) as Hmu
      by (unfold IsMuted; by rewrite Hmd).
    rewrite Hn, Hh, Hi, Hl, Hmu. clear Hn Hh Hi Hl IH.
    destruct (_layer (delegate w)) as [d|] eqn:Hlw.
    + destruct (IsMuted w) eqn:Hm.
      * rewrite (call_muted _ _ d) by done. cbn. by rewrite !app_nil_r.
      * rewrite (call_open _ _ d) by done. cbn. by rewrite <- app_assoc.
    + rewrite call_expired by done. cbn. rewrite Hlw. by rewrite app_nil_r.
Qed.

Lemma dtor_frame w :
  router_frame (set_depth (_depth (router w) - 1) w) (UsdQtUndoBlock_dtor w) ∧
  delegate (UsdQtUndoBlock_dtor w) = delegate w.
Proof.
  unfold router_frame.
  destruct (decide (_depth (router w) = 1%Z)) as [Hz|Hnz].
  - destruct (_inversion (router w)) as [|op inv] eqn:Hi.
    + rewrite dtor_outer_empty by done. cbn.
      rewrite inverting_trace_app, app_nil_r. split_and!; try done; lia.
    + rewrite dtor_outer_pending by (by rewrite ?Hi). cbn.
      rewrite inverting_trace_app, app_nil_r. split_and!; try done; try lia.
      by apply prefix_app_r.
  - rewrite dtor_inner by done. cbn.
    rewrite inverting_trace_app, app_nil_r. split_and!; try done.
    by apply prefix_app_r.
Qed.

(** * Inversion *)

Lemma Invert_eq self w :
  Invert self w =
    let w2 :=
      replay (rev self)
        (UsdQtUndoBlock_ctor
           (if negb (_depth (router w) =? 0)%Z
            then TF_CODING_ERROR open_block_msg w else w)) in
    (_inversion (router w2), UsdQtUndoBlock_dtor (set_inversion [] w2)).
Proof.
  unfold Invert. cbv zeta. rewrite !_Invert_replay, _Adopt_app. done.
Qed.

(** ** C10 *)

(** C10. [TransferEdits] appends: an inverse that already holds M closures
    receives the N pending closures of the router after them, in order, so
    that it holds M+N; the pending list of the router is left empty and the
    call returns true, whatever the state. *)
Theorem TransferEdits_appends (inverse : list Op) (w : World) :
  (TransferEdits inverse w).1.1 = true ∧
  (TransferEdits inverse w).1.2 = inverse ++ _inversion (router w) ∧
  length (TransferEdits inverse w).1.2
    = length inverse + length (_inversion (router w)) ∧
  _inversion (router (TransferEdits inverse w).2) = [].
Proof.
  unfold TransferEdits. cbn. rewrite _Adopt_app, length_app. done.
Qed.

(** ** C8 *)

(** C8. A block constructed at depth 0 over a non-empty pending list
    reports the fragmented-block coding error, leaves the pending list as it
    is and brings the depth to 1; a block constructed at a positive depth
    reports nothing, and also leaves the pending list alone. *)
Theorem UndoBlock_ctor_fragmented (w : World) :
  (_depth (router w) = 0%Z → _inversion (router w) ≠ [] →
     diagnostics (UsdQtUndoBlock_ctor w)
       = diagnostics w ++ [CodingError fragmented_msg] ∧
     _inversion (router (UsdQtUndoBlock_ctor w)) = _inversion (router w) ∧
     _depth (router (UsdQtUndoBlock_ctor w)) = 1%Z) ∧
  ((0 < _depth (router w))%Z →
     diagnostics (UsdQtUndoBlock_ctor w) = diagnostics w ∧
     _inversion (router (UsdQtUndoBlock_ctor w)) = _inversion (router w) ∧
     _depth (router (UsdQtUndoBlock_ctor w)) = (_depth (router w) + 1)%Z).
Proof.
  rewrite ctor_eq. unfold ctor_diagnostics, _GetSize. cbn. split.
  - intros -> Hne. destruct (_inversion (router w)); [done|]. done.
  - intros Hd.
    assert ((0 <=? _depth (router w))%Z = true) as -> by lia.
    assert ((_depth (router w) =? 0)%Z = false) as -> by lia.
    cbn. by rewrite app_nil_r.
Qed.

(** ** C4 *)

Lemma nested_blocks_quiet n w :
  _inversion (router w) = [] →
  notices (nested_blocks n id w) = notices w ∧
  _inversion (router (nested_blocks n id w)) = [].
Proof.
  revert w. induction n as [|n IH]; intros w Hi; [done|].
  cbn [nested_blocks].
  destruct (IH (UsdQtUndoBlock_ctor w)) as [Hn Hp].
  { by rewrite ctor_eq. }
  set (w' := nested_blocks n id (UsdQtUndoBlock_ctor w)) in *.
  destruct (decide (_depth (router w') = 1%Z)).
  - rewrite dtor_outer_empty by done. cbn. rewrite Hn. by rewrite ctor_eq.
  - rewrite dtor_inner by done. cbn. rewrite Hn, Hp. by rewrite ctor_eq.
Qed.

(** C4. Closing a block sends the notice exactly once when it is the
    outermost one (depth 1 to 0) and the pending list is not empty, and
    sends none when the pending list is empty or the block is not the
    outermost; so [n] nested blocks without an edit send none, and one block
    around one field write sends exactly one. *)
Theorem UndoStackNotice_on_outermost_close :
  (∀ w, _depth (router w) = 1%Z → _inversion (router w) ≠ [] →
        notices (UsdQtUndoBlock_dtor w) = S (notices w)) ∧
  (∀ w, _depth (router w) ≠ 1%Z ∨ _inversion (router w) = [] →
        notices (UsdQtUndoBlock_dtor w) = notices w) ∧
  (∀ n w, _inversion (router w) = [] →
          notices (nested_blocks n id w) = notices w) ∧
  (∀ w d path fieldName value,
     _depth (router w) = 0%Z → IsMuted w = false →
     _layer (delegate w) = Some d →
     notices (edit_block [ESetField path fieldName value] w)
       = S (notices w)).
Proof.
  split_and!.
  - intros w Hd Hi. by rewrite dtor_outer_pending.
  - intros w Hw.
    destruct (decide (_depth (router w) = 1%Z)) as [Hd|Hd].
    + destruct Hw as [?|Hi]; [done|]. by rewrite dtor_outer_empty.
    + by rewrite dtor_inner.
  - intros n w Hi. by apply nested_blocks_quiet.
  - intros w d path fieldName value Hd Hm Hl.
    unfold edit_block. cbn [foldl]. rewrite ctor_eq.
    rewrite (edit_open _ _ d); cbn; [|done|done|lia].
    rewrite dtor_outer_pending; cbn; [done|lia|].
    by destruct (_inversion (router w)).
Qed.

(** ** C9 *)

(** C9. [Invert] called at depth 0 sends no notice, whatever the inverse,
    the pending list, the mute counter and the layer: the closures routed
    by the replay are adopted and the pending list is cleared before the
    block of [Invert] closes, so the host is not called and nothing is left
    pending. *)
Theorem Invert_sends_no_notice (self : list Op) (w : World) :
  _depth (router w) = 0%Z →
  notices (Invert self w).2 = notices w ∧
  host (Invert self w).2 = host w ∧
  _inversion (router (Invert self w).2) = [].
Proof.
  intros Hd. rewrite Invert_eq. cbv zeta. cbn [snd].
  rewrite Hd. cbn [Z.eqb negb].
  set (w1 := UsdQtUndoBlock_ctor w).
  assert (_depth (router w1) = 1%Z) as Hd1.
  { unfold w1. rewrite ctor_eq. cbn. lia. }
  destruct (replay_open (rev self) w1) as (Hn&Hh&_); [lia|].
  destruct (replay_frame (rev self) w1) as (_&Hd2&_).
  rewrite dtor_outer_empty; cbn; [|congruence|done].
  rewrite Hn, Hh. unfold w1. by rewrite ctor_eq.
Qed.

(** ** C2 *)

(** C2. [Invert] calls the closures it holds in the reverse of the order in
    which they were recorded, whatever the state; called on a router at
    depth 0 with nothing pending, the inverse afterwards holds exactly the
    closures routed during the replay and the router has nothing pending. *)
Theorem Invert_LIFO_and_readopt (self : list Op) (w : World) :
  inverting_trace (debugLog (Invert self w).2)
    = inverting_trace (debugLog w) ++ rev self ∧
  (_depth (router w) = 0%Z → _inversion (router w) = [] →
     (Invert self w).1 = replay_captured self w ∧
     _inversion (router (Invert self w).2) = []).
Proof.
  rewrite Invert_eq. cbv zeta. cbn [fst snd]. split.
  - set (w0 := if negb _ then _ else w).
    assert (inverting_trace (debugLog w0) = inverting_trace (debugLog w))
      as Hw0.
    { unfold w0. destruct (negb _); [|done]. done. }
    set (w2 := replay (rev self) (UsdQtUndoBlock_ctor w0)).
    destruct (dtor_frame (set_inversion [] w2)) as [(_&_&Ht&_) _].
    rewrite Ht. cbn [debugLog set_depth set_inversion set_router].
    destruct (replay_frame (rev self) (UsdQtUndoBlock_ctor w0))
      as (_&_&Ht2&_).
    fold w2 in Ht2. rewrite Ht2, ctor_eq. cbn [debugLog].
    rewrite inverting_trace_app, Hw0. cbn. by rewrite app_nil_r.
  - intros Hd Hi. rewrite Hd. cbn [Z.eqb negb].
    set (w1 := UsdQtUndoBlock_ctor w).
    assert (_depth (router w1) = 1%Z ∧ _inversion (router w1) = [] ∧
            _layer (delegate w1) = _layer (delegate w) ∧
            IsMuted w1 = IsMuted w) as (Hd1&Hi1&Hl1&Hm1).
    { unfold w1. rewrite ctor_eq. unfold IsMuted. cbn. split_and!; [lia|done..]. }
    destruct (replay_open (rev self) w1) as (_&_&Hp&_); [lia|].
    destruct (replay_frame (rev self) w1) as (_&Hd2&_).
    split.
    + rewrite Hp, Hi1, Hl1, Hm1. done.
    + rewrite dtor_outer_empty; cbn; [done|congruence|done].
Qed.

(** ** C6 *)

Lemma _Invert_app pre post w :
  _Invert (pre ++ post) w = _Invert pre (_Invert post w).
Proof. by rewrite !_Invert_replay, rev_app_distr, replay_app. Qed.

(** C6. When a closure of the batch fails (returns false) the replay goes
    on with the closures still to be called, and the failure is reported:
    the coding error of the failed closure is among the diagnostics at the
    end of the replay.  All the closures are called, in reverse order. *)
Theorem replay_continues_after_failure (pre post : list Op) (inverse : Op)
    (w : World) :
  _Invert (pre ++ inverse :: post) w
    = _Invert pre (call inverse (_Invert post w)).2 ∧
  ((call inverse (_Invert post w)).1 = false →
     CodingError (expired_msg inverse)
       ∈ diagnostics (_Invert (pre ++ inverse :: post) w)) ∧
  inverting_trace (debugLog (_Invert (pre ++ inverse :: post) w))
    = inverting_trace (debugLog w) ++ rev (pre ++ inverse :: post).
Proof.
  assert (_Invert (pre ++ inverse :: post) w
          = _Invert pre (call inverse (_Invert post w)).2) as Heq.
  { rewrite (_Invert_app pre (inverse :: post)).
    change (inverse :: post) with ([inverse] ++ post).
    rewrite (_Invert_app [inverse] post). done. }
  split_and!; [done| |].
  - intros Hfail. apply call_fails in Hfail. rewrite Heq.
    rewrite call_expired by done. cbn [snd]. rewrite _Invert_replay.
    match goal with
    | |- _ ∈ diagnostics (replay ?ops ?w') =>
        destruct (replay_frame ops w') as (_&_&_&[l Hl]&_)
    end.
    rewrite Hl. cbn. set_solver.
  - rewrite _Invert_replay.
    by destruct (replay_frame (rev (pre ++ inverse :: post)) w) as (_&_&->&_).
Qed.

(** ** C5 *)

Lemma mute_calls_snoc cs c w :
  mute_calls (cs ++ [c]) w = mute_call c (mute_calls cs w).
Proof. unfold mute_calls. by rewrite foldl_app. Qed.

Lemma count_calls_snoc c cs x :
  count_calls c (cs ++ [x])
  = (count_calls c cs +
       match x, c with
       | CallMute, CallMute | CallUnmute, CallUnmute => 1
       | _, _ => 0
       end)%Z.
Proof. induction cs as [|y cs IH]; cbn; [lia|]. rewrite IH. lia. Qed.

Lemma _Unmute_eq w :
  _Unmute w =
    mkWorld
      (mkRouter (_depth (router w)) (_inversion (router w))
         (_muteDepth (router w) - 1))
      (delegate w)
      (diagnostics w ++
         if (_muteDepth (router w) - 1 <? 0)%Z
         then [CodingError mute_depth_msg] else [])
      (debugLog w) (notices w) (host w).
Proof. destruct w as [[dp inv md] dl dg db n h]. world_solve. Qed.

(** C5, as the code has it.  The counter is the number of [_Mute] calls
    minus the number of [_Unmute] calls, it is not clamped; an [_Unmute]
    that leaves it negative reports the mute-depth coding error, so that
    after any calls on a router that started at a counter of at least 0 a
    negative counter has been reported. *)
Theorem muteDepth_reported_not_clamped (cs : list MuteCall) (w : World) :
  _muteDepth (router (mute_calls cs w))
    = (_muteDepth (router w) + count_calls CallMute cs
         - count_calls CallUnmute cs)%Z ∧
  ((0 <= _muteDepth (router w))%Z →
   (_muteDepth (router (mute_calls cs w)) < 0)%Z →
   CodingError mute_depth_msg ∈ diagnostics (mute_calls cs w)) ∧
  ((_muteDepth (router (_Unmute w)) < 0)%Z →
   diagnostics (_Unmute w) = diagnostics w ++ [CodingError mute_depth_msg]).
Proof.
  split_and!.
  - induction cs as [|c cs IH] using rev_ind; [cbn; lia|].
    rewrite mute_calls_snoc, !count_calls_snoc.
    destruct c; cbn [mute_call].
    + unfold _Mute. cbn. lia.
    + rewrite _Unmute_eq. cbn. lia.
  - induction cs as [|c cs IH] using rev_ind; [cbn; lia|].
    intros H0. rewrite mute_calls_snoc. destruct c; cbn [mute_call].
    + unfold _Mute. cbn. intros Hneg. apply IH; [done|lia].
    + rewrite _Unmute_eq. cbn. intros Hneg.
      destruct (_muteDepth (router (mute_calls cs w)) - 1 <? 0)%Z eqn:Hlt;
        [set_solver|lia].
  - rewrite _Unmute_eq. cbn. intros Hneg.
    by assert ((_muteDepth (router w) - 1 <? 0)%Z = true) as -> by lia.
Qed.

(** * The store *)

Lemma SpecData_eta s : mkSpecData (specType s) (fields s) = s.
Proof. by destruct s. Qed.

Lemma elem_of_keys {A} (m : gmap (list string) A) q :
  q ∈ (map_to_list m).*1 ↔ is_Some (m !! q).
Proof.
  rewrite list_elem_of_fmap. split.
  - intros [[q' x] [-> Hx]]. apply elem_of_map_to_list in Hx. by exists x.
  - intros [x Hx]. exists (q, x). split; [done|].
    by apply elem_of_map_to_list.
Qed.

Lemma elem_of_field_names (m : gmap string Value) i :
  i ∈ (map_to_list m).*1 ↔ is_Some (m !! i).
Proof.
  rewrite list_elem_of_fmap. split.
  - intros [[i' x] [-> Hx]]. apply elem_of_map_to_list in Hx. by exists x.
  - intros [x Hx]. exists (i, x). split; [done|].
    by apply elem_of_map_to_list.
Qed.

Lemma elem_of_Traverse (d : gmap (list string) SpecData) p q :
  q ∈ Traverse d p ↔ is_Some (d !! q) ∧ p `prefix_of` q.
Proof.
  unfold Traverse. rewrite list_elem_of_filter, elem_of_keys. naive_solver.
Qed.

Lemma NoDup_Traverse (d : gmap (list string) SpecData) p :
  NoDup (Traverse d p).
Proof. apply NoDup_filter, NoDup_fst_map_to_list. Qed.

(** Folding deletions. *)
Lemma lookup_foldl_delete (d : gmap (list string) SpecData) qs q :
  foldl (λ acc q, delete q acc) d qs !! q
  = if decide (q ∈ qs) then None else d !! q.
Proof.
  revert d. induction qs as [|q0 qs IH]; intros d; cbn [foldl].
  - by rewrite decide_False by set_solver.
  - rewrite IH, lookup_delete.
    repeat case_decide; try done; set_solver.
Qed.

Lemma lookup__PrimDeleteSpec (d : gmap (list string) SpecData) p i q :
  _PrimDeleteSpec p i d !! q = if decide (p `prefix_of` q) then None else d !! q.
Proof.
  unfold _PrimDeleteSpec. rewrite lookup_foldl_delete.
  destruct (decide (q ∈ Traverse d p)) as [Hin|Hnin].
  - apply elem_of_Traverse in Hin as [_ Hp]. by rewrite decide_True.
  - destruct (decide (p `prefix_of` q)) as [Hp|]; [|done].
    destruct (d !! q) eqn:Hq; [|done].
    exfalso. apply Hnin, elem_of_Traverse. by rewrite Hq.
Qed.

(** Folding field copies into one spec. *)
Lemma lookup_foldl_Set_ne (g : string → option Value)
    (d : gmap (list string) SpecData) q names q' :
  q ≠ q' →
  foldl (λ dst i, SdfData_Set q i (g i) dst) d names !! q' = d !! q'.
Proof.
  intros Hne. revert d. induction names as [|i names IH]; intros d; [done|].
  cbn [foldl]. rewrite IH. unfold SdfData_Set, SdfData_Erase.
  destruct (g i); by rewrite lookup_alter_ne.
Qed.

Lemma lookup_foldl_Set_eq (g : string → option Value)
    (d : gmap (list string) SpecData) q names s :
  d !! q = Some s →
  (∀ i, i ∈ names → is_Some (g i)) →
  ∃ fs, foldl (λ dst i, SdfData_Set q i (g i) dst) d names !! q
          = Some (mkSpecData (specType s) fs) ∧
        ∀ j, fs !! j = if decide (j ∈ names) then g j else fields s !! j.
Proof.
  revert d s. induction names as [|i names IH]; intros d s Hq Hg.
  - exists (fields s). rewrite SpecData_eta. split; [done|].
    intros j. by rewrite decide_False by set_solver.
  - cbn [foldl]. destruct (Hg i) as [v Hv]; [set_solver|].
    edestruct (IH (SdfData_Set q i (g i) d)) as (fs & Hfs & Hlook).
    { rewrite Hv. unfold SdfData_Set. rewrite lookup_alter_eq, Hq. done. }
    { intros j Hj. apply Hg. set_solver. }
    exists fs. split; [done|]. intros j. rewrite Hlook. cbn.
    destruct (decide (j ∈ names)) as [Hj|Hj].
    + by rewrite decide_True by set_solver.
    + destruct (decide (j = i)) as [->|Hne].
      * rewrite decide_True by set_solver. by rewrite lookup_insert_eq.
      * rewrite decide_False by set_solver. by rewrite lookup_insert_ne.
Qed.

(** Copying one spec whose type is known. *)
Lemma lookup__CopySpec_ne (src dst : gmap (list string) SpecData) q q' :
  q ≠ q' → _CopySpec src dst q !! q' = dst !! q'.
Proof.
  intros Hne. unfold _CopySpec. rewrite lookup_foldl_Set_ne by done.
  unfold SdfData_CreateSpec.
  destruct (GetSpecType src q); try done; by rewrite lookup_insert_ne.
Qed.

Lemma _CopySpec_absent (src dst : gmap (list string) SpecData) q :
  src !! q = None → _CopySpec src dst q = dst.
Proof.
  intros Hq. unfold _CopySpec, GetSpecType, List_. by rewrite Hq.
Qed.

Lemma lookup__CopySpec_eq (src dst : gmap (list string) SpecData) q s :
  src !! q = Some s → specType s ≠ SdfSpecTypeUnknown →
  (∀ s0, dst !! q = Some s0 → fields s0 = ∅) →
  _CopySpec src dst q !! q = Some s.
Proof.
  intros Hq Hty Hdst. unfold _CopySpec.
  set (dst1 := SdfData_CreateSpec q (GetSpecType src q) dst).
  assert (dst1 !! q = Some (mkSpecData (specType s) ∅)) as Hdst1.
  { unfold dst1, SdfData_CreateSpec, GetSpecType. rewrite Hq.
    assert (match dst !! q with Some s0 => fields s0 | None => ∅ end
            = (∅ : gmap string Value)) as ->.
    { destruct (dst !! q) eqn:Hd; [by apply Hdst|done]. }
    destruct (specType s); try done; by rewrite lookup_insert_eq. }
  edestruct (lookup_foldl_Set_eq (GetField src q) dst1 q (List_ src q))
    as (fs & -> & Hlook); [done| |].
  { intros i Hi. unfold List_, GetField in *. rewrite Hq in *.
    by apply elem_of_field_names. }
  f_equal. rewrite <- (SpecData_eta s). cbn. f_equal.
  apply map_eq. intros j. rewrite Hlook. unfold List_, GetField. rewrite Hq.
  destruct (decide _) as [|Hn]; [done|]. cbn. rewrite lookup_empty.
  destruct (fields s !! j) eqn:Hj; [|done].
  exfalso. apply Hn, elem_of_field_names. by rewrite Hj.
Qed.

(** Copying the specs of [src] at the paths [qs] into [dst], where [dst]
    holds no field yet at these paths. *)
Lemma lookup_foldl__CopySpec (src dst : gmap (list string) SpecData) qs q :
  NoDup qs →
  (∀ q s, q ∈ qs → src !! q = Some s → specType s ≠ SdfSpecTypeUnknown) →
  (∀ q s0, q ∈ qs → dst !! q = Some s0 → fields s0 = ∅) →
  foldl (_CopySpec src) dst qs !! q
  = if decide (q ∈ qs)
    then match src !! q with Some s => Some s | None => dst !! q end
    else dst !! q.
Proof.
  intros Hnd. revert dst. induction Hnd as [|q0 qs Hq0 Hnd IH];
    intros dst Hty Hdst; cbn [foldl].
  - by rewrite decide_False by set_solver.
  - rewrite IH.
    + destruct (decide (q = q0)) as [->|Hne].
      * rewrite decide_False by done.
        destruct (decide (q0 ∈ q0 :: qs)); [|set_solver].
        destruct (src !! q0) as [s|] eqn:Hs.
        -- eapply lookup__CopySpec_eq; [done| |].
           ++ eapply Hty; [|done]. set_solver.
           ++ intros s0. apply Hdst. set_solver.
        -- by rewrite _CopySpec_absent.
      * rewrite lookup__CopySpec_ne by done.
        destruct (decide (q ∈ qs)).
        -- by rewrite decide_True by set_solver.
        -- by rewrite decide_False by set_solver.
    + intros q1 s Hq1. apply Hty. set_solver.
    + intros q1 s0 Hq1. rewrite lookup__CopySpec_ne by set_solver.
      apply Hdst. set_solver.
Qed.

Lemma lookup_SdfData_CreateSpec (d : gmap (list string) SpecData) p ty q :
  SdfData_CreateSpec p ty d !! q
  = if decide (p = q ∧ ty ≠ SdfSpecTypeUnknown)
    then Some (mkSpecData ty (match d !! p with
                              | Some s => fields s
                              | None => ∅
                              end))
    else d !! q.
Proof.
  unfold SdfData_CreateSpec.
  destruct ty; rewrite ?lookup_insert; repeat case_decide; naive_solver.
Qed.

(** The snapshot taken by the deletion hook is the subtree itself. *)
Lemma lookup_snapshot (d : gmap (list string) SpecData) p q :
  known_types_under p d →
  foldl (_CopySpecAtPath d) ∅ (Traverse d p) !! q
  = if decide (p `prefix_of` q) then d !! q else None.
Proof.
  intros Hk. change (_CopySpecAtPath d) with (_CopySpec d).
  rewrite lookup_foldl__CopySpec.
  - rewrite lookup_empty. destruct (decide (q ∈ Traverse d p)) as [Hin|Hnin].
    + apply elem_of_Traverse in Hin as [[s Hs] Hp].
      rewrite decide_True by done. by rewrite Hs.
    + case_decide as Hp; [|done]. destruct (d !! q) eqn:Hq; [|done].
      exfalso. apply Hnin, elem_of_Traverse. by rewrite Hq.
  - apply NoDup_Traverse.
  - intros q' s Hin Hs. apply elem_of_Traverse in Hin as [_ Hp].
    by eapply Hk.
  - intros q' s0 _. by rewrite lookup_empty.
Qed.

(** Calling the inverse of a deletion right after the deletion restores the
    layer data. *)
Lemma DeleteSpec_undone (d : gmap (list string) SpecData) p i :
  known_types_under p d →
  op_post (capture d (EDeleteSpec p i)) (prim (EDeleteSpec p i) d) = d.
Proof.
  intros Hk. unfold op_post, capture, op_edit, op_copy, prim, _PrimCreateSpec.
  set (data := foldl (_CopySpecAtPath d) ∅ (Traverse d p)).
  set (d' := _PrimDeleteSpec p i d).
  assert (∀ q, data !! q = if decide (p `prefix_of` q) then d !! q else None)
    as Hdata by (intros q; by apply lookup_snapshot).
  assert (∀ q, d' !! q = if decide (p `prefix_of` q) then None else d !! q)
    as Hd' by (intros q; apply lookup__PrimDeleteSpec).
  apply map_eq. intros q. rewrite lookup_foldl__CopySpec.
  - rewrite Hdata, lookup_SdfData_CreateSpec, !Hd'.
    rewrite (decide_True _ _ (reflexivity p : p `prefix_of` p)).
    destruct (decide (q ∈ (map_to_list data).*1)) as [Hin|Hnin].
    + apply elem_of_keys in Hin as [s Hs]. rewrite Hdata in Hs.
      case_decide; [|done]. by rewrite Hs.
    + assert (data !! q = None) as Hnone.
      { destruct (data !! q) eqn:Hq; [|done].
        exfalso. apply Hnin, elem_of_keys. by rewrite Hq. }
      rewrite Hdata in Hnone.
      destruct (decide (p `prefix_of` q)) as [Hp|Hp].
      * rewrite Hnone. case_decide as Hc; [|done].
        destruct Hc as [-> Hty]. unfold GetSpecType in Hty.
        by rewrite Hnone in Hty.
      * rewrite decide_False; [done|]. intros [-> _]. by apply Hp.
  - apply NoDup_fst_map_to_list.
  - intros q' s _ Hs. rewrite Hdata in Hs. case_decide; [|done].
    by eapply Hk.
  - intros q' s0 Hin. apply elem_of_keys in Hin as [s Hs].
    rewrite Hdata in Hs. case_decide as Hp; [|done].
    rewrite lookup_SdfData_CreateSpec, !Hd'.
    rewrite (decide_True _ _ (reflexivity p : p `prefix_of` p)).
    rewrite (decide_True _ _ Hp).
    case_decide; [|done]. by intros [= <-].
Qed.

(** ** C3 *)

(** C3. A spec deletion that goes through the delegate inside a block
    routes one closure holding the type of the deleted spec and a snapshot
    taken from the data before the deletion, in which every spec of the
    subtree is found with its type and all its fields; the storage then
    loses the subtree, and calling the closure creates the spec again with
    the recorded type and restores every field of every spec of the subtree
    to its value before the deletion. *)
Theorem DeleteSpec_snapshot_and_restore (w : World)
    (d : gmap (list string) SpecData) (path : list string) (inert : bool) :
  _layer (delegate w) = Some d → IsMuted w = false →
  (0 < _depth (router w))%Z → known_types_under path d →
  ∃ deletedData,
    let inverse :=
      bind_InvertDeleteSpec path inert (GetSpecType d path) deletedData in
    let w1 := DeleteSpec path inert w in
    _inversion (router w1) = _inversion (router w) ++ [inverse] ∧
    (∀ q s, path `prefix_of` q → d !! q = Some s → deletedData !! q = Some s) ∧
    _layer (delegate w1) = Some (_PrimDeleteSpec path inert d) ∧
    (∀ q, path `prefix_of` q → _PrimDeleteSpec path inert d !! q = None) ∧
    (call inverse w1).1 = true ∧
    ∃ d2, _layer (delegate (call inverse w1).2) = Some d2 ∧
          GetSpecType d2 path = GetSpecType d path ∧
          ∀ q fieldName, path `prefix_of` q →
                         GetField d2 q fieldName = GetField d q fieldName.
Proof.
  intros Hl Hm Hd Hk.
  exists (foldl (_CopySpecAtPath d) ∅ (Traverse d path)). cbv zeta.
  change (DeleteSpec path inert w) with (edit (EDeleteSpec path inert) w).
  rewrite (edit_open _ _ d) by done. cbn [router _inversion delegate _layer].
  split_and!.
  - done.
  - intros q s Hp Hs. rewrite lookup_snapshot by done.
    by rewrite decide_True.
  - done.
  - intros q Hp. rewrite lookup__PrimDeleteSpec. by rewrite decide_True.
  - by rewrite (call_open _ _ (_PrimDeleteSpec path inert d)).
  - rewrite (call_open _ _ (_PrimDeleteSpec path inert d)) by done.
    cbn [snd delegate _layer]. eexists. split; [done|].
    pose proof (DeleteSpec_undone d path inert Hk) as Hu.
    unfold capture, prim in Hu. rewrite Hu. done.
Qed.

(** ** C7 *)

(** C7, as the code has it.  A spec creation that goes through the delegate
    inside a block routes the closure bound to the path and the inert flag
    of the call, and to nothing else: the spec type is not recorded.
    Calling the closure deletes the spec at the path. *)
Theorem CreateSpec_inverse_deletes (w : World)
    (d : gmap (list string) SpecData) (path : list string)
    (ty : SdfSpecType) (inert : bool) :
  _layer (delegate w) = Some d → IsMuted w = false →
  (0 < _depth (router w))%Z →
  let inverse := bind_InvertCreateSpec path inert in
  let w1 := CreateSpec path ty inert w in
  _inversion (router w1) = _inversion (router w) ++ [inverse] ∧
  _layer (delegate w1) = Some (_PrimCreateSpec path ty inert d) ∧
  (call inverse w1).1 = true ∧
  ∃ d2, _layer (delegate (call inverse w1).2) = Some d2 ∧
        d2 !! path = None ∧
        GetSpecType d2 path = SdfSpecTypeUnknown.
Proof.
  intros Hl Hm Hd. cbv zeta.
  change (CreateSpec path ty inert w) with (edit (ECreateSpec path ty inert) w).
  rewrite (edit_open _ _ d) by done. cbn [router _inversion delegate _layer].
  split_and!; [done|done| |].
  - by rewrite (call_open _ _ (_PrimCreateSpec path ty inert d)).
  - rewrite (call_open _ _ (_PrimCreateSpec path ty inert d)) by done.
    cbn [snd delegate _layer]. eexists. split; [done|].
    assert (op_post (bind_InvertCreateSpec path inert)
              (_PrimCreateSpec path ty inert d) !! path = None) as Hnone.
    { unfold op_post, op_copy, op_edit, prim.
      rewrite lookup__PrimDeleteSpec. by rewrite decide_True. }
    split; [done|]. unfold GetSpecType. by rewrite Hnone.
Qed.

(** * Field writes are reversible *)

Lemma lookup_SdfData_Set (d : gmap (list string) SpecData) p f v q :
  SdfData_Set p f v d !! q
  = if decide (p = q)
    then (λ s, set_fields
                 (match v with
                  | Some x => <[f := x]> (fields s)
                  | None => delete f (fields s)
                  end) s) <$> d !! p
    else d !! q.
Proof.
  unfold SdfData_Set, SdfData_Erase.
  destruct v; rewrite lookup_alter; case_decide; by subst.
Qed.

Lemma GetField_SdfData_Set (d : gmap (list string) SpecData) p f v :
  GetField (SdfData_Set p f v d) p f
  = match d !! p with Some _ => v | None => None end.
Proof.
  unfold GetField. rewrite lookup_SdfData_Set, decide_True by done.
  destruct (d !! p) as [s|]; [|done]. cbn.
  destruct v; by rewrite ?lookup_insert_eq, ?lookup_delete_eq.
Qed.

Lemma SdfData_Set_GetField (d : gmap (list string) SpecData) p f :
  SdfData_Set p f (GetField d p f) d = d.
Proof.
  apply map_eq. intros q. rewrite lookup_SdfData_Set.
  case_decide as Hq; [subst q|done].
  unfold GetField. destruct (d !! p) as [s|] eqn:Hs; [|done]. cbn.
  f_equal. rewrite <- (SpecData_eta s) at 3. unfold set_fields. f_equal.
  destruct (fields s !! f) eqn:Hf.
  - by apply insert_id.
  - by apply delete_id.
Qed.

Lemma SdfData_Set_twice (d : gmap (list string) SpecData) p f v v' :
  SdfData_Set p f v' (SdfData_Set p f v d) = SdfData_Set p f v' d.
Proof.
  apply map_eq. intros q. rewrite !lookup_SdfData_Set.
  case_decide as Hq; [subst q|done].
  rewrite decide_True by done.
  destruct (d !! p) as [s|]; [|done]. cbn. unfold set_fields. cbn.
  do 2 f_equal.
  destruct v, v'; by rewrite ?insert_insert_eq, ?delete_insert_eq,
    ?insert_delete_eq, ?delete_delete_eq.
Qed.

Lemma SetField_reversible (d : gmap (list string) SpecData) p f v :
  reversible d (ESetField p f v).
Proof.
  unfold reversible, op_post, op_recapture, capture, op_edit, op_copy, prim,
    _PrimSetField.
  split.
  - by rewrite SdfData_Set_twice, SdfData_Set_GetField.
  - rewrite GetField_SdfData_Set. destruct (d !! p) as [s|] eqn:Hs; [done|].
    apply map_eq. intros q. rewrite !lookup_SdfData_Set.
    case_decide; [subst q; by rewrite Hs|done].
Qed.

Lemma field_writes_reversible (d : gmap (list string) SpecData) es :
  Forall (λ e, match e with ESetField _ _ _ => True | _ => False end) es →
  reversible_batch d es.
Proof.
  intros Hes. revert d. induction Hes as [|e es He _ IH]; intros d; [done|].
  cbn [reversible_batch]. split; [|apply IH].
  destruct e; try done. apply SetField_reversible.
Qed.

(** * Deleting and creating specs are reversible *)

Lemma DeleteSpec_reversible (d : gmap (list string) SpecData) p i :
  known_types_under p d → reversible d (EDeleteSpec p i).
Proof. intros Hk. split; [by apply DeleteSpec_undone|done]. Qed.

Lemma _PrimDeleteSpec_nothing_under (d : gmap (list string) SpecData) p i :
  nothing_under p d → _PrimDeleteSpec p i d = d.
Proof.
  intros Hn. apply map_eq. intros q. rewrite lookup__PrimDeleteSpec.
  case_decide; [|done]. by rewrite Hn.
Qed.

Lemma CreateSpec_reversible (d : gmap (list string) SpecData) p ty i :
  nothing_under p d → reversible d (ECreateSpec p ty i).
Proof.
  intros Hn.
  assert (_PrimDeleteSpec p i (_PrimCreateSpec p ty i d) = d) as Hdel.
  { apply map_eq. intros q. rewrite lookup__PrimDeleteSpec.
    unfold _PrimCreateSpec. rewrite lookup_SdfData_CreateSpec.
    case_decide as Hp; [by rewrite Hn|].
    rewrite decide_False; [done|]. intros [-> _]. by apply Hp. }
  split; [done|].
  set (d' := _PrimCreateSpec p ty i d) in *.
  assert (known_types_under p d') as Hk.
  { intros q s Hs Hp. unfold d', _PrimCreateSpec in Hs.
    rewrite lookup_SdfData_CreateSpec in Hs. case_decide as Hc.
    - destruct Hc as [_ Hty]. by injection Hs as <-.
    - by rewrite Hn in Hs. }
  pose proof (DeleteSpec_undone d' p i Hk) as Hu.
  change (prim (EDeleteSpec p i) d') with (_PrimDeleteSpec p i d') in Hu.
  rewrite Hdel in Hu. exact Hu.
Qed.

(** * Round trip *)

Lemma op_posts_app (ops1 ops2 : list Op) (d : gmap (list string) SpecData) :
  op_posts (ops1 ++ ops2) d = op_posts ops2 (op_posts ops1 d).
Proof. apply foldl_app. Qed.

Lemma op_recaptures_app (ops1 ops2 : list Op)
    (d : gmap (list string) SpecData) :
  op_recaptures (ops1 ++ ops2) d
  = op_recaptures ops1 d ++ op_recaptures ops2 (op_posts ops1 d).
Proof.
  revert d. induction ops1 as [|op ops1 IH]; intros d; [done|].
  cbn. by rewrite IH.
Qed.

(** Replaying, last first, the closures captured for a reversible batch
    gives back the data the batch started from. *)
Lemma captures_undo (d : gmap (list string) SpecData) (es : list Edit) :
  reversible_batch d es →
  op_posts (rev (captures d es)) (prims es d) = d.
Proof.
  revert d. induction es as [|e es IH]; intros d; [done|].
  intros [[Hundo _] Hes]. cbn [captures prims foldl rev].
  rewrite op_posts_app. change (foldl _ (prim e d) es) with (prims es (prim e d)).
  rewrite IH by done. done.
Qed.

(** And replaying, last first, the closures captured during that replay
    gives the data after the batch again. *)
Lemma captures_redo (d : gmap (list string) SpecData) (es : list Edit) :
  reversible_batch d es →
  op_posts (rev (op_recaptures (rev (captures d es)) (prims es d))) d
  = prims es d.
Proof.
  revert d. induction es as [|e es IH]; intros d; [done|].
  intros [[Hundo Hredo] Hes]. cbn [captures prims foldl rev].
  change (foldl _ (prim e d) es) with (prims es (prim e d)).
  rewrite op_recaptures_app, captures_undo by done.
  rewrite rev_app_distr. cbn [op_recaptures rev app].
  unfold op_posts at 1. cbn [foldl].
  fold (op_posts (rev (op_recaptures (rev (captures (prim e d) es))
                         (prims es (prim e d))))
          (op_post (op_recapture (capture d e) (prim e d)) d)).
  rewrite Hredo. by apply IH.
Qed.

Lemma edits_open (es : list Edit) (w : World)
    (d : gmap (list string) SpecData) :
  _layer (delegate w) = Some d → IsMuted w = false →
  (0 < _depth (router w))%Z →
  let w' := foldl (λ w e, edit e w) w es in
  _inversion (router w') = _inversion (router w) ++ captures d es ∧
  _layer (delegate w') = Some (prims es d) ∧
  _depth (router w') = _depth (router w) ∧
  _muteDepth (router w') = _muteDepth (router w) ∧
  notices w' = notices w ∧ host w' = host w.
Proof.
  revert w d. induction es as [|e es IH]; intros w d Hl Hm Hd; cbv zeta.
  - cbn. by rewrite app_nil_r.
  - cbn [foldl captures prims].
    change (foldl _ (prim e d) es) with (prims es (prim e d)).
    destruct (IH (edit e w) (prim e d)) as (Hi&Hl'&Hd'&Hm'&Hn&Hh).
    + by rewrite (edit_open _ _ d).
    + unfold IsMuted in *. by rewrite (edit_open _ _ d).
    + by rewrite (edit_open _ _ d).
    + rewrite Hi, Hl', Hd', Hm', Hn, Hh.
      rewrite (edit_open _ _ d) by done. cbn. by rewrite <- app_assoc.
Qed.


(** The block of the host around a batch of edits, on a router at rest: the
    listening host receives the closures captured for the batch. *)
Lemma edit_block_adopted (es : list Edit) (w : World)
    (d : gmap (list string) SpecData) :
  _depth (router w) = 0%Z → _inversion (router w) = [] →
  IsMuted w = false → _layer (delegate w) = Some d →
  listening (host w) = true → es ≠ [] →
  undoStack (host (edit_block es w)) = captures d es :: undoStack (host w) ∧
  _layer (delegate (edit_block es w)) = Some (prims es d) ∧
  _depth (router (edit_block es w)) = 0%Z ∧
  _inversion (router (edit_block es w)) = [] ∧
  IsMuted (edit_block es w) = false ∧
  notices (edit_block es w) = S (notices w).
Proof.
  intros Hd Hi Hm Hl Hls Hes. unfold edit_block.
  set (w1 := UsdQtUndoBlock_ctor w).
  assert (_depth (router w1) = 1%Z ∧ _inversion (router w1) = [] ∧
          _layer (delegate w1) = Some d ∧ IsMuted w1 = false ∧
          host w1 = host w ∧ notices w1 = notices w)
    as (Hd1&Hi1&Hl1&Hm1&Hh1&Hn1).
  { unfold w1. rewrite ctor_eq. unfold IsMuted in *. cbn.
    split_and!; [lia|done..]. }
  destruct (edits_open es w1 d) as (Hi2&Hl2&Hd2&Hm2&Hn2&Hh2); [done|done|lia|].
  rewrite Hi1 in Hi2. cbn in Hi2.
  rewrite dtor_outer_pending; [|congruence|].
  - cbn. rewrite Hh2, Hh1, Hls, Hi2, Hl2, Hn2, Hn1.
    unfold IsMuted in *. cbn. rewrite Hm2. done.
  - rewrite Hi2. by destruct es.
Qed.


(** * Field-local edits are reversible *)

Lemma SdfData_Set_missing (d : gmap (list string) SpecData) p f v :
  d !! p = None → SdfData_Set p f v d = d.
Proof.
  intros Hp. apply map_eq. intros q. rewrite lookup_SdfData_Set.
  case_decide; [subst; by rewrite Hp|done].
Qed.

Lemma GetField_missing (d : gmap (list string) SpecData) p f :
  d !! p = None → GetField d p f = None.
Proof. intros Hp. unfold GetField. by rewrite Hp. Qed.

(** Writing a field twice, the second time with what it held at first. *)
Lemma SdfData_Set_back (d : gmap (list string) SpecData) p f v1 v2 :
  (is_Some (d !! p) → v2 = GetField d p f) →
  SdfData_Set p f v2 (SdfData_Set p f v1 d) = d.
Proof.
  intros Hv. rewrite SdfData_Set_twice.
  destruct (d !! p) as [s|] eqn:Hs.
  - rewrite Hv by done. apply SdfData_Set_GetField.
  - by apply SdfData_Set_missing.
Qed.

Lemma SdfData_Set_same (d : gmap (list string) SpecData) p f v1 v2 :
  (is_Some (d !! p) → v2 = v1) →
  SdfData_Set p f v2 d = SdfData_Set p f v1 d.
Proof.
  intros Hv. destruct (d !! p) as [s|] eqn:Hs.
  - by rewrite Hv.
  - by rewrite !SdfData_Set_missing.
Qed.

Lemma GetField_Set_live (d : gmap (list string) SpecData) p f v :
  is_Some (d !! p) → GetField (SdfData_Set p f v d) p f = v.
Proof. intros [s Hs]. by rewrite GetField_SdfData_Set, Hs. Qed.

(** The field-local primitives read the field, compute, and write it. *)
Lemma _PrimSetFieldDictValueByKey_Set (d : gmap (list string) SpecData)
    p f k v :
  _PrimSetFieldDictValueByKey p f k v d
  = SdfData_Set p f (set_dict_entry k v (GetField d p f)) d.
Proof.
  unfold _PrimSetFieldDictValueByKey, set_dict_entry.
  destruct v as [x|]; [done|].
  destruct (GetField d p f) as [[]|] eqn:Ho;
    try (by rewrite <- Ho, SdfData_Set_GetField).
  by destruct (Nat.eqb _ _).
Qed.

Lemma _PrimSetTimeSample_Set (d : gmap (list string) SpecData) p t v :
  _PrimSetTimeSample p t v d
  = SdfData_Set p SdfFieldKeys_TimeSamples
      (set_sample t v (GetField d p SdfFieldKeys_TimeSamples)) d.
Proof.
  unfold _PrimSetTimeSample, set_sample.
  destruct v as [x|]; [done|]. by destruct (Nat.eqb _ _).
Qed.

Lemma _PrimPopTokenChild_Set (d : gmap (list string) SpecData) p f :
  _PrimPopTokenChild p f d = SdfData_Set p f (pop_token (GetField d p f)) d.
Proof.
  unfold _PrimPopTokenChild, token_children, pop_token.
  destruct (GetField d p f) as [[| |[|x l]| | |]|] eqn:Ho;
    try (by rewrite <- Ho, SdfData_Set_GetField); done.
Qed.

Lemma _PrimPopPathChild_Set (d : gmap (list string) SpecData) p f :
  _PrimPopPathChild p f d = SdfData_Set p f (pop_path (GetField d p f)) d.
Proof.
  unfold _PrimPopPathChild, path_children, pop_path.
  destruct (GetField d p f) as [[| | |[|x l]| |]|] eqn:Ho;
    try (by rewrite <- Ho, SdfData_Set_GetField); done.
Qed.

(** Value-level round trips. *)
Lemma size_zero_empty {K} `{Countable K} {A} (m : gmap K A) :
  Nat.eqb (size m) 0 = true ↔ m = ∅.
Proof. rewrite Nat.eqb_eq. apply map_size_empty_iff. Qed.

Lemma size_nonzero_nonempty {K} `{Countable K} {A} (m : gmap K A) :
  Nat.eqb (size m) 0 = false ↔ m ≠ ∅.
Proof. rewrite Nat.eqb_neq. by rewrite map_size_empty_iff. Qed.

Lemma insert_nonempty_size {K} `{Countable K} {A} (m : gmap K A) k x :
  Nat.eqb (size (<[k := x]> m)) 0 = false.
Proof. apply size_nonzero_nonempty, insert_non_empty. Qed.

Lemma set_dict_entry_undo k v o :
  valid_dictionary o →
  set_dict_entry k (dict_entry k o) (set_dict_entry k v o) = o.
Proof.
  destruct o as [[| | | |m|]|]; try done; cbn; intros Hm.
  - destruct v as [x|]; cbn.
    + destruct (m !! k) as [y|] eqn:Hk; cbn.
      * by rewrite insert_insert_eq, insert_id.
      * rewrite delete_insert_id by done.
        apply size_nonzero_nonempty in Hm. by rewrite Hm.
    + destruct (Nat.eqb (size (delete k m)) 0) eqn:Hsz.
      * apply size_zero_empty in Hsz.
        destruct (m !! k) as [y|] eqn:Hk; cbn.
        -- rewrite <- Hsz. by rewrite insert_delete_id.
        -- rewrite delete_id in Hsz by done. done.
      * destruct (m !! k) as [y|] eqn:Hk; cbn.
        -- by rewrite insert_delete_id.
        -- rewrite delete_delete_eq, Hsz. by rewrite delete_id.
  - destruct v as [x|]; cbn; [|done].
    rewrite delete_insert_id by done. done.
Qed.

Lemma set_dict_entry_redo k v o :
  valid_dictionary o →
  set_dict_entry k (dict_entry k (set_dict_entry k v o)) o
  = set_dict_entry k v o.
Proof.
  destruct o as [[| | | |m|]|]; try done; cbn; intros Hm.
  - destruct v as [x|]; cbn.
    + by rewrite lookup_insert_eq.
    + destruct (Nat.eqb (size (delete k m)) 0) eqn:Hsz; cbn.
      * by rewrite Hsz.
      * rewrite lookup_delete_eq. cbn. by rewrite Hsz.
  - destruct v as [x|]; cbn; [|done]. by rewrite lookup_insert_eq.
Qed.

Lemma set_sample_undo t v o :
  valid_samples o → o ≠ None →
  set_sample t (sample_at t o) (set_sample t v o) = o.
Proof.
  destruct o as [[| | | | |m]|]; try done; cbn; intros Hm _.
  destruct v as [x|]; cbn.
  - destruct (m !! t) as [y|] eqn:Ht; cbn.
    + by rewrite insert_insert_eq, insert_id.
    + rewrite delete_insert_id by done.
      apply size_nonzero_nonempty in Hm. by rewrite Hm.
  - destruct (Nat.eqb (size (delete t m)) 0) eqn:Hsz; cbn.
    + apply size_zero_empty in Hsz.
      destruct (m !! t) as [y|] eqn:Ht; cbn.
      * rewrite <- Hsz at 1. by rewrite insert_delete_id.
      * rewrite delete_id in Hsz by done. done.
    + destruct (m !! t) as [y|] eqn:Ht; cbn.
      * by rewrite insert_delete_id.
      * rewrite delete_delete_eq, Hsz. by rewrite delete_id.
Qed.

Lemma set_sample_redo t v o :
  set_sample t v o ≠ None →
  set_sample t (sample_at t (set_sample t v o)) o = set_sample t v o.
Proof.
  unfold set_sample at 1 3 4. destruct v as [x|]; cbn.
  - intros _. rewrite lookup_insert_eq. done.
  - destruct (Nat.eqb (size (delete t _)) 0) eqn:Hsz; [done|]. intros _.
    cbn. rewrite lookup_delete_eq. unfold set_sample. by rewrite Hsz.
Qed.

Lemma HasField_GetField (d : gmap (list string) SpecData) p f :
  HasField d p f = false ↔ GetField d p f = None.
Proof. unfold HasField. by destruct (GetField d p f). Qed.

Lemma QueryTimeSample_sample_at (d : gmap (list string) SpecData) p t :
  QueryTimeSample d p t = sample_at t (GetField d p SdfFieldKeys_TimeSamples).
Proof. done. Qed.

Lemma GetFieldDictValueByKey_dict_entry (d : gmap (list string) SpecData)
    p f k :
  GetFieldDictValueByKey d p f k = dict_entry k (GetField d p f).
Proof. done. Qed.

Lemma SetFieldDictValueByKey_reversible (d : gmap (list string) SpecData)
    p f k v :
  valid_edit d (ESetFieldDictValueByKey p f k v) →
  reversible d (ESetFieldDictValueByKey p f k v).
Proof.
  intros Hv.
  assert (valid_dictionary (GetField d p f)) as Hvd by done.
  unfold reversible, op_post, op_recapture, capture, op_edit, op_copy, prim.
  rewrite !_PrimSetFieldDictValueByKey_Set, !GetFieldDictValueByKey_dict_entry.
  split.
  - apply SdfData_Set_back. intros Hlive.
    rewrite GetField_Set_live by done. by apply set_dict_entry_undo.
  - apply SdfData_Set_same. intros Hlive.
    rewrite GetField_Set_live by done. by apply set_dict_entry_redo.
Qed.

Lemma SetTimeSample_reversible (d : gmap (list string) SpecData) p t v :
  valid_edit d (ESetTimeSample p t v) →
  reversible d (ESetTimeSample p t v).
Proof.
  intros Hv.
  assert (valid_samples (GetField d p SdfFieldKeys_TimeSamples)) as Hvs
    by done.
  set (f := SdfFieldKeys_TimeSamples) in *.
  set (d' := prim (ESetTimeSample p t v) d).
  assert (d' = SdfData_Set p f (set_sample t v (GetField d p f)) d) as Hd'
    by apply _PrimSetTimeSample_Set.
  unfold reversible. fold d'.
  destruct (GetField d p f) as [x|] eqn:Ho.
  - (* the field is there: the sample is put back *)
    assert (capture d (ESetTimeSample p t v)
            = bind_InvertSetTimeSample p t (sample_at t (Some x))) as ->.
    { unfold capture. fold f. rewrite QueryTimeSample_sample_at. fold f.
      unfold HasField. by rewrite Ho. }
    assert (is_Some (d !! p)) as Hlive.
    { destruct (d !! p) eqn:Hp; [done|].
      by rewrite GetField_missing in Ho. }
    assert (GetField d' p f = set_sample t v (Some x)) as Ho'.
    { rewrite Hd'. by apply GetField_Set_live. }
    split.
    + unfold op_post, op_edit, op_copy, prim.
      rewrite _PrimSetTimeSample_Set. fold f. rewrite Ho', Hd'.
      apply SdfData_Set_back. intros _. rewrite Ho.
      by apply set_sample_undo.
    + unfold op_recapture, op_edit, capture. fold f.
      rewrite QueryTimeSample_sample_at. fold f.
      unfold HasField. rewrite Ho'.
      destruct (set_sample t v (Some x)) as [y|] eqn:Hy; cbn [negb].
      * unfold op_post, op_edit, op_copy, prim.
        rewrite _PrimSetTimeSample_Set. fold f. rewrite Ho, Hd'.
        apply SdfData_Set_same. intros _. rewrite <- Hy.
        apply set_sample_redo. by rewrite Hy.
      * unfold op_post, op_edit, op_copy, prim, _PrimSetField.
        rewrite Hd'. by apply SdfData_Set_same.
  - (* no sample field yet: the whole field is removed *)
    assert (capture d (ESetTimeSample p t v)
            = bind_InvertSetField p f None) as ->.
    { unfold capture. fold f. unfold HasField. by rewrite Ho. }
    split.
    + unfold op_post, op_edit, op_copy, prim, _PrimSetField. rewrite Hd'.
      apply SdfData_Set_back. intros _. by rewrite Ho.
    + unfold op_recapture, op_edit, capture, op_post, op_copy, prim,
        _PrimSetField.
      rewrite Hd'. apply SdfData_Set_same. intros Hlive.
      by apply GetField_Set_live.
Qed.

Lemma PushTokenChild_reversible (d : gmap (list string) SpecData) p f v :
  valid_edit d (EPushTokenChild p f v) → reversible d (EPushTokenChild p f v).
Proof.
  intros Hv. split; [|done].
  unfold op_post, capture, op_edit, op_copy, prim.
  rewrite _PrimPopTokenChild_Set. unfold _PrimPushTokenChild, token_children.
  apply SdfData_Set_back. intros Hlive. rewrite GetField_Set_live by done.
  destruct Hv as [Hp|[l Hl]]; [rewrite Hp in Hlive; by destruct Hlive|].
  rewrite Hl. unfold pop_token.
  destruct (l ++ [v]) as [|x l'] eqn:Hlv; [by destruct l|].
  rewrite <- Hlv. by rewrite removelast_last.
Qed.

Lemma PushPathChild_reversible (d : gmap (list string) SpecData) p f v :
  valid_edit d (EPushPathChild p f v) → reversible d (EPushPathChild p f v).
Proof.
  intros Hv. split; [|done].
  unfold op_post, capture, op_edit, op_copy, prim.
  rewrite _PrimPopPathChild_Set. unfold _PrimPushPathChild, path_children.
  apply SdfData_Set_back. intros Hlive. rewrite GetField_Set_live by done.
  destruct Hv as [Hp|[l Hl]]; [rewrite Hp in Hlive; by destruct Hlive|].
  rewrite Hl. unfold pop_path.
  destruct (l ++ [v]) as [|x l'] eqn:Hlv; [by destruct l|].
  rewrite <- Hlv. by rewrite removelast_last.
Qed.

Lemma PopTokenChild_reversible (d : gmap (list string) SpecData) p f v :
  valid_edit d (EPopTokenChild p f v) → reversible d (EPopTokenChild p f v).
Proof.
  intros Hv. split; [|done].
  unfold op_post, capture, op_edit, op_copy, prim.
  rewrite _PrimPopTokenChild_Set. unfold _PrimPushTokenChild, token_children.
  apply SdfData_Set_back. intros Hlive. rewrite GetField_Set_live by done.
  destruct Hv as [Hp|[l Hl]]; [rewrite Hp in Hlive; by destruct Hlive|].
  rewrite Hl. unfold pop_token.
  destruct (l ++ [v]) as [|x l'] eqn:Hlv; [by destruct l|].
  rewrite <- Hlv. by rewrite removelast_last.
Qed.

Lemma PopPathChild_reversible (d : gmap (list string) SpecData) p f v :
  valid_edit d (EPopPathChild p f v) → reversible d (EPopPathChild p f v).
Proof.
  intros Hv. split; [|done].
  unfold op_post, capture, op_edit, op_copy, prim.
  rewrite _PrimPopPathChild_Set. unfold _PrimPushPathChild, path_children.
  apply SdfData_Set_back. intros Hlive. rewrite GetField_Set_live by done.
  destruct Hv as [Hp|[l Hl]]; [rewrite Hp in Hlive; by destruct Hlive|].
  rewrite Hl. unfold pop_path.
  destruct (l ++ [v]) as [|x l'] eqn:Hlv; [by destruct l|].
  rewrite <- Hlv. by rewrite removelast_last.
Qed.

(** * Moving a subtree is reversible *)

Lemma ReplacePrefix_back (o n q : list string) :
  o `prefix_of` q → ReplacePrefix n o (ReplacePrefix o n q) = q.
Proof.
  intros [k ->]. unfold ReplacePrefix. by rewrite !drop_app_length.
Qed.

Lemma ReplacePrefix_prefix (o n q : list string) :
  n `prefix_of` ReplacePrefix o n q.
Proof. by apply prefix_app_r. Qed.

Lemma unrelated_paths (o n q : list string) :
  ¬ o `prefix_of` n → ¬ n `prefix_of` o →
  o `prefix_of` q → n `prefix_of` q → False.
Proof.
  intros Hon Hno Ho Hn. destruct (prefix_weak_total o n q); done.
Qed.

Lemma lookup_foldl_move (d acc : gmap (list string) SpecData)
    (o n : list string) (qs : list (list string)) (q : list string) :
  ¬ o `prefix_of` n → ¬ n `prefix_of` o →
  (∀ x, x ∈ qs → o `prefix_of` x ∧ is_Some (d !! x)) →
  foldl (λ acc x,
           match d !! x with
           | Some s => <[ReplacePrefix o n x := s]> (delete x acc)
           | None => acc
           end) acc qs !! q
  = if decide (n `prefix_of` q ∧ ReplacePrefix n o q ∈ qs)
    then d !! ReplacePrefix n o q
    else if decide (q ∈ qs) then None else acc !! q.
Proof.
  intros Hon Hno. revert acc.
  induction qs as [|q0 qs IH]; intros acc Hqs; cbn [foldl].
  - rewrite decide_False by set_solver. by rewrite decide_False by set_solver.
  - destruct (Hqs q0) as [Ho0 [s0 Hs0]]; [set_solver|].
    rewrite Hs0, IH by (intros x Hx; apply Hqs; set_solver).
    destruct (decide (n `prefix_of` q ∧ ReplacePrefix n o q ∈ qs))
      as [[Hn Hin]|Hnot].
    { rewrite decide_True; [done|]. split; [done|set_solver]. }
    destruct (decide (q ∈ qs)) as [Hq|Hq].
    { destruct (Hqs q) as [Ho _]; [set_solver|].
      rewrite decide_False.
      - rewrite decide_True; [done|set_solver].
      - intros [Hn _]. by eapply unrelated_paths. }
    rewrite lookup_insert.
    destruct (decide (ReplacePrefix o n q0 = q)) as [<-|Hne].
    { rewrite decide_True; [by rewrite ReplacePrefix_back|].
      split; [apply ReplacePrefix_prefix|].
      rewrite ReplacePrefix_back by done. set_solver. }
    rewrite lookup_delete.
    destruct (decide (q0 = q)) as [<-|Hne0].
    { rewrite decide_False.
      - rewrite decide_True; [done|set_solver].
      - intros [Hn _]. by eapply unrelated_paths. }
    rewrite decide_False.
    + rewrite decide_False; [done|set_solver].
    + intros [Hn Hin]. apply elem_of_cons in Hin as [Heq|Hin].
      * apply Hne. rewrite <- Heq. by rewrite ReplacePrefix_back.
      * by apply Hnot.
Qed.

Lemma lookup__PrimMoveSpec (d : gmap (list string) SpecData)
    (o n q : list string) :
  nothing_under n d → ¬ o `prefix_of` n → ¬ n `prefix_of` o →
  _PrimMoveSpec o n d !! q
  = if decide (n `prefix_of` q) then d !! ReplacePrefix n o q
    else if decide (o `prefix_of` q) then None else d !! q.
Proof.
  intros Hnu Hon Hno. unfold _PrimMoveSpec.
  rewrite lookup_foldl_move; [|done|done|].
  - destruct (decide (n `prefix_of` q)) as [Hn|Hn].
    + destruct (decide (n `prefix_of` q ∧ _)) as [_|Hnot]; [done|].
      rewrite decide_False.
      * rewrite Hnu by done.
        destruct (d !! ReplacePrefix n o q) eqn:Hs; [|done].
        exfalso. apply Hnot. split; [done|]. apply elem_of_Traverse.
        rewrite Hs. split; [done|]. by apply prefix_app_r.
      * intros Hin. apply elem_of_Traverse in Hin as [_ Ho].
        by eapply unrelated_paths.
    + rewrite decide_False by (by intros [? _]).
      destruct (decide (q ∈ Traverse d o)) as [Hin|Hnin].
      * apply elem_of_Traverse in Hin as [_ Ho]. by rewrite decide_True.
      * case_decide as Ho; [|done].
        destruct (d !! q) eqn:Hs; [|done].
        exfalso. apply Hnin, elem_of_Traverse. by rewrite Hs.
  - intros x Hx. by apply elem_of_Traverse in Hx as [? ?].
Qed.

Lemma MoveSpec_reversible (d : gmap (list string) SpecData) o n :
  valid_edit d (EMoveSpec o n) → reversible d (EMoveSpec o n).
Proof.
  intros (Hnu&Hon&Hno). split; [|done].
  unfold op_post, capture, op_edit, op_copy, prim.
  assert (∀ q, _PrimMoveSpec o n d !! q
               = if decide (n `prefix_of` q) then d !! ReplacePrefix n o q
                 else if decide (o `prefix_of` q) then None else d !! q)
    as Hd' by (intros q; by apply lookup__PrimMoveSpec).
  apply map_eq. intros q. rewrite lookup__PrimMoveSpec; [|..|done|done].
  - rewrite !Hd'.
    destruct (decide (o `prefix_of` q)) as [Ho|Ho].
    + rewrite decide_True by apply ReplacePrefix_prefix.
      by rewrite ReplacePrefix_back.
    + destruct (decide (n `prefix_of` q)) as [Hn|Hn]; [|done].
      by rewrite Hnu.
  - intros x Hx. rewrite Hd'. rewrite decide_False.
    + by rewrite decide_True.
    + intros Hn. by eapply unrelated_paths.
Qed.

(** * Every valid edit is reversible *)

Lemma valid_edit_reversible (d : gmap (list string) SpecData) e :
  valid_edit d e → reversible d e.
Proof.
  destruct e; intros Hv.
  - apply SetField_reversible.
  - by apply SetFieldDictValueByKey_reversible.
  - by apply SetTimeSample_reversible.
  - by apply CreateSpec_reversible.
  - by apply DeleteSpec_reversible.
  - by apply MoveSpec_reversible.
  - by apply PushTokenChild_reversible.
  - by apply PushPathChild_reversible.
  - by apply PopTokenChild_reversible.
  - by apply PopPathChild_reversible.
Qed.

Lemma valid_batch_reversible (d : gmap (list string) SpecData) es :
  valid_batch d es → reversible_batch d es.
Proof.
  revert d. induction es as [|e es IH]; intros d; [done|].
  intros [He Hes]. split; [by apply valid_edit_reversible|by apply IH].
Qed.

(** ** C1 *)


(** * Examples *)

Lemma demo_layer_known_types p : known_types_under p demo_layer.
Proof.
  intros q s Hs _. unfold demo_layer in Hs.
  apply lookup_singleton_Some in Hs as [_ <-]. done.
Qed.



Example size_reads_5_then_9 :
  let w1 := edit_block [write_size_9] demo_world in
  let r1 := Invert [bind_InvertSetField ["World"] "size" (Some (VtInt 5))] w1 in
  let r2 := Invert r1.1 r1.2 in
  (λ d, GetField d ["World"] "size") <$> _layer (delegate w1)
    = Some (Some (VtInt 9)) ∧
  (λ d, GetField d ["World"] "size") <$> _layer (delegate r1.2)
    = Some (Some (VtInt 5)) ∧
  (λ d, GetField d ["World"] "size") <$> _layer (delegate r2.2)
    = Some (Some (VtInt 9)).
Proof. vm_compute. done. Qed.

(** A batch that creates a spec, writes a field of it and one of its
    parent, and deletes the spec again: undone, redone and undone. *)
Example mixed_batch_round_trip :
  let es := [ECreateSpec ["World"; "geo"] SdfSpecTypePrim false;
             ESetField ["World"; "geo"] "radius" (Some (VtInt 2));
             ESetField ["World"] "size" None;
             ESetFieldDictValueByKey ["World"] "customData" "k"
               (Some (VtString "v"));
             ESetField ["World"] "primChildren" (Some (VtTokenVector []));
             EPushTokenChild ["World"] "primChildren" "geo";
             EPopTokenChild ["World"] "primChildren" "geo";
             EDeleteSpec ["World"; "geo"] false] in
  let w1 := edit_block es demo_world in
  let r1 := Invert (captures demo_layer es) w1 in
  let r2 := Invert r1.1 r1.2 in
  let r3 := Invert r2.1 r2.2 in
  _layer (delegate r1.2) = Some demo_layer ∧
  _layer (delegate r2.2) = _layer (delegate w1) ∧
  _layer (delegate r3.2) = Some demo_layer ∧
  notices r3.2 = 1.
Proof. cbv zeta. split_and!; vm_compute; reflexivity. Qed.

Lemma Invert_LIFO_and_readopt_witness :
  Invert [bind_InvertSetField ["World"] "size" (Some (VtInt 7));
          bind_InvertSetField ["World"] "size" (Some (VtInt 8))]
    demo_world
  = (replay_captured
       [bind_InvertSetField ["World"] "size" (Some (VtInt 7));
        bind_InvertSetField ["World"] "size" (Some (VtInt 8))] demo_world,
     (Invert [bind_InvertSetField ["World"] "size" (Some (VtInt 7));
              bind_InvertSetField ["World"] "size" (Some (VtInt 8))]
        demo_world).2) ∧
  _inversion
    (router
       (Invert [bind_InvertSetField ["World"] "size" (Some (VtInt 7));
                bind_InvertSetField ["World"] "size" (Some (VtInt 8))]
          demo_world).2) = [].
Proof.
  destruct (proj2 (Invert_LIFO_and_readopt
                     [bind_InvertSetField ["World"] "size" (Some (VtInt 7));
                      bind_InvertSetField ["World"] "size" (Some (VtInt 8))]
                     demo_world) eq_refl eq_refl) as [H1 H2].
  split; [|exact H2].
  rewrite <- H1. apply surjective_pairing.
Defined.

Lemma DeleteSpec_snapshot_and_restore_witness :
  ∃ deletedData,
    let inverse :=
      bind_InvertDeleteSpec ["World"] false
        (GetSpecType demo_layer ["World"]) deletedData in
    let w1 := DeleteSpec ["World"] false demo_world_in_block in
    _inversion (router w1)
      = _inversion (router demo_world_in_block) ++ [inverse] ∧
    (∀ q s, ["World"] `prefix_of` q → demo_layer !! q = Some s →
            deletedData !! q = Some s) ∧
    _layer (delegate w1) = Some (_PrimDeleteSpec ["World"] false demo_layer) ∧
    (∀ q, ["World"] `prefix_of` q →
          _PrimDeleteSpec ["World"] false demo_layer !! q = None) ∧
    (call inverse w1).1 = true ∧
    ∃ d2, _layer (delegate (call inverse w1).2) = Some d2 ∧
          GetSpecType d2 ["World"] = GetSpecType demo_layer ["World"] ∧
          ∀ q fieldName, ["World"] `prefix_of` q →
                         GetField d2 q fieldName
                         = GetField demo_layer q fieldName.
Proof.
  apply (DeleteSpec_snapshot_and_restore demo_world_in_block demo_layer
           ["World"] false).
  - reflexivity.
  - reflexivity.
  - vm_compute. reflexivity.
  - apply demo_layer_known_types.
Defined.

Lemma UndoStackNotice_on_outermost_close_witness :
  notices (UsdQtUndoBlock_dtor
             (set_inversion [bind_InvertCreateSpec ["World"] false]
                demo_world_in_block)) = 1 ∧
  notices (UsdQtUndoBlock_dtor demo_world_in_block) = 0 ∧
  notices (nested_blocks 3 id demo_world) = 0 ∧
  notices (edit_block [write_size_9] demo_world) = 1.
Proof.
  destruct UndoStackNotice_on_outermost_close as (H1&H2&H3&H4).
  split; [|split; [|split]].
  - apply (H1 (set_inversion [bind_InvertCreateSpec ["World"] false]
                 demo_world_in_block)); [reflexivity|discriminate].
  - apply (H2 demo_world_in_block). right. reflexivity.
  - apply (H3 3 demo_world). reflexivity.
  - apply (H4 demo_world demo_layer ["World"] "size" (Some (VtInt 9)));
      reflexivity.
Defined.

(** C5: the counter is negative after one unmatched [_Unmute]. *)
Lemma muteDepth_negative_after_Unmute :
  (_muteDepth (router (mute_calls [CallUnmute] (initial (mkHost true []))))
   < 0)%Z.
Proof. vm_compute. reflexivity. Qed.

Lemma muteDepth_reported_not_clamped_witness :
  _muteDepth (router (mute_calls [CallUnmute] (initial (mkHost true []))))
    = (-1)%Z ∧
  CodingError mute_depth_msg
    ∈ diagnostics (mute_calls [CallUnmute] (initial (mkHost true []))) ∧
  diagnostics (_Unmute (initial (mkHost true [])))
    = [CodingError mute_depth_msg].
Proof.
  destruct (muteDepth_reported_not_clamped [CallUnmute]
              (initial (mkHost true []))) as (H1&H2&H3).
  split; [|split].
  - exact H1.
  - apply H2; [vm_compute; discriminate|vm_compute; reflexivity].
  - apply H3. vm_compute. reflexivity.
Defined.

Lemma replay_continues_after_failure_witness :
  let pre := [bind_InvertSetField ["World"] "size" (Some (VtInt 5))] in
  let inverse := bind_InvertCreateSpec ["World"; "geo"] false in
  let post := [bind_InvertMoveSpec ["a"] ["b"]] in
  let w := initial (mkHost true []) in
  (call inverse (_Invert post w)).1 = false ∧
  CodingError (expired_msg inverse)
    ∈ diagnostics (_Invert (pre ++ inverse :: post) w).
Proof.
  cbv zeta. split; [vm_compute; reflexivity|].
  apply (replay_continues_after_failure
           [bind_InvertSetField ["World"] "size" (Some (VtInt 5))]
           [bind_InvertMoveSpec ["a"] ["b"]]
           (bind_InvertCreateSpec ["World"; "geo"] false)
           (initial (mkHost true []))).
  vm_compute. reflexivity.
Defined.

(** C7: the closure captured for a creation does not tell the spec type of
    the call. *)
Lemma CreateSpec_inverse_drops_specType :
  ¬ ∃ specType_of : Op → SdfSpecType,
      ∀ ty, ∃ inverse,
        last (_inversion
                (router (CreateSpec ["World"; "geo"] ty false
                           demo_world_in_block))) = Some inverse ∧
        specType_of inverse = ty.
Proof.
  intros [specType_of H].
  destruct (H SdfSpecTypePrim) as (op1 & Hop1 & Hty1).
  destruct (H SdfSpecTypeAttribute) as (op2 & Hop2 & Hty2).
  vm_compute in Hop1, Hop2. congruence.
Qed.

Lemma CreateSpec_inverse_deletes_witness :
  let inverse := bind_InvertCreateSpec ["World"; "geo"] false in
  let w1 := CreateSpec ["World"; "geo"] SdfSpecTypePrim false
              demo_world_in_block in
  _inversion (router w1)
    = _inversion (router demo_world_in_block) ++ [inverse] ∧
  _layer (delegate w1)
    = Some (_PrimCreateSpec ["World"; "geo"] SdfSpecTypePrim false demo_layer) ∧
  (call inverse w1).1 = true ∧
  ∃ d2, _layer (delegate (call inverse w1).2) = Some d2 ∧
        d2 !! ["World"; "geo"] = None ∧
        GetSpecType d2 ["World"; "geo"] = SdfSpecTypeUnknown.
Proof.
  apply (CreateSpec_inverse_deletes demo_world_in_block demo_layer
           ["World"; "geo"] SdfSpecTypePrim false).
  - reflexivity.
  - reflexivity.
  - vm_compute. reflexivity.
Defined.

Lemma UndoBlock_ctor_fragmented_witness :
  let stale := set_inversion [bind_InvertCreateSpec ["World"] false]
                 demo_world in
  (diagnostics (UsdQtUndoBlock_ctor stale)
     = diagnostics stale ++ [CodingError fragmented_msg] ∧
   _inversion (router (UsdQtUndoBlock_ctor stale)) = _inversion (router stale) ∧
   _depth (router (UsdQtUndoBlock_ctor stale)) = 1%Z) ∧
  (diagnostics (UsdQtUndoBlock_ctor demo_world_in_block)
     = diagnostics demo_world_in_block ∧
   _inversion (router (UsdQtUndoBlock_ctor demo_world_in_block))
     = _inversion (router demo_world_in_block) ∧
   _depth (router (UsdQtUndoBlock_ctor demo_world_in_block))
     = (_depth (router demo_world_in_block) + 1)%Z).
Proof.
  cbv zeta. split.
  - apply (proj1 (UndoBlock_ctor_fragmented
                    (set_inversion [bind_InvertCreateSpec ["World"] false]
                       demo_world))); [reflexivity|discriminate].
  - apply (proj2 (UndoBlock_ctor_fragmented demo_world_in_block)).
    vm_compute. reflexivity.
Defined.

Lemma Invert_sends_no_notice_witness :
  let self := [bind_InvertSetField ["World"] "size" (Some (VtInt 7))] in
  notices (Invert self demo_world).2 = notices demo_world ∧
  host (Invert self demo_world).2 = host demo_world ∧
  _inversion (router (Invert self demo_world).2) = [].
Proof.
  apply (Invert_sends_no_notice
           [bind_InvertSetField ["World"] "size" (Some (VtInt 7))] demo_world).
  reflexivity.
Defined.

(** * Further properties of the engine *)

Lemma _AddInverse_rest (inverse : Op) (w : World) :
  _depth (router w) = 0%Z → _inversion (router w) = [] →
  _AddInverse inverse w =
    mkWorld (mkRouter 0 [] (_muteDepth (router w))) (delegate w)
      (diagnostics w ++
         if listening (host w) then [] else [CodingError not_adopted_msg])
      (debugLog w ++ [DbgOpeningBlock 0; DbgNoticeSent; DbgClosedBlock 0])
      (S (notices w))
      (if listening (host w)
       then mkHost true ([inverse] :: undoStack (host w))
       else host w).
Proof.
  intros Hd Hi. unfold _AddInverse. rewrite ctor_eq.
  rewrite dtor_outer_pending; cbn; [|lia|by destruct (_inversion _)].
  unfold ctor_diagnostics, _GetSize. rewrite Hd, Hi. cbn.
  by rewrite !app_nil_r, <- app_assoc.
Qed.

Lemma edit_rest (e : Edit) (w : World) (d : gmap (list string) SpecData) :
  _depth (router w) = 0%Z → _inversion (router w) = [] →
  IsMuted w = false → _layer (delegate w) = Some d →
  edit e w =
    mkWorld (mkRouter 0 [] (_muteDepth (router w)))
      (mkDelegate (Some (prim e d)) true)
      (diagnostics w ++
         if listening (host w) then [] else [CodingError not_adopted_msg])
      (debugLog w ++ [hook_msg e; DbgOpeningBlock 0; DbgNoticeSent;
                      DbgClosedBlock 0])
      (S (notices w))
      (if listening (host w)
       then mkHost true ([capture d e] :: undoStack (host w))
       else host w).
Proof.
  intros Hd Hi Hm Hl. rewrite edit_hook, Hl. unfold hook, _RouteInverse.
  replace (IsMuted (_MarkCurrentStateAsDirty (TF_DEBUG (hook_msg e) w)))
    with (IsMuted w) by done.
  rewrite Hm. cbn [negb]. rewrite _AddInverse_rest by done.
  cbn. by rewrite <- app_assoc.
Qed.

(** ** Edits outside a block *)

(** X1. On a router at rest every edit made outside a block is notified on
    its own: [n] edits send [n] notices and a listening host ends up with
    [n] inverses of one closure each, the latest on top, while the router
    is at rest again after each of them. *)
Theorem bare_edits_notified_one_by_one (es : list Edit) (w : World)
    (d : gmap (list string) SpecData) :
  _depth (router w) = 0%Z → _inversion (router w) = [] →
  IsMuted w = false → _layer (delegate w) = Some d →
  listening (host w) = true →
  let w' := foldl (λ w e, edit e w) w es in
  notices w' = notices w + length es ∧
  undoStack (host w')
    = rev ((λ inverse, [inverse]) <$> captures d es) ++ undoStack (host w) ∧
  _layer (delegate w') = Some (prims es d) ∧
  _depth (router w') = 0%Z ∧ _inversion (router w') = [] ∧
  diagnostics w' = diagnostics w.
Proof.
  revert w d. induction es as [|e es IH]; intros w d Hd Hi Hm Hl Hls; cbv zeta.
  - cbn. split_and!; first [done|lia].
  - cbn [foldl captures prims fmap list_fmap rev length].
    change (foldl _ (prim e d) es) with (prims es (prim e d)).
    destruct (IH (edit e w) (prim e d)) as (Hn&Hs&Hl'&Hd'&Hi'&Hg);
      [rewrite (edit_rest _ _ d) by done; unfold IsMuted in *; cbn;
         by rewrite ?Hls..|].
    cbv zeta in Hn, Hs, Hl', Hd', Hi', Hg.
    rewrite Hn, Hs, Hl', Hd', Hi', Hg.
    rewrite (edit_rest _ _ d) by done. cbn. rewrite Hls. cbn.
    rewrite app_nil_r, <- app_assoc. split_and!; first [done|lia].
Qed.

(** ** Nested blocks *)

Lemma Stmt_nested_ind (P : Stmt → Prop) :
  (∀ e, P (SEdit e)) →
  (∀ body, Forall P body → P (SBlock body)) →
  ∀ s, P s.
Proof.
  intros Hedit Hblock.
  fix IH 1. intros [e|body]; [apply Hedit|].
  apply Hblock. induction body as [|s body IHbody]; constructor.
  - apply IH.
  - apply IHbody.
Qed.

Lemma captures_app (d : gmap (list string) SpecData) (es1 es2 : list Edit) :
  captures d (es1 ++ es2) = captures d es1 ++ captures (prims es1 d) es2.
Proof.
  revert d. induction es1 as [|e es1 IH]; intros d; [done|].
  cbn. by rewrite IH.
Qed.

Lemma prims_app (d : gmap (list string) SpecData) (es1 es2 : list Edit) :
  prims (es1 ++ es2) d = prims es2 (prims es1 d).
Proof. apply foldl_app. Qed.

Lemma routed_only_trans (es1 es2 : list Edit)
    (d : gmap (list string) SpecData) (w w1 w2 : World) :
  routed_only es1 d w w1 → routed_only es2 (prims es1 d) w1 w2 →
  routed_only (es1 ++ es2) d w w2.
Proof.
  intros (Hi&Hl&Hd&Hm&Hn&Hh&Hg) (Hi'&Hl'&Hd'&Hm'&Hn'&Hh'&Hg').
  unfold routed_only.
  rewrite Hi', Hl', Hd', Hm', Hn', Hh', Hg', Hi, captures_app, prims_app.
  by rewrite <- app_assoc.
Qed.

Lemma routed_only_open (es : list Edit) (d : gmap (list string) SpecData)
    (w w' : World) :
  routed_only es d w w' → IsMuted w = false → (0 < _depth (router w))%Z →
  _layer (delegate w') = Some (prims es d) ∧ IsMuted w' = false ∧
  (0 < _depth (router w'))%Z.
Proof.
  intros (Hi&Hl&Hd&Hm&Hn&Hh&Hg) Hmu Hdp. unfold IsMuted in *.
  rewrite Hm, Hd. done.
Qed.

Lemma runs_routed (body : list Stmt) :
  Forall (λ s, ∀ (w : World) (d : gmap (list string) SpecData),
            _layer (delegate w) = Some d → IsMuted w = false →
            (0 < _depth (router w))%Z →
            routed_only (edits_of s) d w (run s w)) body →
  ∀ (w : World) (d : gmap (list string) SpecData),
    _layer (delegate w) = Some d → IsMuted w = false →
    (0 < _depth (router w))%Z →
    routed_only (concat (map edits_of body)) d w
      (foldl (λ w s, run s w) w body).
Proof.
  induction 1 as [|s body Hs _ IH]; intros w d Hl Hm Hd.
  - unfold routed_only. cbn. by rewrite app_nil_r.
  - cbn [foldl map concat].
    pose proof (Hs w d Hl Hm Hd) as H1.
    destruct (routed_only_open _ _ _ _ H1 Hm Hd) as (Hl1&Hm1&Hd1).
    eapply routed_only_trans; [done|]. by apply IH.
Qed.

Lemma run_open (s : Stmt) :
  ∀ (w : World) (d : gmap (list string) SpecData),
    _layer (delegate w) = Some d → IsMuted w = false →
    (0 < _depth (router w))%Z →
    routed_only (edits_of s) d w (run s w).
Proof.
  induction s as [e|body IH] using Stmt_nested_ind; intros w d Hl Hm Hd.
  - cbn [run edits_of]. rewrite (edit_open _ _ d) by done.
    unfold routed_only. cbn. done.
  - cbn [run edits_of].
    set (w1 := UsdQtUndoBlock_ctor w).
    assert (_inversion (router w1) = _inversion (router w) ∧
            _layer (delegate w1) = Some d ∧
            _depth (router w1) = (_depth (router w) + 1)%Z ∧
            _muteDepth (router w1) = _muteDepth (router w) ∧
            notices w1 = notices w ∧ host w1 = host w ∧
            diagnostics w1 = diagnostics w)
      as (Hi1&Hl1&Hd1&Hm1&Hn1&Hh1&Hg1).
    { unfold w1. rewrite ctor_eq. cbn. unfold ctor_diagnostics.
      assert ((0 <=? _depth (router w))%Z = true) as -> by lia.
      assert ((_depth (router w) =? 0)%Z = false) as -> by lia.
      cbn. by rewrite !app_nil_r. }
    destruct (runs_routed body IH w1 d) as (Hi2&Hl2&Hd2&Hm2&Hn2&Hh2&Hg2);
      [done|unfold IsMuted in *; by rewrite Hm1|lia|].
    rewrite dtor_inner by lia. unfold routed_only. cbn.
    assert ((0 <=? _depth (router (foldl (λ w s, run s w) w1 body)) - 1)%Z
            = true) as -> by lia.
    rewrite app_nil_r, Hi2, Hl2, Hd2, Hm2, Hn2, Hh2, Hg2.
    rewrite Hi1, Hd1, Hm1, Hn1, Hh1, Hg1.
    split_and!; first [done|lia].
Qed.

Lemma runs_open (body : list Stmt) (w : World)
    (d : gmap (list string) SpecData) :
  _layer (delegate w) = Some d → IsMuted w = false →
  (0 < _depth (router w))%Z →
  routed_only (concat (map edits_of body)) d w
    (foldl (λ w s, run s w) w body).
Proof.
  apply runs_routed, Forall_forall. intros s _. apply run_open.
Qed.

Lemma block_at_rest (body : list Stmt) (w : World)
    (d : gmap (list string) SpecData) :
  _depth (router w) = 0%Z → _inversion (router w) = [] →
  IsMuted w = false → _layer (delegate w) = Some d →
  ∀ es, es = edits_of (SBlock body) →
  let w' := run (SBlock body) w in
  _depth (router w') = 0%Z ∧ _inversion (router w') = [] ∧
  _muteDepth (router w') = _muteDepth (router w) ∧
  _layer (delegate w') = Some (prims es d) ∧
  notices w' = match es with [] => notices w | _ => S (notices w) end ∧
  host w' = match es with
            | [] => host w
            | _ => if listening (host w)
                   then mkHost true (captures d es :: undoStack (host w))
                   else host w
            end ∧
  diagnostics w' = diagnostics w ++
                   match es with
                   | [] => []
                   | _ => if listening (host w) then []
                          else [CodingError not_adopted_msg]
                   end.
Proof.
  intros Hd Hi Hm Hl es Hes. cbv zeta.
  (* the body runs inside the block *)
  set (w1 := UsdQtUndoBlock_ctor w).
  assert (_depth (router w1) = 1%Z ∧ _inversion (router w1) = [] ∧
          _layer (delegate w1) = Some d ∧ IsMuted w1 = false ∧
          _muteDepth (router w1) = _muteDepth (router w) ∧
          host w1 = host w ∧ notices w1 = notices w ∧
          diagnostics w1 = diagnostics w)
    as (Hd1&Hi1&Hl1&Hm1&Hmd1&Hh1&Hn1&Hg1).
  { unfold w1. rewrite ctor_eq. unfold IsMuted, ctor_diagnostics, _GetSize in *.
    cbn. rewrite Hd, Hi. cbn. rewrite app_nil_r. split_and!; first [done|lia]. }
  set (w2 := foldl (λ w s, run s w) w1 body).
  assert (routed_only es d w1 w2) as (Hi2&Hl2&Hd2&Hm2&Hn2&Hh2&Hg2).
  { rewrite Hes. apply runs_open; [done..|lia]. }
  change (run (SBlock body) w) with (UsdQtUndoBlock_dtor w2).
  rewrite Hi1 in Hi2. cbn [app] in Hi2.
  assert (_depth (router w2) = 1%Z) as Hd2' by lia.
  clearbody w2 w1. clear Hes.
  destruct es as [|e es'].
  - cbn in Hi2. rewrite dtor_outer_empty by done. cbn.
    rewrite app_nil_r, Hl2, Hn2, Hn1, Hh2, Hh1, Hg2, Hg1, Hm2, Hmd1.
    split_and!; done.
  - rewrite dtor_outer_pending; [|done|by rewrite Hi2].
    cbn. rewrite Hh2, Hh1, Hi2, Hl2, Hn2, Hn1, Hg2, Hg1, Hm2, Hmd1.
    split_and!; try done.
Qed.

(** X2. However the blocks inside it nest, a block opened on a router at
    rest hands the listening host one inverse when it closes: the closures
    of all the edits made in it, in the order they were made, with one
    notice; a block without any edit sends no notice and hands over
    nothing.  The router is at rest afterwards and nothing is reported. *)
Theorem nested_blocks_hand_over_one_inverse (body : list Stmt) (w : World)
    (d : gmap (list string) SpecData) :
  _depth (router w) = 0%Z → _inversion (router w) = [] →
  IsMuted w = false → _layer (delegate w) = Some d →
  listening (host w) = true →
  let es := edits_of (SBlock body) in
  let w' := run (SBlock body) w in
  (es ≠ [] →
     notices w' = S (notices w) ∧
     undoStack (host w') = captures d es :: undoStack (host w)) ∧
  (es = [] → notices w' = notices w ∧ host w' = host w) ∧
  _layer (delegate w') = Some (prims es d) ∧
  _depth (router w') = 0%Z ∧ _inversion (router w') = [] ∧
  diagnostics w' = diagnostics w.
Proof.
  intros Hd Hi Hm Hl Hls. cbv zeta.
  destruct (block_at_rest body w d Hd Hi Hm Hl _ eq_refl)
    as (Hd'&Hi'&_&Hl'&Hn'&Hh'&Hg').
  rewrite Hls in Hh', Hg'.
  destruct (edits_of (SBlock body)) as [|e es'].
  - rewrite app_nil_r in Hg'. done.
  - rewrite app_nil_r in Hg'. rewrite Hh'. done.
Qed.

(** ** Closing a block nobody listens to *)

(** X3. When the host does not listen to the notice, the outermost close
    of a block with edits still sends the notice, reports that the edits
    were not adopted, and throws the closures away: the layer keeps the
    edits, the stack of the host is untouched, and nothing is left pending
    for the next block. *)
Theorem unadopted_edits_are_dropped (body : list Stmt) (w : World)
    (d : gmap (list string) SpecData) :
  _depth (router w) = 0%Z → _inversion (router w) = [] →
  IsMuted w = false → _layer (delegate w) = Some d →
  listening (host w) = false →
  edits_of (SBlock body) ≠ [] →
  let w' := run (SBlock body) w in
  diagnostics w' = diagnostics w ++ [CodingError not_adopted_msg] ∧
  notices w' = S (notices w) ∧
  host w' = host w ∧
  _inversion (router w') = [] ∧ _depth (router w') = 0%Z ∧
  _layer (delegate w') = Some (prims (edits_of (SBlock body)) d).
Proof.
  intros Hd Hi Hm Hl Hls Hes. cbv zeta.
  destruct (block_at_rest body w d Hd Hi Hm Hl _ eq_refl)
    as (Hd'&Hi'&_&Hl'&Hn'&Hh'&Hg').
  rewrite Hls in Hh', Hg'.
  destruct (edits_of (SBlock body)) as [|e es']; done.
Qed.

(** ** A muted router *)

Lemma edits_muted (es : list Edit) (w : World)
    (d : gmap (list string) SpecData) :
  _layer (delegate w) = Some d → IsMuted w = true →
  let w' := foldl (λ w e, edit e w) w es in
  router w' = router w ∧
  _layer (delegate w') = Some (prims es d) ∧
  diagnostics w' = diagnostics w ++ replicate (length es) (Warning muted_msg) ∧
  notices w' = notices w ∧ host w' = host w.
Proof.
  cbv zeta. revert w d. induction es as [|e es IH]; intros w d Hl Hm.
  - cbn. by rewrite app_nil_r.
  - cbn [foldl length replicate].
    destruct (IH (edit e w) (prim e d)) as (Hr&Hl'&Hg&Hn&Hh).
    + by rewrite (edit_muted _ _ d).
    + rewrite (edit_muted _ _ d) by done. done.
    + rewrite Hr, Hl', Hg, Hn, Hh. rewrite (edit_muted _ _ d) by done.
      cbn. by rewrite <- app_assoc.
Qed.

Lemma replay_muted (ops : list Op) (w : World)
    (d : gmap (list string) SpecData) :
  _layer (delegate w) = Some d → IsMuted w = true →
  router (replay ops w) = router w ∧
  _layer (delegate (replay ops w)) = Some (op_posts ops d) ∧
  diagnostics (replay ops w)
    = diagnostics w ++ replicate (length ops) (Warning muted_msg) ∧
  notices (replay ops w) = notices w ∧ host (replay ops w) = host w.
Proof.
  revert w d. induction ops as [|op ops IH]; intros w d Hl Hm.
  - cbn. by rewrite app_nil_r.
  - change (replay (op :: ops) w) with (replay ops (call op w).2).
    cbn [length replicate].
    destruct (IH (call op w).2 (op_post op d)) as (Hr&Hl'&Hg&Hn&Hh).
    + by rewrite (call_muted _ _ d).
    + rewrite (call_muted _ _ d) by done. done.
    + rewrite Hr, Hl', Hg, Hn, Hh. rewrite (call_muted _ _ d) by done.
      cbn. by rewrite <- app_assoc.
Qed.

Lemma replay_expired (ops : list Op) (w : World) :
  _layer (delegate w) = None →
  router (replay ops w) = router w ∧
  delegate (replay ops w) = delegate w ∧
  diagnostics (replay ops w)
    = diagnostics w ++ ((λ op, CodingError (expired_msg op)) <$> ops) ∧
  notices (replay ops w) = notices w ∧ host (replay ops w) = host w.
Proof.
  revert w. induction ops as [|op ops IH]; intros w Hl.
  - cbn. by rewrite app_nil_r.
  - change (replay (op :: ops) w) with (replay ops (call op w).2).
    destruct (IH (call op w).2) as (Hr&Hl'&Hg&Hn&Hh).
    + by rewrite call_expired.
    + rewrite Hr, Hl', Hg, Hn, Hh. rewrite call_expired by done.
      cbn. by rewrite <- app_assoc.
Qed.

Lemma replay_live_open (ops : list Op) (w : World)
    (d : gmap (list string) SpecData) :
  _layer (delegate w) = Some d → IsMuted w = false →
  (0 < _depth (router w))%Z →
  _inversion (router (replay ops w))
    = _inversion (router w) ++ op_recaptures ops d ∧
  _depth (router (replay ops w)) = _depth (router w) ∧
  _muteDepth (router (replay ops w)) = _muteDepth (router w) ∧
  _layer (delegate (replay ops w)) = Some (op_posts ops d) ∧
  diagnostics (replay ops w) = diagnostics w ∧
  notices (replay ops w) = notices w ∧ host (replay ops w) = host w.
Proof.
  revert w d. induction ops as [|op ops IH]; intros w d Hl Hm Hd.
  - cbn. by rewrite app_nil_r.
  - change (replay (op :: ops) w) with (replay ops (call op w).2).
    destruct (IH (call op w).2 (op_post op d)) as (Hi&Hd'&Hm'&Hl'&Hg&Hn&Hh).
    + by rewrite (call_open _ _ d).
    + rewrite (call_open _ _ d) by done. done.
    + by rewrite (call_open _ _ d).
    + rewrite Hi, Hd', Hm', Hl', Hg, Hn, Hh.
      rewrite (call_open _ _ d) by done. cbn. by rewrite <- app_assoc.
Qed.

(** X4. Edits made between [_Mute] and [_Unmute] change the layer and are
    not recorded: each one is answered by the warning of [_RouteInverse],
    no closure is routed, no block is opened, no notice is sent, and the
    router is afterwards exactly as it was before [_Mute]. *)
Theorem muted_edits_are_not_recorded (es : list Edit) (w : World)
    (d : gmap (list string) SpecData) :
  (0 ≤ _muteDepth (router w))%Z → _layer (delegate w) = Some d →
  let w' := _Unmute (foldl (λ w e, edit e w) (_Mute w) es) in
  router w' = router w ∧
  _layer (delegate w') = Some (prims es d) ∧
  diagnostics w' = diagnostics w ++ replicate (length es) (Warning muted_msg) ∧
  notices w' = notices w ∧ host w' = host w.
Proof.
  intros Hm Hl. cbv zeta.
  destruct (edits_muted es (_Mute w) d) as (Hr&Hl'&Hg&Hn&Hh).
  - done.
  - unfold IsMuted, _Mute. cbn. lia.
  - rewrite _Unmute_eq. cbn. rewrite Hr, Hl', Hg, Hn, Hh.
    unfold _Mute. cbn.
    assert ((_muteDepth (router w) + 1 - 1 <? 0)%Z = false) as -> by lia.
    rewrite app_nil_r. split_and!; try done.
    destruct w as [[dp inv md] dl dg db n h]. cbn. f_equal. lia.
Qed.

(** X5. [Invert] called while the router is muted runs the closures and
    loses the way back: the closures the replay would route are refused
    with one warning each, so the inverse comes back empty and a second
    [Invert] on it does nothing to the layer. *)
Theorem Invert_while_muted_loses_redo (self : list Op) (w : World)
    (d : gmap (list string) SpecData) :
  _depth (router w) = 0%Z → _inversion (router w) = [] →
  IsMuted w = true → _layer (delegate w) = Some d →
  let r := Invert self w in
  r.1 = [] ∧
  _layer (delegate r.2) = Some (op_posts (rev self) d) ∧
  diagnostics r.2
    = diagnostics w ++ replicate (length self) (Warning muted_msg) ∧
  router r.2 = router w ∧
  _layer (delegate (Invert r.1 r.2).2) = Some (op_posts (rev self) d).
Proof.
  intros Hd Hi Hm Hl.
  assert (∀ self' w', _depth (router w') = 0%Z → _inversion (router w') = [] →
            IsMuted w' = true →
            ∀ d', _layer (delegate w') = Some d' →
            (Invert self' w').1 = [] ∧
            _layer (delegate (Invert self' w').2)
              = Some (op_posts (rev self') d') ∧
            diagnostics (Invert self' w').2
              = diagnostics w' ++
                  replicate (length self') (Warning muted_msg) ∧
            router (Invert self' w').2 = router w') as Hgen.
  { clear. intros self w Hd Hi Hm d Hl.
    rewrite Invert_eq. cbv zeta. rewrite Hd. cbn [Z.eqb negb].
    set (w1 := UsdQtUndoBlock_ctor w).
    assert (router w1 = mkRouter 1 [] (_muteDepth (router w)) ∧
            _layer (delegate w1) = Some d ∧ IsMuted w1 = true ∧
            host w1 = host w ∧ notices w1 = notices w ∧
            diagnostics w1 = diagnostics w) as (Hr1&Hl1&Hm1&Hh1&Hn1&Hg1).
    { unfold w1. rewrite ctor_eq.
      unfold IsMuted, ctor_diagnostics, _GetSize in *.
      cbn. rewrite Hd, Hi. cbn. rewrite app_nil_r. done. }
    destruct (replay_muted (rev self) w1 d) as (Hr&Hl2&Hg&Hn&Hh); [done..|].
    cbn [fst snd]. rewrite Hr, Hr1. cbn [_inversion].
    rewrite dtor_outer_empty; cbn; [|first [done|by rewrite Hr, Hr1]..].
    rewrite Hr, Hr1, Hl2, Hg, Hg1, length_rev. cbn.
    split_and!; try done.
    revert Hd Hi. clear.
    destruct w as [[dp inv md] dl dg db n h]. cbn. by intros -> ->. }
  cbv zeta.
  destruct (Hgen self w Hd Hi Hm d Hl) as (H1&H2&H3&H4).
  split_and!; try done.
  rewrite H1.
  destruct (Hgen [] (Invert self w).2) with (d' := op_posts (rev self) d)
    as (_&H5&_); try done.
  - by rewrite H4.
  - by rewrite H4.
  - unfold IsMuted in *. by rewrite H4.
Qed.

(** X6. [Invert] on an inverse whose layer has expired changes nothing and
    reports every closure: one coding error per closure, in the order the
    closures are called (last recorded first), and the inverse comes back
    empty. *)
Theorem Invert_on_expired_layer (self : list Op) (w : World) :
  _depth (router w) = 0%Z → _inversion (router w) = [] →
  _layer (delegate w) = None →
  let r := Invert self w in
  r.1 = [] ∧
  diagnostics r.2
    = diagnostics w ++ ((λ op, CodingError (expired_msg op)) <$> rev self) ∧
  router r.2 = router w ∧ delegate r.2 = delegate w ∧
  notices r.2 = notices w ∧ host r.2 = host w.
Proof.
  intros Hd Hi Hl. cbv zeta.
  rewrite Invert_eq. cbv zeta. rewrite Hd. cbn [Z.eqb negb].
  set (w1 := UsdQtUndoBlock_ctor w).
  assert (router w1 = mkRouter 1 [] (_muteDepth (router w)) ∧
          delegate w1 = delegate w ∧
          host w1 = host w ∧ notices w1 = notices w ∧
          diagnostics w1 = diagnostics w) as (Hr1&Hl1&Hh1&Hn1&Hg1).
  { unfold w1. rewrite ctor_eq. unfold ctor_diagnostics, _GetSize in *.
    cbn. rewrite Hd, Hi. cbn. rewrite app_nil_r. done. }
  destruct (replay_expired (rev self) w1) as (Hr&Hl2&Hg&Hn&Hh).
  { by rewrite Hl1. }
  cbn [fst snd]. rewrite Hr, Hr1. cbn [_inversion].
  rewrite dtor_outer_empty; cbn; [|first [done|by rewrite Hr, Hr1]..].
  rewrite Hr, Hr1, Hl2, Hl1, Hg, Hg1, Hn, Hn1, Hh, Hh1. cbn.
  split_and!; try done.
  revert Hd Hi. clear.
  destruct w as [[dp inv md] dl dg db n h]. cbn. by intros -> ->.
Qed.

(** X7. [Invert] called while a block is open reports the coding error of
    undoInverse.cpp and goes on: it runs the closures, and what it adopts
    is everything the router holds, the closures the open block had routed
    so far followed by those of the replay.  The open block is left with
    nothing pending, at the same depth, and no notice is sent. *)
Theorem Invert_inside_open_block (self : list Op) (w : World)
    (d : gmap (list string) SpecData) :
  (0 < _depth (router w))%Z →
  IsMuted w = false → _layer (delegate w) = Some d →
  let r := Invert self w in
  r.1 = _inversion (router w) ++ op_recaptures (rev self) d ∧
  diagnostics r.2 = diagnostics w ++ [CodingError open_block_msg] ∧
  _inversion (router r.2) = [] ∧
  _depth (router r.2) = _depth (router w) ∧
  _layer (delegate r.2) = Some (op_posts (rev self) d) ∧
  notices r.2 = notices w ∧ host r.2 = host w.
Proof.
  intros Hd Hm Hl. cbv zeta.
  rewrite Invert_eq. cbv zeta.
  assert ((_depth (router w) =? 0)%Z = false) as -> by lia. cbn [negb].
  set (w1 := UsdQtUndoBlock_ctor (TF_CODING_ERROR open_block_msg w)).
  assert (_depth (router w1) = (_depth (router w) + 1)%Z ∧
          _inversion (router w1) = _inversion (router w) ∧
          _muteDepth (router w1) = _muteDepth (router w) ∧
          _layer (delegate w1) = Some d ∧
          host w1 = host w ∧ notices w1 = notices w ∧
          diagnostics w1 = diagnostics w ++ [CodingError open_block_msg])
    as (Hd1&Hi1&Hm1&Hl1&Hh1&Hn1&Hg1).
  { unfold w1. rewrite ctor_eq. unfold ctor_diagnostics, _GetSize in *.
    cbn.
    assert ((0 <=? _depth (router w))%Z = true) as -> by lia.
    assert ((_depth (router w) =? 0)%Z = false) as -> by lia.
    cbn. rewrite app_nil_r. done. }
  destruct (replay_live_open (rev self) w1 d)
    as (Hi2&Hd2&Hm2&Hl2&Hg2&Hn2&Hh2);
    [done|unfold IsMuted in *; by rewrite Hm1|lia|].
  cbn [fst snd]. rewrite Hi2, Hi1.
  rewrite dtor_inner by (cbn; lia). cbn.
  rewrite Hd2, Hd1, Hl2, Hg2, Hg1, Hn2, Hn1, Hh2, Hh1.
  assert ((0 <=? _depth (router w) + 1 - 1)%Z = true) as -> by lia.
  rewrite app_nil_r. split_and!; first [done|lia].
Qed.

(** ** The block of the Python bindings *)

Lemma ctor_depth_verified (w : World) :
  (0 ≤ _depth (router w))%Z →
  _depth (router (UsdQtUndoBlock_ctor w)) = (_depth (router w) + 1)%Z ∧
  (FailedVerify depth_verify_expr ∈ diagnostics (UsdQtUndoBlock_ctor w) →
   FailedVerify depth_verify_expr ∈ diagnostics w).
Proof.
  intros Hd. rewrite ctor_eq. cbn. split; [done|].
  unfold ctor_diagnostics.
  assert ((0 <=? _depth (router w))%Z = true) as -> by lia.
  cbn [app]. destruct (_ && _); [|by rewrite app_nil_r].
  rewrite elem_of_app, list_elem_of_singleton. by intros [?|?].
Qed.

Lemma dtor_depth_verified (w : World) :
  (1 ≤ _depth (router w))%Z →
  _depth (router (UsdQtUndoBlock_dtor w)) = (_depth (router w) - 1)%Z ∧
  (FailedVerify depth_verify_expr ∈ diagnostics (UsdQtUndoBlock_dtor w) →
   FailedVerify depth_verify_expr ∈ diagnostics w).
Proof.
  intros Hd.
  destruct (decide (_depth (router w) = 1%Z)) as [Hz|Hnz].
  - destruct (_inversion (router w)) as [|op inv] eqn:Hi.
    + rewrite dtor_outer_empty by done. cbn. split; [lia|done].
    + rewrite dtor_outer_pending by (by rewrite ?Hi). cbn. split; [lia|].
      destruct (listening (host w)); [by rewrite app_nil_r|].
      rewrite elem_of_app, list_elem_of_singleton. by intros [?|?].
  - rewrite dtor_inner by done. cbn. split; [done|].
    assert ((0 <=? _depth (router w) - 1)%Z = true) as -> by lia.
    by rewrite app_nil_r.
Qed.

(** X8. Whatever sequence of [__enter__] and [__exit__] a script calls on
    one Python block, the depth of the router is where it started plus one
    exactly while the wrapper holds a block: an [__exit__] without an
    [__enter__] and an [__enter__] on an open wrapper are refused (with a
    failed verify of the wrapper) before they reach the router, so the
    depth never drops below its start and the depth check of the router
    never fails.  Destroying the wrapper closes the block it still holds
    and brings the depth back to where it started. *)
Theorem python_block_keeps_depth (cs : list PythonCall) (w : World) :
  (0 ≤ _depth (router w))%Z →
  let r := python_calls cs (UsdQt_PythonUndoBlock.ctor, w) in
  _depth (router r.2) = (_depth (router w) + if r.1 then 1 else 0)%Z ∧
  (FailedVerify depth_verify_expr ∈ diagnostics r.2 →
   FailedVerify depth_verify_expr ∈ diagnostics w) ∧
  _depth (router (UsdQt_PythonUndoBlock.dtor r.1 r.2)) = _depth (router w).
Proof.
  intros Hd. cbv zeta. unfold UsdQt_PythonUndoBlock.ctor.
  assert (_depth (router (python_calls cs (false, w)).2)
            = (_depth (router w) +
                 if (python_calls cs (false, w)).1 then 1 else 0)%Z ∧
          (FailedVerify depth_verify_expr
             ∈ diagnostics (python_calls cs (false, w)).2 →
           FailedVerify depth_verify_expr ∈ diagnostics w)) as [Hdepth Hdiag].
  { induction cs as [|c cs IH] using rev_ind.
    - cbn. split; [lia|done].
    - unfold python_calls in *. rewrite foldl_app. cbn [foldl].
      destruct (foldl _ _ cs) as [b w1]. cbn [fst snd] in IH.
      destruct IH as [IHd IHg].
      destruct c, b; cbn [python_call fst snd];
        unfold UsdQt_PythonUndoBlock.Open, UsdQt_PythonUndoBlock.Close,
          TF_VERIFY; cbn [negb fst snd].
      + split; [done|]. cbn. rewrite elem_of_app, list_elem_of_singleton.
        intros [?|?]; [by apply IHg|done].
      + destruct (ctor_depth_verified w1) as [H1 H2]; [lia|].
        split; [lia|]. intros H. by apply IHg, H2.
      + destruct (dtor_depth_verified w1) as [H1 H2]; [lia|].
        split; [lia|]. intros H. by apply IHg, H2.
      + split; [done|]. cbn. rewrite elem_of_app, list_elem_of_singleton.
        intros [?|?]; [by apply IHg|done]. }
  split_and!; [done..|].
  unfold UsdQt_PythonUndoBlock.dtor.
  destruct (python_calls cs (false, w)) as [b w1]. cbn [fst snd] in *.
  destruct b; [|lia].
  destruct (dtor_depth_verified w1) as [H1 _]; lia.
Qed.

(** ** The dirty flag *)

Lemma edit_dirty (e : Edit) (w : World) (d : gmap (list string) SpecData) :
  _layer (delegate w) = Some d →
  delegate (edit e w) = mkDelegate (Some (prim e d)) true.
Proof.
  intros Hl. rewrite edit_hook, Hl. unfold hook, _RouteInverse.
  set (w1 := _MarkCurrentStateAsDirty (TF_DEBUG (hook_msg e) w)).
  assert (_dirty (delegate w1) = true) as Hw1 by done.
  destruct (negb (IsMuted w1)).
  - destruct (_AddInverse_frame (capture d e) w1) as [_ Hdl].
    unfold set_layer_data. cbn. by rewrite Hdl, Hw1.
  - unfold set_layer_data. cbn. done.
Qed.

Lemma call_dirty (op : Op) (w : World) (d : gmap (list string) SpecData) :
  _layer (delegate w) = Some d →
  delegate (call op w).2 = mkDelegate (Some (op_post op d)) true.
Proof.
  intros Hl. rewrite (call_live _ _ d) by done. cbn [snd].
  pose proof (edit_dirty (op_edit op) (TF_DEBUG (DbgInverting op) w) d Hl)
    as Hx.
  unfold copy_snapshot. rewrite Hx. cbn. rewrite Hx. done.
Qed.

Lemma replay_dirty (ops : list Op) (w : World)
    (d : gmap (list string) SpecData) :
  _layer (delegate w) = Some d → ops ≠ [] →
  delegate (replay ops w) = mkDelegate (Some (op_posts ops d)) true.
Proof.
  intros Hl. revert w d Hl. induction ops as [|op ops IH]; intros w d Hl Hne;
    [done|].
  change (replay (op :: ops) w) with (replay ops (call op w).2).
  destruct ops as [|op' ops'].
  - cbn. by apply call_dirty.
  - rewrite (IH (call op w).2 (op_post op d)); [done| |done].
    by rewrite (call_dirty _ _ d).
Qed.

Lemma Invert_delegate (self : list Op) (w : World) :
  delegate (Invert self w).2
  = delegate
      (replay (rev self)
         (UsdQtUndoBlock_ctor
            (if negb (_depth (router w) =? 0)%Z
             then TF_CODING_ERROR open_block_msg w else w))).
Proof.
  rewrite Invert_eq. cbv zeta. cbn [snd].
  match goal with
  | |- delegate (UsdQtUndoBlock_dtor ?x) = _ =>
      destruct (dtor_frame x) as [_ ->]
  end.
  done.
Qed.

Lemma Invert_dirty (self : list Op) (w : World)
    (d : gmap (list string) SpecData) :
  _layer (delegate w) = Some d → self ≠ [] →
  delegate (Invert self w).2 = mkDelegate (Some (op_posts (rev self) d)) true.
Proof.
  intros Hl Hne. rewrite Invert_delegate.
  apply replay_dirty.
  - rewrite ctor_eq. cbn. by destruct (negb _).
  - intros Hr. apply Hne. by rewrite <- (rev_involutive self), Hr.
Qed.

(** X9. Undoing does not clean: a batch of well-formed edits made in a
    block on a layer marked clean leaves the delegate dirty, and calling
    [Invert] on the inverse of the batch gives the layer its data back
    while the delegate stays dirty; [_MarkCurrentStateAsClean] called
    after that clears the flag. *)
Theorem undo_restores_data_not_clean_flag (w : World)
    (d : gmap (list string) SpecData) (es : list Edit) :
  _depth (router w) = 0%Z → _inversion (router w) = [] →
  IsMuted w = false → _layer (delegate w) = Some d →
  listening (host w) = true → es ≠ [] →
  valid_batch d es →
  let w0 := _MarkCurrentStateAsClean w in
  let w1 := edit_block es w0 in
  let r := Invert (captures d es) w1 in
  _IsDirty w0 = false ∧
  _IsDirty w1 = true ∧
  _layer (delegate r.2) = Some d ∧
  _IsDirty r.2 = true ∧
  _IsDirty (_MarkCurrentStateAsClean r.2) = false.
Proof.
  intros Hd Hi Hm Hl Hls Hes Hv. cbv zeta.
  set (w0 := _MarkCurrentStateAsClean w).
  assert (_layer (delegate w0) = Some d) as Hl0 by done.
  destruct (edit_block_adopted es w0 d) as (_&Hl1&_); try done.
  assert (captures d es ≠ []) as Hc by (by destruct es).
  pose proof (Invert_dirty (captures d es) (edit_block es w0) _ Hl1 Hc) as Hr.
  unfold _IsDirty. rewrite Hr. cbn.
  rewrite captures_undo by (by apply valid_batch_reversible).
  split_and!; try done.
  (* the block: its last edit marks the delegate dirty *)
  unfold edit_block.
  match goal with
  | |- _dirty (delegate (UsdQtUndoBlock_dtor ?x)) = _ =>
      destruct (dtor_frame x) as [_ ->]
  end.
  destruct es as [|e es _] using rev_ind; [done|].
  rewrite foldl_app. cbn [foldl].
  set (w2 := foldl _ _ es).
  destruct (_layer (delegate w2)) as [d2|] eqn:Hl2.
  - by rewrite (edit_dirty _ _ d2).
  - exfalso.
    assert (∀ l w', _layer (delegate (foldl (λ w e, edit e w) w' l)) = None →
                    _layer (delegate w') = None) as Hnone.
    { clear. induction l as [|e l IH]; intros w' H; [done|].
      cbn in H. apply IH in H. by apply edit_frame in H. }
    apply Hnone in Hl2. rewrite ctor_eq in Hl2. cbn in Hl2. congruence.
Qed.

(** ** A host that follows the protocol *)

Lemma Invert_rest_quiet (self : list Op) (w : World)
    (d : gmap (list string) SpecData) :
  _depth (router w) = 0%Z → _inversion (router w) = [] →
  IsMuted w = false → _layer (delegate w) = Some d →
  (Invert self w).1 = op_recaptures (rev self) d ∧
  _layer (delegate (Invert self w).2) = Some (op_posts (rev self) d) ∧
  _depth (router (Invert self w).2) = 0%Z ∧
  _inversion (router (Invert self w).2) = [] ∧
  _muteDepth (router (Invert self w).2) = _muteDepth (router w) ∧
  diagnostics (Invert self w).2 = diagnostics w ∧
  notices (Invert self w).2 = notices w ∧
  host (Invert self w).2 = host w.
Proof.
  intros Hd Hi Hm Hl.
  rewrite Invert_eq. cbv zeta. rewrite Hd. cbn [Z.eqb negb].
  set (w1 := UsdQtUndoBlock_ctor w).
  assert (_depth (router w1) = 1%Z ∧ _inversion (router w1) = [] ∧
          _muteDepth (router w1) = _muteDepth (router w) ∧
          _layer (delegate w1) = Some d ∧
          host w1 = host w ∧ notices w1 = notices w ∧
          diagnostics w1 = diagnostics w) as (Hd1&Hi1&Hm1&Hl1&Hh1&Hn1&Hg1).
  { unfold w1. rewrite ctor_eq. unfold ctor_diagnostics, _GetSize in *.
    cbn. rewrite Hd, Hi. cbn. rewrite app_nil_r. done. }
  destruct (replay_live_open (rev self) w1 d)
    as (Hi2&Hd2&Hm2&Hl2&Hg2&Hn2&Hh2);
    [done|unfold IsMuted in *; by rewrite Hm1|lia|].
  cbn [fst snd]. rewrite Hi2, Hi1.
  rewrite dtor_outer_empty; cbn; [|congruence|done].
  rewrite Hl2, Hg2, Hg1, Hn2, Hn1, Hh2, Hh1, Hm2, Hm1. done.
Qed.

(** X10. A host that listens to the notice, never mutes the router and
    only runs edits, scoped blocks and [Invert] at top level never sees a
    diagnostic: whatever it does, in whatever order, with whatever
    inverses, the router is at rest after each of its calls, the layer
    stays tracked and nothing is reported. *)
Theorem protocol_reports_nothing (cs : list HostCall) (w : World)
    (d : gmap (list string) SpecData) :
  at_rest w → IsMuted w = false → _layer (delegate w) = Some d →
  listening (host w) = true →
  let w' := host_calls cs w in
  at_rest w' ∧ diagnostics w' = diagnostics w ∧
  IsMuted w' = false ∧ is_Some (_layer (delegate w')) ∧
  listening (host w') = true.
Proof.
  cbv zeta. revert w d. induction cs as [|c cs IH]; intros w d Hr Hm Hl Hls.
  - cbn. by rewrite Hl.
  - unfold host_calls. cbn [foldl]. fold (host_calls cs (host_call c w)).
    destruct Hr as [Hd Hi].
    assert (∃ d', at_rest (host_call c w) ∧
                  diagnostics (host_call c w) = diagnostics w ∧
                  IsMuted (host_call c w) = false ∧
                  _layer (delegate (host_call c w)) = Some d' ∧
                  listening (host (host_call c w)) = true)
      as (d'&Hr'&Hg'&Hm'&Hl'&Hls').
    { destruct c as [[e|body]|self]; cbn [host_call].
      - exists (prim e d). change (run (SEdit e) w) with (edit e w).
        rewrite (edit_rest _ _ d) by done.
        unfold at_rest, IsMuted in *. cbn. rewrite Hls. cbn.
        by rewrite app_nil_r.
      - destruct (block_at_rest body w d Hd Hi Hm Hl _ eq_refl)
          as (Hd'&Hi'&Hmd'&Hl'&_&Hh'&Hg').
        exists (prims (edits_of (SBlock body)) d).
        unfold at_rest, IsMuted in *. rewrite Hmd', Hg', Hh', Hls.
        destruct (edits_of (SBlock body)); by rewrite app_nil_r.
      - destruct (Invert_rest_quiet self w d Hd Hi Hm Hl)
          as (_&Hl'&Hd'&Hi'&Hmd'&Hg'&_&Hh').
        exists (op_posts (rev self) d).
        unfold at_rest, IsMuted in *. by rewrite Hmd', Hh'. }
    destruct (IH (host_call c w) d') as (?&Hg&?&?&?); try done.
    by rewrite Hg.
Qed.

(** ** Undo and redo, again and again *)

Lemma twice_captured_holds (d : gmap (list string) SpecData) (e : Edit) :
  match e with
  | ESetTimeSample p t v =>
      HasField d p SdfFieldKeys_TimeSamples = true →
      HasField (prim e d) p SdfFieldKeys_TimeSamples = true
  | _ => True
  end →
  twice_captured d e.
Proof.
  unfold twice_captured, op_recapture.
  destruct e as [p f v|p f k v|p t v|p ty i|p i|o n|p f v|p f v|p f v|p f v];
    try (intros _; reflexivity).
  intros Hkeep. unfold capture at 3 4.
  destruct (HasField d p SdfFieldKeys_TimeSamples) eqn:Hd; cbn [negb].
  - cbn [op_edit]. unfold capture at 2. rewrite (Hkeep eq_refl). cbn [negb].
    cbn [op_edit]. unfold capture. by rewrite Hd.
  - unfold HasField in Hd.
    change (bind_InvertSetField p SdfFieldKeys_TimeSamples
              (GetField d p SdfFieldKeys_TimeSamples)
            = bind_InvertSetField p SdfFieldKeys_TimeSamples None).
    by destruct (GetField d p SdfFieldKeys_TimeSamples).
Qed.

Lemma recaptured_twice (d : gmap (list string) SpecData) (es : list Edit) :
  reversible_batch d es → twice_captured_batch d es →
  op_recaptures (rev (op_recaptures (rev (captures d es)) (prims es d))) d
  = captures d es.
Proof.
  revert d. induction es as [|e es IH]; intros d Hr Ht; [done|].
  destruct Hr as [[Hundo Hredo] Hr]. destruct Ht as [Hte Ht].
  cbn [captures rev]. change (prims (e :: es) d) with (prims es (prim e d)).
  rewrite op_recaptures_app, captures_undo by done.
  cbn [op_recaptures]. rewrite rev_app_distr. cbn [rev app op_recaptures].
  rewrite Hte, Hredo, IH by done. done.
Qed.

(** X11. Undo and redo can be repeated for ever: after any even number of
    [Invert] calls on the inverse of a batch, each on what the call before
    left, the inverse holds again the closures captured for the batch and
    the layer has the edited data; one more call gives the layer the data
    it had before the batch.  The edits are those of a well-formed layer,
    and none removes the last time sample of a field. *)
Theorem undo_redo_for_ever (w : World) (d : gmap (list string) SpecData)
    (es : list Edit) (k : nat) :
  _depth (router w) = 0%Z → _inversion (router w) = [] →
  IsMuted w = false → _layer (delegate w) = Some d →
  listening (host w) = true → es ≠ [] →
  valid_batch d es → twice_captured_batch d es →
  let self := captures d es in
  let r := Invert_times (2 * k) (self, edit_block es w) in
  r.1 = self ∧
  _layer (delegate r.2) = Some (prims es d) ∧
  _layer (delegate (Invert r.1 r.2).2) = Some d ∧
  diagnostics r.2 = diagnostics w.
Proof.
  intros Hd Hi Hm Hl Hls Hes Hv Ht. cbv zeta.
  apply valid_batch_reversible in Hv.
  destruct (edit_block_adopted es w d) as (_&Hl1&Hd1&Hi1&Hm1&_); try done.
  assert (diagnostics (edit_block es w) = diagnostics w) as Hg1.
  { unfold edit_block.
    set (w1 := UsdQtUndoBlock_ctor w).
    assert (_depth (router w1) = 1%Z ∧ _inversion (router w1) = [] ∧
            _layer (delegate w1) = Some d ∧ IsMuted w1 = false ∧
            host w1 = host w ∧ diagnostics w1 = diagnostics w)
      as (Hdc&Hic&Hlc&Hmc&Hhc&Hgc).
    { unfold w1. rewrite ctor_eq.
      unfold IsMuted, ctor_diagnostics, _GetSize in *.
      cbn. rewrite Hd, Hi. cbn. rewrite app_nil_r. done. }
    destruct (edits_open es w1 d) as (Hi2&_&Hd2&_&_&Hh2); [done|done|lia|].
    cbv zeta in Hi2, Hd2, Hh2.
    assert (diagnostics (foldl (λ w e, edit e w) w1 es) = diagnostics w1)
      as Hg2.
    { assert (0 < _depth (router w1))%Z as Hpos by lia.
      revert Hlc Hmc Hpos. generalize w1 d. clear.
      induction es as [|e es IH]; intros w d Hl Hm Hd; [done|].
      cbn [foldl]. rewrite (IH (edit e w) (prim e d));
        rewrite (edit_open _ _ d) by done; done. }
    rewrite dtor_outer_pending; [|lia|].
    - cbn. rewrite Hh2, Hhc, Hls, Hg2, Hgc. by rewrite app_nil_r.
    - rewrite Hi2, Hic. by destruct es. }
  set (w1 := edit_block es w) in *. clearbody w1.
  assert (∀ w', _depth (router w') = 0%Z → _inversion (router w') = [] →
            IsMuted w' = false → _layer (delegate w') = Some (prims es d) →
            let r2 := Invert (Invert (captures d es) w').1
                        (Invert (captures d es) w').2 in
            _layer (delegate (Invert (captures d es) w').2) = Some d ∧
            r2.1 = captures d es ∧
            _depth (router r2.2) = 0%Z ∧ _inversion (router r2.2) = [] ∧
            IsMuted r2.2 = false ∧
            _layer (delegate r2.2) = Some (prims es d) ∧
            diagnostics r2.2 = diagnostics w') as Hround.
  { intros w' Hd' Hi' Hm' Hl'. cbv zeta.
    destruct (Invert_rest_quiet (captures d es) w' _ Hd' Hi' Hm' Hl')
      as (Ha&Hb&Hc&Hdd&He&Hf&_).
    rewrite captures_undo in Hb by done.
    assert (IsMuted (Invert (captures d es) w').2 = false) as Hm2.
    { unfold IsMuted in *. by rewrite He. }
    destruct (Invert_rest_quiet (Invert (captures d es) w').1
                (Invert (captures d es) w').2 _ Hc Hdd Hm2 Hb)
      as (Ha'&Hb'&Hc'&Hd''&He'&Hf'&_).
    rewrite Ha in Ha', Hb', Hc', Hd'', He', Hf' |- *.
    rewrite recaptured_twice in Ha' by done.
    rewrite captures_redo in Hb' by done.
    unfold IsMuted in *. rewrite He', He, Hf', Hf. done. }
  assert (∀ k', let r := Invert_times (2 * k') (captures d es, w1) in
            r.1 = captures d es ∧
            _depth (router r.2) = 0%Z ∧ _inversion (router r.2) = [] ∧
            IsMuted r.2 = false ∧
            _layer (delegate r.2) = Some (prims es d) ∧
            diagnostics r.2 = diagnostics w) as Hall.
  { induction k' as [|k' IH]; cbv zeta.
    - cbn. done.
    - replace (2 * S k') with (S (S (2 * k'))) by lia.
      unfold Invert_times in *. rewrite !Nat.iter_succ.
      cbv zeta in IH. destruct IH as (Ha&Hb&Hc&Hdd&He&Hf).
      set (r := Nat.iter (2 * k') _ _) in *.
      destruct (Hround r.2 Hb Hc Hdd He) as (_&H1&H2&H3&H4&H5&H6).
      cbv zeta in H1, H2, H3, H4, H5, H6.
      rewrite Ha. rewrite H1, H2, H3, H4, H5, H6. done. }
  destruct (Hall k) as (Ha&Hb&Hc&Hdd&He&Hf). cbv zeta in Ha, Hb, Hc, Hdd, He, Hf.
  split_and!; try done.
  rewrite Ha.
  by destruct (Hround _ Hb Hc Hdd He) as (H1&_).
Qed.

(** ** The invariant of the router *)

Lemma Prog_nested_ind (P : Prog → Prop) :
  (∀ e, P (PEdit e)) →
  (∀ self, P (PInvert self)) → P PMute → P PUnmute →
  (∀ body, Forall P body → P (PBlock body)) →
  ∀ p, P p.
Proof.
  intros He Hi Hm Hu Hb.
  fix IH 1.
  intros [e|self| | |body];
    [apply He|apply Hi|apply Hm|apply Hu|].
  apply Hb. induction body as [|p body IHbody]; constructor.
  - apply IH.
  - apply IHbody.
Qed.

Lemma steady_refl (w : World) : settled w → steady w w.
Proof.
  intros [_ Hp]. split_and!; [done|done|].
  exists []. by rewrite app_nil_r.
Qed.

Lemma steady_trans (w w1 w2 : World) :
  steady w w1 → steady w1 w2 → steady w w2.
Proof.
  intros (Hd&Hp&l&Hg&Hl) (Hd'&Hp'&l'&Hg'&Hl').
  split_and!; [congruence|intros; apply Hp'; congruence|].
  exists (l ++ l'). rewrite Hg', Hg, <- app_assoc. split; [done|].
  by apply Forall_app.
Qed.

Lemma steady_settled (w w' : World) : settled w → steady w w' → settled w'.
Proof.
  intros [Hd Hp] (Hd'&Hp'&_). split; [lia|].
  intros H. apply Hp'. lia.
Qed.

Lemma steady_one (x : Diagnostic) (w w' : World) :
  _depth (router w') = _depth (router w) →
  (_depth (router w) = 0%Z → _inversion (router w') = []) →
  benign x →
  (diagnostics w' = diagnostics w ∨ diagnostics w' = diagnostics w ++ [x]) →
  steady w w'.
Proof.
  intros Hd Hp Hx Hg. split_and!; [done..|].
  destruct Hg as [Hg|Hg].
  - exists []. by rewrite app_nil_r.
  - exists [x]. split; [done|]. by constructor.
Qed.

Lemma benign_not_adopted : benign (CodingError not_adopted_msg).
Proof. split; discriminate. Qed.

Lemma benign_expired (inverse : Op) : benign (CodingError (expired_msg inverse)).
Proof. split; [|discriminate]. destruct inverse; discriminate. Qed.

Lemma _AddInverse_steady (inverse : Op) (w : World) :
  settled w → steady w (_AddInverse inverse w).
Proof.
  intros [Hd Hp]. unfold _AddInverse. rewrite ctor_eq.
  unfold ctor_diagnostics.
  assert ((0 <=? _depth (router w))%Z = true) as -> by lia.
  destruct (decide (_depth (router w) = 0%Z)) as [Hz|Hnz].
  - rewrite dtor_outer_pending; cbn; [|lia|by destruct (_inversion _)].
    rewrite (Hp Hz), Hz. cbn. rewrite app_nil_r.
    apply (steady_one (CodingError not_adopted_msg));
      [by cbn|by cbn|apply benign_not_adopted|cbn].
    destruct (listening (host w)); [left; by rewrite app_nil_r|by right].
  - rewrite dtor_inner by (cbn; lia). cbn.
    assert ((_depth (router w) =? 0)%Z = false) as -> by lia.
    assert ((0 <=? _depth (router w) + 1 - 1)%Z = true) as -> by lia.
    cbn. rewrite !app_nil_r.
    apply (steady_one (CodingError not_adopted_msg));
      [cbn; lia|done|apply benign_not_adopted|by left].
Qed.

Lemma edit_steady (e : Edit) (w : World) : settled w → steady w (edit e w).
Proof.
  intros Hs. rewrite edit_hook.
  destruct (_layer (delegate w)) as [d|]; [|by apply steady_refl].
  unfold hook, _RouteInverse.
  set (w1 := _MarkCurrentStateAsDirty (TF_DEBUG (hook_msg e) w)).
  assert (router w1 = router w ∧ diagnostics w1 = diagnostics w)
    as [Hr1 Hg1] by done.
  assert (settled w1) as Hs1 by (unfold settled; by rewrite Hr1).
  clearbody w1.
  unfold steady, set_layer_data, set_delegate. cbn [router diagnostics].
  rewrite <- Hr1, <- Hg1.
  destruct (negb (IsMuted w1)).
  - exact (_AddInverse_steady (capture d e) w1 Hs1).
  - apply (steady_one (Warning muted_msg) w1 (TF_WARN muted_msg w1));
      [done|by apply Hs1|done|by right].
Qed.

Lemma call_steady (inverse : Op) (w : World) :
  settled w → steady w (call inverse w).2.
Proof.
  intros Hs. destruct (_layer (delegate w)) as [d|] eqn:Hl.
  - rewrite (call_live _ _ d) by done. cbn [snd].
    set (w1 := TF_DEBUG (DbgInverting inverse) w).
    destruct (edit_steady (op_edit inverse) w1) as (Hd&Hp&l&Hg&Hfor);
      [done|].
    assert (router (copy_snapshot inverse (edit (op_edit inverse) w1))
              = router (edit (op_edit inverse) w1) ∧
            diagnostics (copy_snapshot inverse (edit (op_edit inverse) w1))
              = diagnostics (edit (op_edit inverse) w1)) as [Hr Hg'].
    { unfold copy_snapshot.
      destruct (_layer (delegate (edit (op_edit inverse) w1)));
        split; reflexivity. }
    unfold steady. rewrite Hr, Hg'.
    split_and!; [exact Hd|exact Hp|]. exists l. split; [exact Hg|done].
  - rewrite call_expired by done. cbn [snd].
    apply (steady_one (CodingError (expired_msg inverse)));
      [done|by apply Hs|apply benign_expired|by right].
Qed.

Lemma replay_steady (ops : list Op) (w : World) :
  settled w → steady w (replay ops w).
Proof.
  revert w. induction ops as [|op ops IH]; intros w Hs;
    [by apply steady_refl|].
  change (replay (op :: ops) w) with (replay ops (call op w).2).
  pose proof (call_steady op w Hs) as H1.
  eapply steady_trans; [done|].
  apply IH. by eapply steady_settled.
Qed.

Lemma ctor_settled (w : World) :
  settled w →
  _depth (router (UsdQtUndoBlock_ctor w)) = (_depth (router w) + 1)%Z ∧
  _inversion (router (UsdQtUndoBlock_ctor w)) = _inversion (router w) ∧
  diagnostics (UsdQtUndoBlock_ctor w) = diagnostics w.
Proof.
  intros [Hd Hp]. rewrite ctor_eq. cbn. unfold ctor_diagnostics, _GetSize.
  assert ((0 <=? _depth (router w))%Z = true) as -> by lia.
  destruct (decide (_depth (router w) = 0%Z)) as [Hz|Hnz].
  - rewrite (Hp Hz). cbn. rewrite andb_false_r. by rewrite app_nil_r.
  - assert ((_depth (router w) =? 0)%Z = false) as -> by lia.
    by rewrite app_nil_r.
Qed.

Lemma dtor_settled (w : World) :
  (1 ≤ _depth (router w))%Z →
  _depth (router (UsdQtUndoBlock_dtor w)) = (_depth (router w) - 1)%Z ∧
  (_depth (router w) = 1%Z → _inversion (router (UsdQtUndoBlock_dtor w)) = []) ∧
  ∃ l, diagnostics (UsdQtUndoBlock_dtor w) = diagnostics w ++ l ∧
       Forall benign l.
Proof.
  intros Hd.
  destruct (decide (_depth (router w) = 1%Z)) as [Hz|Hnz].
  - destruct (_inversion (router w)) as [|op inv] eqn:Hi.
    + rewrite dtor_outer_empty by done. cbn. split_and!; [lia|done|].
      exists []. by rewrite app_nil_r.
    + rewrite dtor_outer_pending by (by rewrite ?Hi). cbn.
      split_and!; [lia|done|].
      destruct (listening (host w)).
      * exists []. done.
      * exists [CodingError not_adopted_msg]. split; [done|].
        constructor; [apply benign_not_adopted|done].
  - rewrite dtor_inner by done. cbn. split_and!; [done|done|].
    assert ((0 <=? _depth (router w) - 1)%Z = true) as -> by lia.
    exists []. done.
Qed.

Lemma block_steady (body : World → World) (w : World) :
  settled w →
  (∀ w1, settled w1 → steady w1 (body w1)) →
  steady w (UsdQtUndoBlock_dtor (body (UsdQtUndoBlock_ctor w))).
Proof.
  intros Hs Hbody.
  destruct (ctor_settled w Hs) as (Hd1&Hi1&Hg1).
  set (w1 := UsdQtUndoBlock_ctor w) in *.
  assert (settled w1) as Hs1.
  { destruct Hs as [Hd Hp]. split; [lia|]. intros ?. lia. }
  destruct (Hbody w1 Hs1) as (Hd2&_&l2&Hg2&Hl2).
  destruct (dtor_settled (body w1)) as (Hd3&Hp3&l3&Hg3&Hl3);
    [destruct Hs; lia|].
  split_and!; [lia|intros Hz; apply Hp3; lia|].
  exists (l2 ++ l3). rewrite Hg3, Hg2, Hg1, <- app_assoc.
  split; [done|]. by apply Forall_app.
Qed.

Lemma Invert_steady (self : list Op) (w : World) :
  settled w → steady w (Invert self w).2.
Proof.
  intros Hs. rewrite Invert_eq. cbv zeta. cbn [snd].
  set (w0 := if negb (_depth (router w) =? 0)%Z
             then TF_CODING_ERROR open_block_msg w else w).
  assert (steady w w0) as H0.
  { unfold w0. destruct (negb _); [|by apply steady_refl].
    apply (steady_one (CodingError open_block_msg));
      [done|by apply Hs|split; discriminate|by right]. }
  eapply steady_trans; [done|].
  apply (block_steady (λ w1, set_inversion [] (replay (rev self) w1)));
    [by eapply steady_settled|].
  intros w1 Hs1.
  destruct (replay_steady (rev self) w1 Hs1) as (Hd&Hp&l&Hg&Hl).
  split_and!; [done|done|]. by exists l.
Qed.

Lemma exec_steady (p : Prog) : ∀ w, settled w → steady w (exec p w).
Proof.
  induction p as [e|self| | |body IH] using Prog_nested_ind;
    intros w Hs; cbn [exec].
  - by apply edit_steady.
  - by apply Invert_steady.
  - apply (steady_one (Warning muted_msg)); [done|by apply Hs|done|by left].
  - rewrite _Unmute_eq.
    apply (steady_one (CodingError mute_depth_msg));
      [done|by apply Hs|split; discriminate|cbn].
    destruct (_ <? _)%Z; [by right|left; by rewrite app_nil_r].
  - apply (block_steady (λ w1, foldl (λ w p, exec p w) w1 body)); [done|].
    induction IH as [|p body Hp _ IHbody]; intros w1 Hs1;
      [by apply steady_refl|].
    cbn [foldl]. eapply steady_trans; [by apply Hp|].
    apply IHbody. eapply steady_settled; [done|]. by apply Hp.
Qed.

(** X12. With one tracked layer the router keeps its invariant whatever
    the code does: after any sequence of edits of the layer, [Invert] calls
    on inverses of that layer, mute and unmute calls and scoped blocks,
    nested at will, while the layer is live or after it has expired, with
    a host that listens or not, the depth is what it was, nothing is
    pending when no block is open, and neither the fragmented-block error
    of the block constructor nor the failed verify of the depth has been
    reported. *)
Theorem router_invariant_kept (ps : list Prog) (w : World) :
  settled w →
  let w' := foldl (λ w p, exec p w) w ps in
  settled w' ∧
  _depth (router w') = _depth (router w) ∧
  (CodingError fragmented_msg ∈ diagnostics w' →
   CodingError fragmented_msg ∈ diagnostics w) ∧
  (FailedVerify depth_verify_expr ∈ diagnostics w' →
   FailedVerify depth_verify_expr ∈ diagnostics w).
Proof.
  intros Hs. cbv zeta.
  assert (steady w (foldl (λ w p, exec p w) w ps)) as Hst.
  { revert w Hs. induction ps as [|p ps IH]; intros w Hs;
      [by apply steady_refl|].
    cbn [foldl]. eapply steady_trans; [by apply exec_steady|].
    apply IH. eapply steady_settled; [done|]. by apply exec_steady. }
  split; [by eapply steady_settled|].
  destruct Hst as (Hd&_&l&Hg&Hl). split; [done|].
  rewrite Hg. split; intros [H|H]%elem_of_app; try done;
    rewrite Forall_forall in Hl; by destruct (Hl _ H).
Qed.

(** ** Edits taken from the router by hand *)

(** X13. Edits that the host takes from the router itself before the
    outermost block closes are not notified: [TransferEdits] hands the
    pending closures to the inverse, after those it holds, and the close
    that follows finds nothing pending, so it sends no notice and does not
    call the host.  An inverse constructed from the router takes the
    pending closures in the same way. *)
Theorem transferred_edits_are_not_notified (inverse : list Op) (w : World) :
  _depth (router w) = 1%Z →
  let r := TransferEdits inverse w in
  let w' := UsdQtUndoBlock_dtor r.2 in
  r.1.2 = inverse ++ _inversion (router w) ∧
  UsdQtUndoInverse_from_router w = (_inversion (router w), r.2) ∧
  notices w' = notices w ∧ host w' = host w ∧
  diagnostics w' = diagnostics w ∧
  _depth (router w') = 0%Z ∧ _inversion (router w') = [].
Proof.
  intros Hd. cbv zeta. unfold TransferEdits, UsdQtUndoInverse_from_router.
  cbn [fst snd]. rewrite !_Adopt_app. cbn [app].
  rewrite dtor_outer_empty by done. done.
Qed.

(** * Examples for the further properties *)

Lemma bare_edits_notified_one_by_one_witness :
  let es := [write_size_9; ESetField ["World"] "size" None] in
  let w' := foldl (λ w e, edit e w) demo_world es in
  notices w' = notices demo_world + length es ∧
  undoStack (host w')
    = rev ((λ inverse, [inverse]) <$> captures demo_layer es)
        ++ undoStack (host demo_world) ∧
  _layer (delegate w') = Some (prims es demo_layer) ∧
  _depth (router w') = 0%Z ∧ _inversion (router w') = [] ∧
  diagnostics w' = diagnostics demo_world.
Proof.
  apply (bare_edits_notified_one_by_one
           [write_size_9; ESetField ["World"] "size" None]
           demo_world demo_layer); reflexivity.
Defined.

Lemma nested_blocks_hand_over_one_inverse_witness :
  let body := [SEdit write_size_9;
               SBlock [SEdit (ESetField ["World"] "size" None); SBlock []];
               SEdit (ECreateSpec ["World"; "geo"] SdfSpecTypePrim false)] in
  let es := edits_of (SBlock body) in
  let w' := run (SBlock body) demo_world in
  (es ≠ [] →
     notices w' = S (notices demo_world) ∧
     undoStack (host w')
       = captures demo_layer es :: undoStack (host demo_world)) ∧
  (es = [] → notices w' = notices demo_world ∧ host w' = host demo_world) ∧
  _layer (delegate w') = Some (prims es demo_layer) ∧
  _depth (router w') = 0%Z ∧ _inversion (router w') = [] ∧
  diagnostics w' = diagnostics demo_world.
Proof.
  apply (nested_blocks_hand_over_one_inverse
           [SEdit write_size_9;
            SBlock [SEdit (ESetField ["World"] "size" None); SBlock []];
            SEdit (ECreateSpec ["World"; "geo"] SdfSpecTypePrim false)]
           demo_world demo_layer); reflexivity.
Defined.

Lemma unadopted_edits_are_dropped_witness :
  let w := (TrackLayer demo_layer (initial (mkHost false []))).2 in
  let body := [SEdit write_size_9; SBlock [SEdit write_size_9]] in
  let w' := run (SBlock body) w in
  diagnostics w' = diagnostics w ++ [CodingError not_adopted_msg] ∧
  notices w' = S (notices w) ∧
  host w' = host w ∧
  _inversion (router w') = [] ∧ _depth (router w') = 0%Z ∧
  _layer (delegate w') = Some (prims (edits_of (SBlock body)) demo_layer).
Proof.
  apply (unadopted_edits_are_dropped
           [SEdit write_size_9; SBlock [SEdit write_size_9]]
           (TrackLayer demo_layer (initial (mkHost false []))).2 demo_layer);
    [reflexivity..|discriminate].
Defined.

Lemma muted_edits_are_not_recorded_witness :
  let es := [write_size_9; EDeleteSpec ["World"] false] in
  let w' := _Unmute (foldl (λ w e, edit e w) (_Mute demo_world_in_block) es) in
  router w' = router demo_world_in_block ∧
  _layer (delegate w') = Some (prims es demo_layer) ∧
  diagnostics w'
    = diagnostics demo_world_in_block
        ++ replicate (length es) (Warning muted_msg) ∧
  notices w' = notices demo_world_in_block ∧
  host w' = host demo_world_in_block.
Proof.
  apply (muted_edits_are_not_recorded
           [write_size_9; EDeleteSpec ["World"] false]
           demo_world_in_block demo_layer);
    [vm_compute; discriminate|reflexivity].
Defined.

Lemma Invert_while_muted_loses_redo_witness :
  let self := [bind_InvertSetField ["World"] "size" (Some (VtInt 7))] in
  let r := Invert self (_Mute demo_world) in
  r.1 = [] ∧
  _layer (delegate r.2) = Some (op_posts (rev self) demo_layer) ∧
  diagnostics r.2
    = diagnostics (_Mute demo_world)
        ++ replicate (length self) (Warning muted_msg) ∧
  router r.2 = router (_Mute demo_world) ∧
  _layer (delegate (Invert r.1 r.2).2)
    = Some (op_posts (rev self) demo_layer).
Proof.
  apply (Invert_while_muted_loses_redo
           [bind_InvertSetField ["World"] "size" (Some (VtInt 7))]
           (_Mute demo_world) demo_layer); reflexivity.
Defined.

Lemma Invert_on_expired_layer_witness :
  let self := [bind_InvertSetField ["World"] "size" (Some (VtInt 7));
               bind_InvertCreateSpec ["World"; "geo"] false] in
  let w := initial (mkHost true []) in
  let r := Invert self w in
  r.1 = [] ∧
  diagnostics r.2
    = diagnostics w ++ ((λ op, CodingError (expired_msg op)) <$> rev self) ∧
  router r.2 = router w ∧ delegate r.2 = delegate w ∧
  notices r.2 = notices w ∧ host r.2 = host w.
Proof.
  apply (Invert_on_expired_layer
           [bind_InvertSetField ["World"] "size" (Some (VtInt 7));
            bind_InvertCreateSpec ["World"; "geo"] false]
           (initial (mkHost true []))); reflexivity.
Defined.

Lemma Invert_inside_open_block_witness :
  let self := [bind_InvertSetField ["World"] "size" (Some (VtInt 7))] in
  let w := edit write_size_9 demo_world_in_block in
  let d := prim write_size_9 demo_layer in
  let r := Invert self w in
  r.1 = _inversion (router w) ++ op_recaptures (rev self) d ∧
  diagnostics r.2 = diagnostics w ++ [CodingError open_block_msg] ∧
  _inversion (router r.2) = [] ∧
  _depth (router r.2) = _depth (router w) ∧
  _layer (delegate r.2) = Some (op_posts (rev self) d) ∧
  notices r.2 = notices w ∧ host r.2 = host w.
Proof.
  apply (Invert_inside_open_block
           [bind_InvertSetField ["World"] "size" (Some (VtInt 7))]
           (edit write_size_9 demo_world_in_block)
           (prim write_size_9 demo_layer));
    [vm_compute; reflexivity|reflexivity|reflexivity].
Defined.

Lemma python_block_keeps_depth_witness :
  let cs := [PyClose; PyOpen; PyOpen; PyClose; PyClose; PyOpen] in
  let r := python_calls cs (UsdQt_PythonUndoBlock.ctor, demo_world) in
  _depth (router r.2)
    = (_depth (router demo_world) + if r.1 then 1 else 0)%Z ∧
  (FailedVerify depth_verify_expr ∈ diagnostics r.2 →
   FailedVerify depth_verify_expr ∈ diagnostics demo_world) ∧
  _depth (router (UsdQt_PythonUndoBlock.dtor r.1 r.2))
    = _depth (router demo_world).
Proof.
  apply (python_block_keeps_depth
           [PyClose; PyOpen; PyOpen; PyClose; PyClose; PyOpen] demo_world).
  vm_compute. discriminate.
Defined.

Lemma undo_restores_data_not_clean_flag_witness :
  let w0 := _MarkCurrentStateAsClean demo_world in
  let w1 := edit_block [write_size_9] w0 in
  let r := Invert (captures demo_layer [write_size_9]) w1 in
  _IsDirty w0 = false ∧
  _IsDirty w1 = true ∧
  _layer (delegate r.2) = Some demo_layer ∧
  _IsDirty r.2 = true ∧
  _IsDirty (_MarkCurrentStateAsClean r.2) = false.
Proof.
  apply (undo_restores_data_not_clean_flag demo_world demo_layer
           [write_size_9]);
    [reflexivity..|discriminate|split; exact I].
Defined.

Lemma protocol_reports_nothing_witness :
  let cs := [HostRun (SBlock [SEdit write_size_9]);
             HostInvert [bind_InvertSetField ["World"] "size" (Some (VtInt 5))];
             HostRun (SEdit (EDeleteSpec ["World"] false));
             HostInvert [bind_InvertMoveSpec ["a"] ["b"]]] in
  let w' := host_calls cs demo_world in
  at_rest w' ∧ diagnostics w' = diagnostics demo_world ∧
  IsMuted w' = false ∧ is_Some (_layer (delegate w')) ∧
  listening (host w') = true.
Proof.
  apply (protocol_reports_nothing
           [HostRun (SBlock [SEdit write_size_9]);
            HostInvert [bind_InvertSetField ["World"] "size" (Some (VtInt 5))];
            HostRun (SEdit (EDeleteSpec ["World"] false));
            HostInvert [bind_InvertMoveSpec ["a"] ["b"]]]
           demo_world demo_layer);
    [split; reflexivity|reflexivity..].
Defined.

Lemma undo_redo_for_ever_witness :
  let es := [write_size_9; ESetField ["World"] "size" None;
             EPushTokenChild ["Other"] "primChildren" "geo"] in
  let self := captures demo_layer es in
  let r := Invert_times (2 * 3) (self, edit_block es demo_world) in
  r.1 = self ∧
  _layer (delegate r.2) = Some (prims es demo_layer) ∧
  _layer (delegate (Invert r.1 r.2).2) = Some demo_layer ∧
  diagnostics r.2 = diagnostics demo_world.
Proof.
  apply (undo_redo_for_ever demo_world demo_layer
           [write_size_9; ESetField ["World"] "size" None;
            EPushTokenChild ["Other"] "primChildren" "geo"]
           3);
    [reflexivity..|discriminate| |].
  - split; [exact I|]. split; [exact I|]. split; [|exact I].
    left. vm_compute. reflexivity.
  - split; [reflexivity|]. split; [reflexivity|].
    split; [reflexivity|exact I].
Defined.

Lemma router_invariant_kept_witness :
  let ps := [PBlock [PEdit write_size_9;
                     PInvert [bind_InvertSetField ["World"] "size" None];
                     PMute; PBlock [PEdit write_size_9]];
             PUnmute; PUnmute; PEdit write_size_9] in
  let w := (TrackLayer demo_layer (initial (mkHost false []))).2 in
  let w' := foldl (λ w p, exec p w) w ps in
  settled w' ∧
  _depth (router w') = _depth (router w) ∧
  (CodingError fragmented_msg ∈ diagnostics w' →
   CodingError fragmented_msg ∈ diagnostics w) ∧
  (FailedVerify depth_verify_expr ∈ diagnostics w' →
   FailedVerify depth_verify_expr ∈ diagnostics w).
Proof.
  apply (router_invariant_kept
           [PBlock [PEdit write_size_9;
                    PInvert [bind_InvertSetField ["World"] "size" None];
                    PMute; PBlock [PEdit write_size_9]];
            PUnmute; PUnmute; PEdit write_size_9]
           (TrackLayer demo_layer (initial (mkHost false []))).2).
  split; [vm_compute; discriminate|reflexivity].
Defined.

Lemma transferred_edits_are_not_notified_witness :
  let inverse := [bind_InvertMoveSpec ["a"] ["b"]] in
  let w := edit write_size_9 demo_world_in_block in
  let r := TransferEdits inverse w in
  let w' := UsdQtUndoBlock_dtor r.2 in
  r.1.2 = inverse ++ _inversion (router w) ∧
  UsdQtUndoInverse_from_router w = (_inversion (router w), r.2) ∧
  notices w' = notices w ∧ host w' = host w ∧
  diagnostics w' = diagnostics w ∧
  _depth (router w') = 0%Z ∧ _inversion (router w') = [].
Proof.
  apply (transferred_edits_are_not_notified
           [bind_InvertMoveSpec ["a"] ["b"]]
           (edit write_size_9 demo_world_in_block)).
  reflexivity.
Defined.
